(** * react-file-uploaders: the upload orchestration core

    A shallow embedding of
    - [app/api/upload/route.ts], the signed-URL exchange endpoint;
    - [DropzoneFileUploader]: its validator, [onDrop], [removeFile],
      [uploadFile] and [handleUpload];
    - [components/UppyFileUploader.tsx], the handlers of Uppy's events;
    followed by the properties of the upload state machine.

    Asynchronous code is modelled by the state it leaves behind and the
    events that resume it: a pending [await] or callback is a stage of a
    task, and the browser delivering an answer is an event of the run. *)

From stdpp Require Import base strings list gmap pretty.
From Stdlib Require Import ZArith QArith Ascii.

Open Scope Z_scope.

(** ** JavaScript string operations used by the sources

    A text is modelled by the bytes of its UTF-8 form.  The delimiters the
    sources search for are ASCII, and there the operations on bytes and on
    UTF-16 code units agree. *)

Module Js.

(** [s.startsWith(p)] *)
Definition startsWith (p s : string) : bool := String.prefix p s.

(** [s.includes(sub)] *)
Fixpoint includes (sub s : string) : bool :=
  String.prefix sub s ||
  match s with
  | EmptyString => false
  | String _ s' => includes sub s'
  end.

(** [s.split(sep)] for a non-empty separator: the pieces between the
    occurrences of [sep], found left to right.  [skip] counts the characters
    of a separator still to be passed over; the head of the result is the
    piece being read. *)
Fixpoint split_go (sep : string) (skip : nat) (s : string) : list string :=
  match s with
  | EmptyString => [""]
  | String c s' =>
      match skip with
      | S k => split_go sep k s'
      | O =>
          if String.prefix sep s
          then "" :: split_go sep (String.length sep - 1) s'
          else match split_go sep 0 s' with
               | piece :: rest => String c piece :: rest
               | [] => [String c ""]
               end
      end
  end.

Definition split (sep s : string) : list string := split_go sep 0 s.

(** A value spliced into a template literal: [undefined] prints as such. *)
Definition template (v : option string) : string := default "undefined" v.

End Js.


(** ** Reading the query of a request, [new URL(request.url).searchParams]

    The URL parser belongs to the platform.  It is modelled from the URL
    standard, a text being read as the bytes of its UTF-8 form: the query
    runs from the first [?] to the first [#]; it is cut at every [&] into
    pairs, each cut at its first [=]; in a name or value [+] stands for a
    space and [%XY] for the byte [XY]. *)

Module Url.

Fixpoint allChars (P : ascii → bool) (s : string) : bool :=
  match s with
  | EmptyString => true
  | String c s' => P c && allChars P s'
  end.

(** The text before the first [c], all of it when there is none. *)
Fixpoint beforeChar (c : ascii) (s : string) : string :=
  match s with
  | EmptyString => EmptyString
  | String x s' => if Ascii.eqb x c then EmptyString else String x (beforeChar c s')
  end.

(** The text after the first [c], if there is one. *)
Fixpoint afterChar (c : ascii) (s : string) : option string :=
  match s with
  | EmptyString => None
  | String x s' => if Ascii.eqb x c then Some s' else afterChar c s'
  end.

Definition hexValue (c : ascii) : option nat :=
  let n := nat_of_ascii c in
  if bool_decide (48 ≤ n ≤ 57)%nat then Some (n - 48)%nat
  else if bool_decide (65 ≤ n ≤ 70)%nat then Some (n - 55)%nat
  else if bool_decide (97 ≤ n ≤ 102)%nat then Some (n - 87)%nat
  else None.

Fixpoint percentDecode (s : string) : string :=
  match s with
  | EmptyString => EmptyString
  | String c s1 =>
      if Ascii.eqb c "%" then
        match s1 with
        | String a (String b rest) =>
            match hexValue a, hexValue b with
            | Some x, Some y =>
                String (ascii_of_nat (16 * x + y)) (percentDecode rest)
            | _, _ => String c (percentDecode s1)
            end
        | _ => String c (percentDecode s1)
        end
      else String c (percentDecode s1)
  end.

Fixpoint plusToSpace (s : string) : string :=
  match s with
  | EmptyString => EmptyString
  | String c s' =>
      String (if Ascii.eqb c "+" then " "%char else c) (plusToSpace s')
  end.

Definition formDecode (s : string) : string := percentDecode (plusToSpace s).

Definition pair (piece : string) : string * string :=
  (formDecode (beforeChar "=" piece),
   formDecode (default "" (afterChar "=" piece))).

Definition searchParams (url : string) : list (string * string) :=
  match afterChar "?" (beforeChar "#" url) with
  | Some query =>
      map pair
        (List.filter (λ piece, negb (String.eqb piece "")) (Js.split "&" query))
  | None => []
  end.

(** [searchParams.get(name)]: the value of the first pair of that name. *)
Definition get (name : string) (url : string) : option string :=
  snd <$> List.find (λ p, String.eqb (fst p) name) (searchParams url).

(** The characters a URL leaves as they are everywhere: letters, digits and
    [- . _ ~]. *)
Definition unreserved (c : ascii) : bool :=
  let n := nat_of_ascii c in
  bool_decide (48 ≤ n ≤ 57)%nat || bool_decide (65 ≤ n ≤ 90)%nat
  || bool_decide (97 ≤ n ≤ 122)%nat
  || Ascii.eqb c "-" || Ascii.eqb c "." || Ascii.eqb c "_" || Ascii.eqb c "~".

Definition dashless (c : ascii) : bool := negb (Ascii.eqb c "-").

(** The upper-case hexadecimal digit of [n < 16]. *)
Definition hexDigit (n : nat) : ascii :=
  if bool_decide (n < 10)%nat then ascii_of_nat (48 + n)
  else ascii_of_nat (55 + n).

(** [%XY] for the byte [c]. *)
Definition percentEncode (c : ascii) : string :=
  let n := nat_of_ascii c in
  String "%" (String (hexDigit (n / 16)) (String (hexDigit (n mod 16)) "")).

End Url.

(** ** The exchange endpoint, [route.ts] *)

Module Route.

(** [Key: `uploads/${Date.now()}-${filename}`] in [POST]. *)
Definition objectName (now : Z) (filename : string) : string :=
  pretty now +:+ "-" +:+ filename.

Definition storageKey (now : Z) (filename : string) : string :=
  "uploads/" +:+ objectName now filename.

(** How the storage SDK writes an object key into the path of a URL,
    [key.split("/").map(extendedEncodeURIComponent).join("/")]: letters,
    digits and [- . _ ~] stay, [/] separates the segments, and every other
    byte of the UTF-8 text becomes [%XY]. *)
Definition pathPiece (c : ascii) : string :=
  if Url.unreserved c || Ascii.eqb c "/" then String c ""
  else Url.percentEncode c.

Fixpoint encodePath (key : string) : string :=
  match key with
  | EmptyString => EmptyString
  | String c rest => pathPiece c +:+ encodePath rest
  end.

(** [getSignedUrl] belongs to the storage SDK.  Its result is the bucket
    origin, the encoded object key as the path, and the signature as the
    query. *)
Definition presignedUrl (origin query key : string) : string :=
  origin +:+ "/" +:+ encodePath key +:+ "?" +:+ query.

End Route.

(** ** Key derivation on the client ([uploadFile] and the Uppy
    [upload-success] handler share it verbatim) *)

Module Exchange.

(** [uploadURL.split('?')[0].split('/uploads/')[1]] *)
Definition key (uploadURL : string) : option string :=
  match Js.split "?" uploadURL !! 0%nat with
  | Some path => Js.split "/uploads/" path !! 1%nat
  | None => None
  end.

(** The key named by [`/api/upload?key=uploads/${key}`]. *)
Definition requestedKey (uploadURL : string) : string :=
  "uploads/" +:+ Js.template (key uploadURL).

Definition viewRequest (uploadURL : string) : string :=
  "/api/upload?key=" +:+ requestedKey uploadURL.

End Exchange.

(** ** The Dropzone uploader: data model *)

Module Dropzone.

(** The browser's [File], as far as the component reads it. *)
Record File := { name : string; type : string; size : Z }.

Inductive Status := pending | uploading | success | error.

#[export] Instance Status_eq_dec : EqDecision Status.
Proof. solve_decision. Defined.

(** [interface FileWithPreview].  [name], [size], [type], [lastModified] and
    [slice] are copied from [originalFile] and never written again, so they
    are read through it.  [xhr] holds the request object; requests are told
    apart by the index of the upload task that created them. *)
Record FileWithPreview := {
  id : string;
  originalFile : File;
  preview : option string;
  uploadProgress : Q;
  status : Status;
  errorMessage : option string;
  xhr : option nat
}.

Definition MAX_IMAGE_SIZE : Z := 5 * 1024 * 1024.
Definition MAX_VIDEO_SIZE : Z := 50 * 1024 * 1024.

Definition ACCEPTED_IMAGE_TYPES : list (string * list string) :=
  [ ("image/jpeg", [".jpg"; ".jpeg"]);
    ("image/png", [".png"]);
    ("image/webp", [".webp"]);
    ("image/gif", [".gif"]) ].

Definition ACCEPTED_VIDEO_TYPES : list (string * list string) :=
  [ ("video/mp4", [".mp4"]);
    ("video/quicktime", [".mov"]);
    ("video/x-msvideo", [".avi"]);
    ("video/webm", [".webm"]) ].

(** *** The validator passed to [useDropzone] *)

Record FileError := { code : string; message : string }.

Definition validator (file : File) : option FileError :=
  let isImage := Js.startsWith "image/" (type file) in
  let maxSize := if isImage then MAX_IMAGE_SIZE else MAX_VIDEO_SIZE in
  if bool_decide (size file > maxSize) then
    let maxSizeInMB := maxSize / (1024 * 1024) in
    Some {| code := "file-too-large";
            message := "File is larger than " +:+ pretty maxSizeInMB +:+ " MB" |}
  else None.

(** *** [onDrop] *)

Record FileRejection := { file : File; errors : list FileError }.

(** The message built for one error of a rejected file (the [switch] on
    [error.code]). *)
Definition rejectionMessage (file : File) (error : FileError) : string :=
  if String.eqb (code error) "file-too-large" then
    let maxSize :=
      if Js.startsWith "image/" (type file)
      then MAX_IMAGE_SIZE else MAX_VIDEO_SIZE in
    let maxSizeInMB := maxSize / (1024 * 1024) in
    name file +:+ " is too large. Maximum size is "
      +:+ pretty maxSizeInMB +:+ "MB"
  else if String.eqb (code error) "file-invalid-type" then
    name file +:+ " has an invalid file type. Only images (JPG, PNG, WebP, GIF) and videos (MP4, MOV, AVI, WebM) are allowed"
  else name file +:+ ": " +:+ message error.

(** An accepted file together with what the environment answers while it is
    mapped: the clock read by [Date.now()] and the handle returned by
    [URL.createObjectURL]. *)
Record Accepted := { dropped : File; now : Z; objectURL : string }.

(** The body of [acceptedFiles.map]: a notice and [null] for an oversized
    file, the new [FileWithPreview] otherwise. *)
Definition track (a : Accepted) : string + FileWithPreview :=
  let file := dropped a in
  let isImage := Js.startsWith "image/" (type file) in
  let maxSize := if isImage then MAX_IMAGE_SIZE else MAX_VIDEO_SIZE in
  if bool_decide (size file > maxSize) then
    let maxSizeInMB := maxSize / (1024 * 1024) in
    inl (name file +:+ " exceeds the " +:+ pretty maxSizeInMB
           +:+ "MB size limit")
  else
    inr {| id := name file +:+ "-" +:+ pretty (now a);
           originalFile := file;
           preview := if isImage then Some (objectURL a) else None;
           uploadProgress := 0;
           status := pending;
           errorMessage := None;
           xhr := None |}.

(** [onDrop (acceptedFiles, fileRejections)] on the batch [prev]: the
    notices passed to [onError], in order, and the batch afterwards. *)
Definition onDrop (acceptedFiles : list Accepted)
    (fileRejections : list FileRejection)
    (prev : list FileWithPreview) : list string * list FileWithPreview :=
  let rejected :=
    flat_map (λ r, map (rejectionMessage (file r)) (errors r)) fileRejections in
  let tracked := map track acceptedFiles in
  let oversized :=
    flat_map (λ t, match t with inl m => [m] | inr _ => [] end) tracked in
  let newFiles :=
    flat_map (λ t, match t with inl _ => [] | inr f => [f] end) tracked in
  (rejected ++ oversized,
   if bool_decide (0 < length newFiles)%nat then prev ++ newFiles else prev).

(** *** react-dropzone's reading and sorting of dropped files

    The library owns these steps; they are modelled from what it does.  Its
    file reader first gives a file whose declared type is empty the type it
    knows for the extension of the name.  The file then passes the accept
    check when its type is [application/x-moz-file], or is one of the
    keys of the accept list, or when its name ends, ignoring case, with one
    of the listed extensions; the errors of a file are the accept error
    followed by what [validator] returns, and a file with no error is
    accepted. *)

Definition lowerChar (c : ascii) : ascii :=
  let n := nat_of_ascii c in
  if bool_decide (65 ≤ n ≤ 90)%nat then ascii_of_nat (n + 32) else c.

Fixpoint toLowerCase (s : string) : string :=
  match s with
  | EmptyString => EmptyString
  | String c s' => String (lowerChar c) (toLowerCase s')
  end.

Fixpoint endsWith (suffix s : string) : bool :=
  String.eqb s suffix ||
  match s with
  | EmptyString => false
  | String _ s' => endsWith suffix s'
  end.

Definition matchesAccept (table : list (string * list string)) (file : File)
    : bool :=
  existsb (λ entry,
             String.eqb (type file) (fst entry)
             || existsb (λ ext, endsWith ext (toLowerCase (name file)))
                  (snd entry))
          table.

(** The check against the accept list,
    [{ ...ACCEPTED_IMAGE_TYPES, ...ACCEPTED_VIDEO_TYPES }]. *)
Definition fileAccepted (file : File) : bool :=
  matchesAccept (ACCEPTED_IMAGE_TYPES ++ ACCEPTED_VIDEO_TYPES) file.

(** The library lets a file of type [application/x-moz-file] pass without
    looking at the list. *)
Definition acceptable (file : File) : bool :=
  String.eqb (type file) "application/x-moz-file" || fileAccepted file.

(** [array.pop()] on the pieces of a split, which are never none. *)
Definition pop (pieces : list string) : string := List.last pieces "".

(** The file reader's [withMimeType]: a file that has an extension and no
    declared type is given the type that [COMMON_MIME_TYPES], the reader's
    table, holds for the lower-cased extension, if it holds one.  The table
    belongs to the library and is a parameter here. *)
Definition withMimeType (COMMON_MIME_TYPES : string → option string)
    (file : File) : File :=
  let hasExtension :=
    negb (String.eqb (name file) "") && Js.includes "." (name file) in
  if hasExtension && String.eqb (type file) "" then
    let ext := toLowerCase (pop (Js.split "." (name file))) in
    match COMMON_MIME_TYPES ext with
    | Some known =>
        if String.eqb known "" then file
        else {| name := name file; type := known; size := size file |}
    | None => file
    end
  else file.

(** The accept error; [onDrop] reads its code only. *)
Definition invalidType : FileError :=
  {| code := "file-invalid-type"; message := "File type is not accepted" |}.

Definition fileErrors (file : File) : list FileError :=
  (if acceptable file then [] else [invalidType])
  ++ match validator file with Some e => [e] | None => [] end.

(** Whether the library rejects the file as read, and with which errors. *)
Definition rejection (file : File) : option FileRejection :=
  match fileErrors file with
  | [] => None
  | errs => Some {| file := file; errors := errs |}
  end.

(** *** The classes as the specification words them

    The class is decided by the declared MIME type and, when that is empty or
    not on an allow-list, by the extension of the file name. *)

Inductive MediaClass := ImageClass | VideoClass.

Definition specClass (file : File) : option MediaClass :=
  if existsb (λ entry, String.eqb (type file) (fst entry)) ACCEPTED_IMAGE_TYPES
  then Some ImageClass
  else if existsb (λ entry, String.eqb (type file) (fst entry))
            ACCEPTED_VIDEO_TYPES
  then Some VideoClass
  else if matchesAccept ACCEPTED_IMAGE_TYPES file then Some ImageClass
  else if matchesAccept ACCEPTED_VIDEO_TYPES file then Some VideoClass
  else None.

Definition specLimit (c : MediaClass) : Z :=
  match c with ImageClass => MAX_IMAGE_SIZE | VideoClass => MAX_VIDEO_SIZE end.

(** The limit the code measures a file against: the image limit exactly
    when the type of the file as read starts with [image/], the video limit
    otherwise. *)
Definition classLimit (file : File) : Z :=
  if Js.startsWith "image/" (type file) then MAX_IMAGE_SIZE else MAX_VIDEO_SIZE.

Definition limitInMB (file : File) : Z := classLimit file / (1024 * 1024).

(** ** The Dropzone uploader: one run of [handleUpload]

    [handleUpload] starts one asynchronous upload per pending file and waits
    for all of them.  A run is modelled as a state and the events the browser
    delivers to it: the answers to the two exchanges, the callbacks of the
    request object, the user's click on a file's remove button, and React
    running the effect that empties a closed dialog.  The model follows one
    call of [handleUpload] from the click to the end of its continuation;
    the button that calls it is disabled while [isUploading] is set.  Preview
    handles are created and revoked on the side and are not tracked. *)

(** Where the promise of one [uploadFile] call stands. *)
Inductive Stage :=
| AwaitUploadURL
    (* [fetch('/api/upload', {method: 'POST', ...})] is outstanding *)
| Sending (uploadURL : string)
    (* [xhr.send] was called; [onprogress], [onload] or [onerror] may fire *)
| Aborted
    (* [xhr.abort()] was called while sending: there is no abort handler, so
       neither [resolve] nor [reject] is ever called *)
| AwaitViewURL (request : string)
    (* [onload] saw status 200 and awaits [fetch(request)] *)
| Thrown
    (* the [async] [onload] handler threw: its own promise is rejected, and
       neither [resolve] nor [reject] of [uploadFile]'s promise is called *)
| Resolved (url : string)
    (* [uploadFile] resolved and the [try] branch of the caller ran *)
| Rejected.
    (* [uploadFile] rejected and the [catch] branch of the caller ran *)

(** One element of [pendingFiles.map(async (file) => ...)]: the [file] the
    closure holds, and the stage of its promise. *)
Record Task := { taskFile : FileWithPreview; stage : Stage }.

Record State := {
  files : list FileWithPreview;    (* [useState<FileWithPreview[]>] *)
  open : bool;                     (* the dialog *)
  isUploading : bool;
  tasks : list Task;
  uploadedUrls : list string;      (* the local array of [handleUpload] *)
  finished : bool;                 (* the code after [await Promise.all] ran *)
  notices : list string;           (* calls of [onError], oldest first *)
  results : list (list string)     (* calls of [onUploadComplete] *)
}.

Definition setFiles (update : list FileWithPreview → list FileWithPreview)
    (s : State) : State :=
  {| files := update (files s); open := open s; isUploading := isUploading s;
     tasks := tasks s; uploadedUrls := uploadedUrls s; finished := finished s;
     notices := notices s; results := results s |}.

Definition setOpen (b : bool) (s : State) : State :=
  {| files := files s; open := b; isUploading := isUploading s;
     tasks := tasks s; uploadedUrls := uploadedUrls s; finished := finished s;
     notices := notices s; results := results s |}.

Definition setIsUploading (b : bool) (s : State) : State :=
  {| files := files s; open := open s; isUploading := b;
     tasks := tasks s; uploadedUrls := uploadedUrls s; finished := finished s;
     notices := notices s; results := results s |}.

Definition setStage (i : nat) (st : Stage) (s : State) : State :=
  {| files := files s; open := open s; isUploading := isUploading s;
     tasks := alter (λ t, {| taskFile := taskFile t; stage := st |}) i (tasks s);
     uploadedUrls := uploadedUrls s; finished := finished s;
     notices := notices s; results := results s |}.

Definition pushUrl (url : string) (s : State) : State :=
  {| files := files s; open := open s; isUploading := isUploading s;
     tasks := tasks s; uploadedUrls := uploadedUrls s ++ [url];
     finished := finished s; notices := notices s; results := results s |}.

Definition setFinished (s : State) : State :=
  {| files := files s; open := open s; isUploading := isUploading s;
     tasks := tasks s; uploadedUrls := uploadedUrls s; finished := true;
     notices := notices s; results := results s |}.

Definition onError (notice : string) (s : State) : State :=
  {| files := files s; open := open s; isUploading := isUploading s;
     tasks := tasks s; uploadedUrls := uploadedUrls s; finished := finished s;
     notices := notices s ++ [notice]; results := results s |}.

Definition onUploadComplete (urls : list string) (s : State) : State :=
  {| files := files s; open := open s; isUploading := isUploading s;
     tasks := tasks s; uploadedUrls := uploadedUrls s; finished := finished s;
     notices := notices s; results := results s ++ [urls] |}.

(** [prev.map(f => f.id === fileId ? change(f) : f)] *)
Definition updateFile (fileId : string)
    (change : FileWithPreview → FileWithPreview)
    (prev : list FileWithPreview) : list FileWithPreview :=
  map (λ f, if String.eqb (id f) fileId then change f else f) prev.

(** [{ ...f, xhr }] *)
Definition withXhr (h : nat) (f : FileWithPreview) : FileWithPreview :=
  {| id := id f; originalFile := originalFile f; preview := preview f;
     uploadProgress := uploadProgress f; status := status f;
     errorMessage := errorMessage f; xhr := Some h |}.

(** [{ ...f, uploadProgress: progress, status: 'uploading' }] *)
Definition withProgress (progress : Q) (f : FileWithPreview)
    : FileWithPreview :=
  {| id := id f; originalFile := originalFile f; preview := preview f;
     uploadProgress := progress; status := uploading;
     errorMessage := errorMessage f; xhr := xhr f |}.

(** [{ ...f, status: 'success' }] *)
Definition withSuccess (f : FileWithPreview) : FileWithPreview :=
  {| id := id f; originalFile := originalFile f; preview := preview f;
     uploadProgress := uploadProgress f; status := success;
     errorMessage := errorMessage f; xhr := xhr f |}.

(** [{ ...f, status: 'error', errorMessage: 'Upload failed' }] *)
Definition withFailure (f : FileWithPreview) : FileWithPreview :=
  {| id := id f; originalFile := originalFile f; preview := preview f;
     uploadProgress := uploadProgress f; status := error;
     errorMessage := Some "Upload failed"; xhr := xhr f |}.

(** [(event.loaded / event.total) * 100].  The quotient is taken over the
    rationals; the double-precision operations of the source round it
    monotonically and leave 0 and 100 fixed, so order and the bounds carry
    over. *)
Definition progressOf (loaded total : Z) : Q :=
  (inject_Z loaded / inject_Z total * 100)%Q.

Definition settled (t : Task) : bool :=
  match stage t with
  | Resolved _ | Rejected => true
  | _ => false
  end.

(** The stages from which the promise is never settled. *)
Definition stuck (st : Stage) : bool :=
  match st with
  | Aborted | Thrown => true
  | _ => false
  end.

(** What follows [await Promise.all(...)] in [handleUpload], run once every
    promise of the map has settled. *)
Definition afterAll (s : State) : State :=
  if finished s then s
  else if forallb settled (tasks s) then
    let reported :=
      if bool_decide (0 < length (uploadedUrls s))%nat
      then setOpen false (onUploadComplete (uploadedUrls s) s)
      else s in
    setFinished (setIsUploading false reported)
  else s.

(** The [try] branch of the map's body after [await uploadFile(file)]. *)
Definition resolved (i : nat) (t : Task) (url : string) (s : State) : State :=
  afterAll
    (setStage i (Resolved url)
       (setFiles (updateFile (id (taskFile t)) withSuccess) (pushUrl url s))).

(** The [catch] branch of the map's body. *)
Definition rejected (i : nat) (t : Task) (s : State) : State :=
  afterAll
    (setStage i Rejected
       (onError ("Failed to upload " +:+ name (originalFile (taskFile t)))
          (setFiles (updateFile (id (taskFile t)) withFailure) s))).

(** [xhr.abort()] on the request of task [h]: a request that is being sent
    is cut and fires neither [load] nor [error]; a finished one is left. *)
Definition abort (h : nat) (s : State) : State :=
  match tasks s !! h with
  | Some t =>
      match stage t with
      | Sending _ => setStage h Aborted s
      | _ => s
      end
  | None => s
  end.

(** [removeFile(fileId)]: the updater passed to [setFiles], with the abort
    and the reset of [isUploading] it performs on the way. *)
Definition removeFile (fileId : string) (s : State) : State :=
  let prev := files s in
  let fileToRemove := List.find (λ f, String.eqb (id f) fileId) prev in
  let s1 :=
    match fileToRemove with
    | Some f =>
        match xhr f with
        | Some h => if bool_decide (status f = uploading) then abort h s else s
        | None => s
        end
    | None => s
    end in
  let filtered := List.filter (λ f, negb (String.eqb (id f) fileId)) prev in
  let hasUploadingFiles :=
    existsb (λ f, bool_decide (status f = uploading)) filtered in
  let s2 := if hasUploadingFiles then s1 else setIsUploading false s1 in
  setFiles (λ _, filtered) s2.

Inductive Event :=
| UploadUrlOk (i : nat) (uploadURL : string)
    (* the POST answered ok with [{uploadURL}] *)
| UploadUrlFailed (i : nat)
    (* the POST answered not ok, or the fetch failed *)
| Progress (i : nat) (lengthComputable : bool) (loaded total : Z)
| Load (i : nat) (httpStatus : Z)            (* [xhr.onload] *)
| NetworkError (i : nat)                     (* [xhr.onerror] *)
| ViewUrlOk (i : nat) (url : string)
    (* the GET answered ok with [{url}] *)
| ViewUrlFailed (i : nat)
    (* the GET answered not ok, or the fetch failed *)
| RemoveFile (fileId : string)               (* click on a file's X button *)
| DialogEffect.                              (* the effect on [open, files] *)

(** The task an event is delivered to. *)
Definition target (e : Event) : option nat :=
  match e with
  | UploadUrlOk i _ | UploadUrlFailed i | Progress i _ _ _ | Load i _
  | NetworkError i | ViewUrlOk i _ | ViewUrlFailed i => Some i
  | RemoveFile _ | DialogEffect => None
  end.

(** The continuation of task [i] on an event; an event that finds the task
    in another stage than the one that awaits it is not delivered. *)
Definition deliver (s : State) (i : nat) (t : Task) (e : Event) : State :=
  match e, stage t with
  | UploadUrlOk _ uploadURL, AwaitUploadURL =>
      setStage i (Sending uploadURL)
        (setFiles (updateFile (id (taskFile t)) (withXhr i)) s)
  | UploadUrlFailed _, AwaitUploadURL => rejected i t s
  | Progress _ lengthComputable loaded total, Sending _ =>
      if lengthComputable
      then setFiles (updateFile (id (taskFile t))
                       (withProgress (progressOf loaded total))) s
      else s
  | Load _ httpStatus, Sending uploadURL =>
      if bool_decide (httpStatus = 200)
      then setStage i (AwaitViewURL (Exchange.viewRequest uploadURL)) s
      else rejected i t s
  | NetworkError _, Sending _ => rejected i t s
  | ViewUrlOk _ url, AwaitViewURL _ => resolved i t url s
  | ViewUrlFailed _, AwaitViewURL _ => setStage i Thrown s
  | _, _ => s
  end.

Definition step (s : State) (e : Event) : State :=
  match e with
  | RemoveFile fileId => removeFile fileId s
  | DialogEffect =>
      if negb (open s) && bool_decide (0 < length (files s))%nat
      then setFiles (λ _, []) s
      else s
  | _ =>
      match target e with
      | Some i =>
          match tasks s !! i with
          | Some t => deliver s i t e
          | None => s
          end
      | None => s
      end
  end.

Definition run (s : State) (events : list Event) : State :=
  foldl step s events.

(** [handleUpload] up to its [await], on the batch [prev] shown in an open
    dialog. *)
Definition handleUpload (prev : list FileWithPreview) : State :=
  let idle :=
    {| files := prev; open := true; isUploading := false; tasks := [];
       uploadedUrls := []; finished := true; notices := []; results := [] |} in
  if bool_decide (length prev = 0)%nat then idle
  else
    let pendingFiles :=
      List.filter (λ f, bool_decide (status f = pending)) prev in
    afterAll
      {| files := prev; open := true; isUploading := true;
         tasks := map (λ f, {| taskFile := f; stage := AwaitUploadURL |})
                    pendingFiles;
         uploadedUrls := []; finished := false; notices := [];
         results := [] |}.

(** *** What the dialog renders for a file *)

Inductive Icon :=
| Thumbnail (src : string)     (* [<Image src={file.preview} ... />] *)
| ImageIcon
| Film
| FileIcon.

(** [file.preview ? <thumbnail> : <ImageIcon>]; an empty handle is falsy. *)
Definition imageIcon (file : FileWithPreview) : Icon :=
  match preview file with
  | Some src => if String.eqb src "" then ImageIcon else Thumbnail src
  | None => ImageIcon
  end.

Definition getFileIcon (file : option FileWithPreview) : Icon :=
  match file with
  | None => FileIcon
  | Some file =>
      let fileType := type (originalFile file) in
      let fileName := name (originalFile file) in
      if Js.startsWith "image/" fileType then imageIcon file
      else if Js.startsWith "video/" fileType then Film
      else if negb (String.eqb fileName "") then
        let extension := toLowerCase (pop (Js.split "." fileName)) in
        if existsb (String.eqb extension) ["jpg"; "jpeg"; "png"; "gif"; "webp"]
        then imageIcon file
        else if existsb (String.eqb extension) ["mp4"; "mov"; "avi"; "webm"]
        then Film
        else FileIcon
      else FileIcon
  end.

(** [disabled={isUploading || files.every(f => f.status === 'success')}] on
    the upload button. *)
Definition uploadDisabled (s : State) : bool :=
  isUploading s || forallb (λ f, bool_decide (status f = success)) (files s).

(** The calls of [onError] and [onUploadComplete] made by one event, in the
    order the handlers make them: within a handler every [onError] precedes
    the [onUploadComplete] of the code after [Promise.all]. *)
Inductive Call :=
| Failed (notice : string)
| Completed (urls : list string).

Definition emitted (s : State) (e : Event) : list Call :=
  map Failed (drop (length (notices s)) (notices (step s e)))
  ++ map Completed (drop (length (results s)) (results (step s e))).

Fixpoint calls (s : State) (events : list Event) : list Call :=
  match events with
  | [] => []
  | e :: rest => emitted s e ++ calls (step s e) rest
  end.

(** ** The page around the uploader, [app/dropzone/page.tsx] and
    [app/uppy/page.tsx], which share their two callbacks *)

Record Page := { uploadedFileUrls : list string; pageError : option string }.

Definition initialPage : Page :=
  {| uploadedFileUrls := []; pageError := None |}.

(** [setUploadedFileUrls(prev => [...prev, ...urls]); setError(null)] *)
Definition handleUploadComplete (urls : list string) (p : Page) : Page :=
  {| uploadedFileUrls := uploadedFileUrls p ++ urls; pageError := None |}.

(** [setError(errorMessage)] *)
Definition handleError (errorMessage : string) (p : Page) : Page :=
  {| uploadedFileUrls := uploadedFileUrls p; pageError := Some errorMessage |}.

Definition receive (p : Page) (c : Call) : Page :=
  match c with
  | Failed notice => handleError notice p
  | Completed urls => handleUploadComplete urls p
  end.

Definition replay (p : Page) (cs : list Call) : Page := foldl receive p cs.

End Dropzone.
(** ** The Uppy uploader, [UppyFileUploader.tsx]

    Uppy owns the transfers; the component keeps [state.current] and reacts
    to Uppy's events.  The continuation of the [upload-success] handler after
    its [await] is an event of its own, as is the timer armed by
    [checkCompletion]. *)

Module Uppy.

Record UploadState := {
  urls : list string;
  pending : gset string;                       (* [Set<string>] *)
  isUploading : bool;
  currentBatchUrls : list (string * string)    (* [Map], in insertion order *)
}.

(** [INITIAL_STATE] as the module is loaded.  It is one object of the
    module: [useRef({ ...INITIAL_STATE })] copies its fields, so that its
    array, its set and its map are shared by every mount of the component
    and keep what earlier mounts have put into them. *)
Definition INITIAL_STATE : UploadState :=
  {| urls := []; pending := ∅; isUploading := false; currentBatchUrls := [] |}.

(** [Map.prototype.set]: a present key keeps its place and takes the new
    value, a new key goes last. *)
Fixpoint mapSet (k v : string) (m : list (string * string))
    : list (string * string) :=
  match m with
  | [] => [(k, v)]
  | (k', v') :: m' =>
      if String.eqb k' k then (k, v) :: m' else (k', v') :: mapSet k v m'
  end.

(** [Array.from(map.values())] *)
Definition mapValues (m : list (string * string)) : list string := map snd m.

(** [names.join(', ')] *)
Fixpoint join (names : list string) : string :=
  match names with
  | [] => ""
  | [n] => n
  | n :: rest => n +:+ ", " +:+ join rest
  end.

(** The fields of an [UppyFile] the handlers read; an absent [name] or [id]
    reads as the empty string, which is as falsy as [undefined]. *)
Record UppyFile := { name : string; id : string }.

Record Component := {
  state : UploadState;               (* [state.current] *)
  open : bool;
  awaiting : list UppyFile;          (* view-URL fetches outstanding *)
  timers : nat;                      (* armed [setTimeout(checkCompletion)] *)
  notices : list string;             (* calls of [onError] *)
  results : list (list string)       (* calls of [onUploadComplete] *)
}.

(** The component mounted, its dialog opened by the user, when the
    array, the set and the map of [INITIAL_STATE] hold what [shared] holds;
    [isUploading] is copied by value and is [false]. *)
Definition mountOn (shared : UploadState) : Component :=
  {| state := {| urls := urls shared; pending := pending shared;
                 isUploading := isUploading INITIAL_STATE;
                 currentBatchUrls := currentBatchUrls shared |};
     open := true; awaiting := []; timers := 0;
     notices := []; results := [] |}.

(** The first mount after the module is loaded. *)
Definition mount : Component := mountOn INITIAL_STATE.

Inductive Event :=
| Upload
| UploadSuccess (file : option UppyFile) (uploadURL : string)
| ViewUrlOk (file : UppyFile) (url : string)
| ViewUrlFailed (file : UppyFile)
| UploadError (file : option UppyFile) (message : option string)
| Complete (failed successful : list UppyFile)
| Timer.


(** [!file?.name || !file?.id] *)
Definition unusable (file : option UppyFile) : bool :=
  match file with
  | None => true
  | Some f => String.eqb (name f) "" || String.eqb (id f) ""
  end.

Definition withState (st : UploadState) (c : Component) : Component :=
  {| state := st; open := open c; awaiting := awaiting c; timers := timers c;
     notices := notices c; results := results c |}.

Definition onError (notice : string) (c : Component) : Component :=
  {| state := state c; open := open c; awaiting := awaiting c;
     timers := timers c; notices := notices c ++ [notice];
     results := results c |}.

Definition sameFile (f g : UppyFile) : bool :=
  String.eqb (id g) (id f) && String.eqb (name g) (name f).

Fixpoint removeFirst (f : UppyFile) (l : list UppyFile) : list UppyFile :=
  match l with
  | [] => []
  | g :: l' => if sameFile f g then l' else g :: removeFirst f l'
  end.

Definition isAwaited (f : UppyFile) (c : Component) : bool :=
  existsb (sameFile f) (awaiting c).

Definition checkCompletion (c : Component) : Component :=
  let st := state c in
  if bool_decide (size (pending st) = 0)%nat then
    let urls := mapValues (currentBatchUrls st) in
    if bool_decide (0 < length urls)%nat then
      {| state := {| urls := Uppy.urls st; pending := pending st;
                     isUploading := false;
                     currentBatchUrls := currentBatchUrls st |};
         open := false; awaiting := awaiting c; timers := timers c;
         notices := notices c; results := results c ++ [urls] |}
    else c
  else
    {| state := state c; open := open c; awaiting := awaiting c;
       timers := S (timers c); notices := notices c; results := results c |}.

Definition step (c : Component) (e : Event) : Component :=
  let st := state c in
  match e with
  | Upload =>
      withState {| urls := urls st; pending := ∅; isUploading := true;
                   currentBatchUrls := [] |} c
  | UploadSuccess file uploadURL =>
      match file with
      | Some f =>
          if unusable file then c
          else
            {| state := {| urls := urls st; pending := {[ id f ]} ∪ pending st;
                           isUploading := isUploading st;
                           currentBatchUrls := currentBatchUrls st |};
               open := open c; awaiting := awaiting c ++ [f];
               timers := timers c; notices := notices c;
               results := results c |}
      | None => c
      end
  | ViewUrlOk f url =>
      if isAwaited f c then
        {| state := {| urls := urls st ++ [url];
                       pending := pending st ∖ {[ id f ]};
                       isUploading := isUploading st;
                       currentBatchUrls :=
                         mapSet (id f) url (currentBatchUrls st) |};
           open := open c; awaiting := removeFirst f (awaiting c);
           timers := timers c; notices := notices c; results := results c |}
      else c
  | ViewUrlFailed f =>
      if isAwaited f c then
        {| state := {| urls := urls st; pending := pending st ∖ {[ id f ]};
                       isUploading := isUploading st;
                       currentBatchUrls := currentBatchUrls st |};
           open := open c; awaiting := removeFirst f (awaiting c);
           timers := timers c;
           notices := notices c
             ++ ["Upload succeeded but failed to get view URL for "
                   +:+ name f];
           results := results c |}
      else c
  | UploadError file message =>
      match file with
      | Some f =>
          if unusable file then c
          else
            onError ("Upload failed for " +:+ name f +:+ ": "
                       +:+ match message with
                           | Some m => if String.eqb m "" then "Unknown error" else m
                           | None => "Unknown error"
                           end)
              (withState {| urls := urls st;
                            pending := pending st ∖ {[ id f ]};
                            isUploading := isUploading st;
                            currentBatchUrls := currentBatchUrls st |} c)
      | None => c
      end
  | Complete failed successful =>
      let c1 :=
        if bool_decide (0 < length failed)%nat
        then onError (pretty (Z.of_nat (length failed))
                        +:+ " file(s) failed to upload: "
                        +:+ join (map name failed)) c
        else c in
      checkCompletion c1
  | Timer =>
      match timers c with
      | S n =>
          checkCompletion
            {| state := state c; open := open c; awaiting := awaiting c;
               timers := n; notices := notices c; results := results c |}
      | O => c
      end
  end.

Definition run (c : Component) (events : list Event) : Component :=
  foldl step c events.

End Uppy.

(** ** The handlers of [route.ts] *)

Module Api.

(** The JSON bodies the handlers send. *)
Inductive Data :=
| Empty                               (* [{}] *)
| UploadURL (uploadURL : string)      (* [{ uploadURL }] *)
| ViewURL (url : string)              (* [{ url }] *)
| Failure (error : string).           (* [{ error }] *)

Record Response := {
  body : Data;
  status : Z;
  headers : list (string * string)
}.

Definition corsResponse (data : Data) (status : Z) : Response :=
  {| body := data;
     status := status;
     headers :=
       [ ("Access-Control-Allow-Origin", "*");
         ("Access-Control-Allow-Methods", "GET, POST, PUT, DELETE, OPTIONS");
         ("Access-Control-Allow-Headers",
          "Content-Type, Authorization, x-csrf-token");
         ("Content-Type", "application/json") ] |}.

Definition OPTIONS : Response := corsResponse Empty 200.

(** The two commands handed to the signer. *)
Inductive Command :=
| PutObject (key : string) (contentType : option string)
| GetObject (key : string).

(** [getSignedUrl] belongs to the storage SDK: a function from the command
    to the signed URL, [None] when the call throws. *)
Definition Signer : Type := Command → option string.

(** [POST]: [json] is the parsed body, [None] when [request.json()] throws;
    a field the body lacks reads as [undefined]. *)
Definition POST (getSignedUrl : Signer) (now : Z)
    (json : option (option string * option string)) : Response :=
  match json with
  | Some (filename, contentType) =>
      let command :=
        PutObject (Route.storageKey now (Js.template filename)) contentType in
      match getSignedUrl command with
      | Some presignedUrl => corsResponse (UploadURL presignedUrl) 200
      | None => corsResponse (Failure "Failed to generate upload URL") 500
      end
  | None => corsResponse (Failure "Failed to generate upload URL") 500
  end.

Definition GET (getSignedUrl : Signer) (url : string) : Response :=
  match Url.get "key" url with
  | Some key =>
      if String.eqb key "" then corsResponse (Failure "Key is required") 400
      else
        match getSignedUrl (GetObject key) with
        | Some presignedUrl => corsResponse (ViewURL presignedUrl) 200
        | None => corsResponse (Failure "Failed to generate download URL") 500
        end
  | None => corsResponse (Failure "Key is required") 400
  end.

(** A signer that answers as [Route.presignedUrl] does: the bucket origin,
    the encoded key as the path, and a signature that depends on the
    command. *)
Definition bucketSigner (origin putSignature getSignature : string) : Signer :=
  λ command,
    match command with
    | PutObject key _ => Some (Route.presignedUrl origin putSignature key)
    | GetObject key => Some (Route.presignedUrl origin getSignature key)
    end.

End Api.
(** ** Invariants of the two components *)

Section Invariants.

Import Dropzone.

(** The reporting invariant of a run: before the code after [Promise.all]
    has run nothing is reported and the dialog is open; once it has run,
    every promise is settled, and either no URL was collected, nothing was
    reported and the dialog is still open, or the collected URLs, at least
    one, were reported once and the dialog was closed. *)
Definition reporting (s : State) : Prop :=
  (finished s = true → forallb settled (tasks s) = true)
  ∧ ((results s = [] ∧ open s = true
      ∧ (finished s = true → uploadedUrls s = []))
     ∨ (finished s = true ∧ uploadedUrls s ≠ []
        ∧ results s = [uploadedUrls s] ∧ open s = false)).

End Invariants.

Section Agreement.

Import Dropzone.

(** The recorded state a file must show for the stage of its upload. *)
Definition statusAgrees (st : Stage) (f : FileWithPreview) : Prop :=
  match st with
  | Resolved _ => status f = success
  | Rejected => status f = error
  | _ => status f = pending ∨ status f = uploading
  end.

(** Batch and uploads agree: identifiers are distinct, every upload finds
    its file in the batch in the state that fits its stage, and the collected
    URLs are those of the resolved uploads. *)
Definition agreement (s : State) : Prop :=
  NoDup (map id (files s))
  ∧ NoDup (map (λ t, id (taskFile t)) (tasks s))
  ∧ (∀ i t, tasks s !! i = Some t →
       ∃ f, f ∈ files s ∧ id f = id (taskFile t) ∧ statusAgrees (stage t) f)
  ∧ (∀ u, u ∈ uploadedUrls s ↔
       ∃ i t, tasks s !! i = Some t ∧ stage t = Resolved u).

(** The events of the network, as opposed to those of the user and of
    React. *)
Definition ofNetwork (e : Event) : bool :=
  match target e with Some _ => true | None => false end.

End Agreement.

Section DropDefinitions.

Import Dropzone.

(** The files [onDrop] makes of the accepted ones: those that pass its size
    check, in the order of the drop. *)
Definition trackedFiles (acceptedFiles : list Accepted)
    : list FileWithPreview :=
  flat_map (λ t, match t with inl _ => [] | inr f => [f] end)
    (map track acceptedFiles).

(** A freshly tracked file. *)
Definition fresh (f : FileWithPreview) : Prop :=
  status f = pending ∧ uploadProgress f = 0%Q ∧ xhr f = None
  ∧ errorMessage f = None.

(** A dropped file as the reader hands it on. *)
Definition readFile (COMMON_MIME_TYPES : string → option string)
    (a : Accepted) : Accepted :=
  {| dropped := withMimeType COMMON_MIME_TYPES (Dropzone.dropped a);
     now := now a; objectURL := objectURL a |}.

(** react-dropzone handing a drop to [onDrop]: every file is read; the files
    it rejects go to [fileRejections] with their errors, the others to
    [acceptedFiles].  Each file comes with the clock reading and the object
    URL it would be given. *)
Definition dropFiles (COMMON_MIME_TYPES : string → option string)
    (dropped : list Accepted) (prev : list FileWithPreview)
    : list string * list FileWithPreview :=
  let read := map (readFile COMMON_MIME_TYPES) dropped in
  onDrop
    (List.filter (λ a, bool_decide (rejection (Dropzone.dropped a) = None))
       read)
    (omap (λ a, rejection (Dropzone.dropped a)) read)
    prev.

End DropDefinitions.

Section RunDefinitions.

Import Dropzone.

Definition isRejected (t : Task) : bool :=
  match stage t with Rejected => true | _ => false end.

Definition isResolved (t : Task) : bool :=
  match stage t with Resolved _ => true | _ => false end.

(** What a tracked file is, as opposed to how far its upload has come. *)
Definition identity (f : FileWithPreview) : string * File * option string :=
  (id f, originalFile f, preview f).

End RunDefinitions.

Section TallyDefinition.

Import Dropzone.

(** Notices and collected URLs answer to the uploads: one notice
    [Failed to upload <name>] for each rejected upload and no other notice,
    one collected URL for each resolved upload. *)
Definition tally (s : State) : Prop :=
  length (notices s) = length (List.filter isRejected (tasks s))
  ∧ length (uploadedUrls s) = length (List.filter isResolved (tasks s))
  ∧ ∀ notice, notice ∈ notices s →
      ∃ i t, tasks s !! i = Some t ∧ stage t = Rejected
             ∧ notice = "Failed to upload " +:+ name (originalFile (taskFile t)).

End TallyDefinition.
(** ** Two tracked files used in the concrete runs below *)

Definition sampleImage : Dropzone.FileWithPreview :=
  {| Dropzone.id := "a.png-1700000000000";
     Dropzone.originalFile :=
       {| Dropzone.name := "a.png"; Dropzone.type := "image/png";
          Dropzone.size := 1024 |};
     Dropzone.preview := Some "blob:1"; Dropzone.uploadProgress := 0;
     Dropzone.status := Dropzone.pending; Dropzone.errorMessage := None;
     Dropzone.xhr := None |}.

Definition sampleVideo : Dropzone.FileWithPreview :=
  {| Dropzone.id := "b.mov-1700000000000";
     Dropzone.originalFile :=
       {| Dropzone.name := "b.mov"; Dropzone.type := "video/quicktime";
          Dropzone.size := 2048 |};
     Dropzone.preview := None; Dropzone.uploadProgress := 0;
     Dropzone.status := Dropzone.pending; Dropzone.errorMessage := None;
     Dropzone.xhr := None |}.

Definition writeUrlA : string :=
  "https://bucket.s3.amazonaws.com/uploads/1700000000001-a.png?X-Amz-Signature=ab".

Definition writeUrlB : string :=
  "https://bucket.s3.amazonaws.com/uploads/1700000000002-b.mov?X-Amz-Signature=cd".

Definition viewUrlA : string :=
  "https://bucket.s3.amazonaws.com/uploads/1700000000001-a.png?X-Amz-Signature=ef".


(** The rows of the reader's table for the extensions of the accept
    lists. *)
Definition sampleMimeTypes (ext : string) : option string :=
  snd <$> List.find (λ row, String.eqb (fst row) ext)
    [ ("jpg", "image/jpeg"); ("jpeg", "image/jpeg"); ("png", "image/png");
      ("webp", "image/webp"); ("gif", "image/gif"); ("mp4", "video/mp4");
      ("mov", "video/quicktime"); ("avi", "video/x-msvideo");
      ("webm", "video/webm") ].
(** ** The order in which view URLs resolve *)

(** The URLs of the view-URL answers that reach a waiting upload during a
    run, in the order of their arrival. *)
Fixpoint resolutions (s : Dropzone.State) (events : list Dropzone.Event)
    : list string :=
  match events with
  | [] => []
  | e :: rest =>
      match e with
      | Dropzone.ViewUrlOk i url =>
          match Dropzone.stage <$> Dropzone.tasks s !! i with
          | Some (Dropzone.AwaitViewURL _) => [url]
          | _ => []
          end
      | _ => []
      end ++ resolutions (Dropzone.step s e) rest
  end.
(** ** Facts about [split] *)

Section SplitFacts.

Lemma append_cons (x : Ascii.ascii) (a b : string) :
  String x a +:+ b = String x (a +:+ b).
Proof. reflexivity. Qed.

Lemma append_assoc (a b c : string) : (a +:+ b) +:+ c = a +:+ (b +:+ c).
Proof.
  induction a as [|x a IH]; [done |]. by rewrite !append_cons, IH.
Qed.

Lemma length_append (a b : string) :
  String.length (a +:+ b) = (String.length a + String.length b)%nat.
Proof.
  induction a as [|x a IH]; [done |]. rewrite append_cons. simpl. by rewrite IH.
Qed.

Lemma prefix_append (p s : string) : String.prefix p (p +:+ s) = true.
Proof.
  induction p as [|x p IH]; [by destruct s |]. rewrite append_cons. simpl.
  destruct (Ascii.ascii_dec x x); [done | congruence].
Qed.

(** A prefix no longer than [a] is already a prefix of [a]. *)
Lemma prefix_within (p a b : string) :
  (String.length p ≤ String.length a)%nat →
  String.prefix p (a +:+ b) = true → String.prefix p a = true.
Proof.
  revert a. induction p as [|x p IH]; intros a Hlen Hp; [by destruct a |].
  destruct a as [|y a]; [simpl in Hlen; lia |].
  rewrite append_cons in Hp. simpl in *.
  destruct (Ascii.ascii_dec x y); [| done].
  apply IH; [lia | done].
Qed.

Lemma includes_cons (sub : string) (c : Ascii.ascii) (s : string) :
  Js.includes sub (String c s) = false →
  String.prefix sub (String c s) = false ∧ Js.includes sub s = false.
Proof. simpl. intros H. by apply orb_false_iff in H. Qed.

(** Passing over the rest of a separator. *)
Lemma split_go_skip (sep x s : string) :
  Js.split_go sep (String.length x) (x +:+ s) = Js.split_go sep 0 s.
Proof.
  induction x as [|c x IH]; [done |]. rewrite append_cons. simpl. apply IH.
Qed.

Lemma split_go_cons (sep : string) (c : Ascii.ascii) (s : string) :
  Js.split_go sep 0 (String c s) =
  if String.prefix sep (String c s)
  then "" :: Js.split_go sep (String.length sep - 1) s
  else match Js.split_go sep 0 s with
       | piece :: rest => String c piece :: rest
       | [] => [String c ""]
       end.
Proof. reflexivity. Qed.

(** A string without the separator is a single piece. *)
Lemma split_none (sep s : string) :
  Js.includes sep s = false → Js.split sep s = [s].
Proof.
  unfold Js.split. induction s as [|c s IH]; intros H; [done |].
  apply includes_cons in H as [Hp Hi].
  by rewrite split_go_cons, Hp, (IH Hi).
Qed.

(** A separator at the front closes an empty piece. *)
Lemma split_at_sep (sep b : string) :
  sep ≠ "" → Js.split sep (sep +:+ b) = "" :: Js.split sep b.
Proof.
  intros Hsep. unfold Js.split. destruct sep as [|c0 sep']; [done |].
  rewrite append_cons, split_go_cons, <- append_cons, prefix_append.
  replace (String.length (String c0 sep') - 1)%nat with (String.length sep')
    by (simpl; lia).
  by rewrite split_go_skip.
Qed.

(** The first piece ends at the first occurrence of the separator.  With
    [sep = pre ++ [cl]]: when no occurrence starts inside [a], also none
    running into the separator that follows, the split of [a ++ sep ++ b]
    is [a] and then the split of [b]. *)
Lemma split_first (pre : string) (cl : Ascii.ascii) (a b : string) :
  let sep := pre +:+ String cl "" in
  Js.includes sep (a +:+ pre) = false →
  Js.split sep (a +:+ sep +:+ b) = a :: Js.split sep b.
Proof.
  intros sep. induction a as [|c a IH]; intros H.
  - change ("" +:+ sep +:+ b) with (sep +:+ b).
    apply split_at_sep. subst sep. by destruct pre.
  - rewrite append_cons in H.
    apply includes_cons in H as [Hp Hi].
    unfold Js.split in *.
    rewrite append_cons, split_go_cons.
    destruct (String.prefix sep (String c (a +:+ sep +:+ b))) eqn:Hq.
    + exfalso.
      assert (String.prefix sep (String c (a +:+ pre)) = true) as Hw;
        [| congruence].
      apply (prefix_within sep (String c (a +:+ pre)) (String cl "" +:+ b)).
      * subst sep. simpl. rewrite !length_append. simpl. lia.
      * rewrite append_cons, append_assoc.
        subst sep. by rewrite append_assoc in Hq.
    + by rewrite (IH Hi).
Qed.

End SplitFacts.

Example split_query : Js.split "?" "https://h/uploads/1-a.png?sig=1" = ["https://h/uploads/1-a.png"; "sig=1"].
Proof. reflexivity. Qed.
Example split_path : Js.split "/uploads/" "https://h/uploads/1-a.png" = ["https://h"; "1-a.png"].
Proof. reflexivity. Qed.
Example split_trailing : Js.split "?" "a?" = ["a"; ""].
Proof. reflexivity. Qed.
Example split_overlap : Js.split "aa" "aaa" = [""; "a"].
Proof. reflexivity. Qed.

(** ** The key sent for the view URL against the key the backend stored *)

Section KeyCoupling.

Lemma append_nil_r (a : string) : a +:+ "" = a.
Proof. induction a as [|x a IH]; [done |]. by rewrite append_cons, IH. Qed.

(** The key the client cuts out of a URL whose path is [/uploads/<name>]. *)
Lemma key_of_url (origin query name : string) :
  Js.includes "?" (origin +:+ "/uploads/" +:+ name) = false →
  Js.includes "/uploads/" (origin +:+ "/uploads") = false →
  Js.includes "/uploads/" name = false →
  Exchange.key (origin +:+ "/uploads/" +:+ name +:+ "?" +:+ query) = Some name.
Proof.
  intros Hq Ho Hn. unfold Exchange.key.
  replace (origin +:+ "/uploads/" +:+ name +:+ "?" +:+ query)
    with ((origin +:+ "/uploads/" +:+ name) +:+ ("" +:+ "?") +:+ query)
    by (by rewrite !append_assoc).
  rewrite (split_first "" "?"%char); [| by rewrite append_nil_r].
  simpl.
  change "/uploads/" with ("/uploads" +:+ "/") at 1 2.
  rewrite (split_first "/uploads" "/"%char origin name Ho).
  by rewrite (split_none ("/uploads" +:+ "/") name Hn).
Qed.

End KeyCoupling.
(** ** The validator and the batch identifiers *)

Section Reader.

Import Dropzone.

(** The reader changes nothing but an empty declared type. *)
Lemma withMimeType_fields (COMMON_MIME_TYPES : string → option string)
    (file : File) :
  let read := withMimeType COMMON_MIME_TYPES file in
  name read = name file ∧ size read = size file
  ∧ (type file ≠ "" → read = file)
  ∧ (type file = "" →
     type read = ""
     ∨ (Js.includes "." (name file) = true
        ∧ COMMON_MIME_TYPES (toLowerCase (pop (Js.split "." (name file))))
          = Some (type read))).
Proof.
  unfold withMimeType.
  destruct (String.eqb_spec (type file) "") as [Hty | Hty].
  - destruct (negb (String.eqb (name file) "")); simpl;
      [| by split_and!; try done; left].
    destruct (Js.includes "." (name file)) eqn:Hdot; simpl;
      [| by split_and!; try done; left].
    destruct (COMMON_MIME_TYPES _) as [known|] eqn:Hknown;
      [| by split_and!; try done; left].
    destruct (String.eqb known ""); simpl;
      [by split_and!; try done; left |].
    split_and!; try done. intros _. by right.
  - rewrite andb_false_r. by split_and!.
Qed.

End Reader.

(** The reader fills in the type of a JPEG that declares none, and the drop
    is then measured against the image limit. *)
Example empty_type_is_filled_in :
  dropFiles sampleMimeTypes
    [ {| Dropzone.dropped :=
           {| Dropzone.name := "photo.jpg"; Dropzone.type := "";
              Dropzone.size := 6 * 1024 * 1024 |};
         Dropzone.now := 1700000000000; Dropzone.objectURL := "blob:1" |} ] []
  = (["photo.jpg is too large. Maximum size is 5MB"], []).
Proof. reflexivity. Qed.

(** C6, as stated, fails: a declared type that is not recognised is never
    replaced by the class of the file name.  A JPEG declared as
    [application/octet-stream] is an image by its extension and exceeds the
    image limit, yet nothing rejects it: the reader leaves its type alone,
    it passes the accept list by its extension, it is measured against the
    video limit, and it enters the batch. *)
Lemma C6_extension_class_not_enforced :
  let photo :=
    {| Dropzone.name := "photo.jpg";
       Dropzone.type := "application/octet-stream";
       Dropzone.size := 6 * 1024 * 1024 |} in
  let tracked :=
    {| Dropzone.id := "photo.jpg-1700000000000";
       Dropzone.originalFile := photo;
       Dropzone.preview := None;
       Dropzone.uploadProgress := 0;
       Dropzone.status := Dropzone.pending;
       Dropzone.errorMessage := None;
       Dropzone.xhr := None |} in
  Dropzone.specClass photo = Some Dropzone.ImageClass
  ∧ Dropzone.size photo > Dropzone.specLimit Dropzone.ImageClass
  ∧ (∀ COMMON_MIME_TYPES,
       Dropzone.withMimeType COMMON_MIME_TYPES photo = photo)
  ∧ Dropzone.validator photo = None
  ∧ Dropzone.rejection photo = None
  ∧ (∀ COMMON_MIME_TYPES,
       dropFiles COMMON_MIME_TYPES
         [ {| Dropzone.dropped := photo; Dropzone.now := 1700000000000;
              Dropzone.objectURL := "blob:1" |} ] []
       = ([], [tracked])).
Proof.
  split_and!; try reflexivity; intros COMMON_MIME_TYPES; reflexivity.
Qed.

(** C6 (amended): the class of a file is image exactly when its type starts
    with [image/], and video otherwise, the type being the declared one
    whenever that is not empty, and otherwise what the reader fills in for
    the extension of the name.  A file larger than the limit of that class
    is rejected with [file-too-large], and both the validator's message and
    the notice built by [onDrop] state that class's limit: 5 for an image,
    50 otherwise. *)
Theorem C6_oversized_rejected_with_class_limit
    (COMMON_MIME_TYPES : string → option string) (dropped : Dropzone.File) :
  let file := Dropzone.withMimeType COMMON_MIME_TYPES dropped in
  Dropzone.size dropped > Dropzone.classLimit file →
  let tooLarge :=
    {| Dropzone.code := "file-too-large";
       Dropzone.message :=
         "File is larger than " +:+ pretty (Dropzone.limitInMB file) +:+ " MB" |} in
  Dropzone.validator file = Some tooLarge
  ∧ (∃ r, Dropzone.rejection file = Some r ∧ tooLarge ∈ Dropzone.errors r)
  ∧ Dropzone.rejectionMessage file tooLarge
    = Dropzone.name dropped +:+ " is too large. Maximum size is "
        +:+ pretty (Dropzone.limitInMB file) +:+ "MB"
  ∧ pretty (Dropzone.limitInMB file)
    = (if Js.startsWith "image/" (Dropzone.type file) then "5" else "50")
  ∧ (Dropzone.type dropped ≠ "" → file = dropped)
  ∧ (Dropzone.type dropped = "" →
     Dropzone.type file = ""
     ∨ (Js.includes "." (Dropzone.name dropped) = true
        ∧ COMMON_MIME_TYPES
            (Dropzone.toLowerCase
               (Dropzone.pop (Js.split "." (Dropzone.name dropped))))
          = Some (Dropzone.type file))).
Proof.
  intros file Hsize tooLarge.
  destruct (withMimeType_fields COMMON_MIME_TYPES dropped)
    as (Hname & Hsz & Hkept & Hfilled).
  fold file in Hname, Hsz, Hkept, Hfilled. rewrite <- Hsz in Hsize.
  assert (Dropzone.validator file = Some tooLarge) as Hv.
  { subst tooLarge.
    unfold Dropzone.validator, Dropzone.limitInMB, Dropzone.classLimit in *.
    destruct (Js.startsWith "image/" (Dropzone.type file));
      by rewrite bool_decide_eq_true_2. }
  split_and!; [done | | | | done | done].
  - unfold Dropzone.rejection, Dropzone.fileErrors. rewrite Hv.
    destruct (Dropzone.acceptable file); simpl; eexists; (split; [done |]);
      simpl.
    + by apply list_elem_of_singleton.
    + apply elem_of_cons. right. by apply list_elem_of_singleton.
  - rewrite <- Hname.
    unfold Dropzone.rejectionMessage, Dropzone.limitInMB, Dropzone.classLimit.
    simpl. by destruct (Js.startsWith "image/" (Dropzone.type file)).
  - unfold Dropzone.limitInMB, Dropzone.classLimit.
    by destruct (Js.startsWith "image/" (Dropzone.type file)).
Qed.

Lemma C6_oversized_rejected_with_class_limit_witness :
  let dropped :=
    {| Dropzone.name := "large-image.JPG"; Dropzone.type := "";
       Dropzone.size := 6 * 1024 * 1024 |} in
  let file :=
    {| Dropzone.name := "large-image.JPG"; Dropzone.type := "image/jpeg";
       Dropzone.size := 6 * 1024 * 1024 |} in
  let tooLarge :=
    {| Dropzone.code := "file-too-large";
       Dropzone.message := "File is larger than 5 MB" |} in
  Dropzone.withMimeType sampleMimeTypes dropped = file
  ∧ Dropzone.validator file = Some tooLarge
  ∧ (∃ r, Dropzone.rejection file = Some r ∧ tooLarge ∈ Dropzone.errors r)
  ∧ Dropzone.rejectionMessage file tooLarge
    = "large-image.JPG is too large. Maximum size is 5MB".
Proof.
  intros dropped file tooLarge. split; [reflexivity |].
  destruct (C6_oversized_rejected_with_class_limit sampleMimeTypes dropped)
    as (Hv & Hr & Hm & _); [vm_compute; reflexivity |].
  split_and!; [exact Hv | exact Hr | exact Hm].
Defined.

(** C8: the code breaks the claim.  Two files of one drop that carry the same
    name are mapped within the same millisecond, and both receive the
    identifier [<name>-<clock>]. *)
Theorem C8_same_name_same_tick_share_id :
  let first :=
    {| Dropzone.name := "a.png"; Dropzone.type := "image/png";
       Dropzone.size := 10 |} in
  let second :=
    {| Dropzone.name := "a.png"; Dropzone.type := "image/png";
       Dropzone.size := 20 |} in
  let batch :=
    snd (Dropzone.onDrop
           [ {| Dropzone.dropped := first; Dropzone.now := 1700000000000;
                Dropzone.objectURL := "blob:1" |};
             {| Dropzone.dropped := second; Dropzone.now := 1700000000000;
                Dropzone.objectURL := "blob:2" |} ] [] []) in
  map Dropzone.id batch = ["a.png-1700000000000"; "a.png-1700000000000"]
  ∧ map (λ f, Dropzone.size (Dropzone.originalFile f)) batch = [10; 20]
  ∧ ¬ NoDup (map Dropzone.id batch).
Proof.
  vm_compute. split_and!; [reflexivity | reflexivity |].
  intros H. apply NoDup_cons in H as [H _]. apply H. set_solver.
Qed.

(** ** Starting a batch and recording progress *)

Section BatchStart.

Import Dropzone.

Lemma filter_all_pending (prev : list FileWithPreview) :
  Forall (λ f, status f = pending) prev →
  List.filter (λ f, bool_decide (status f = pending)) prev = prev.
Proof.
  induction 1 as [|f prev Hf _ IH]; [done |].
  simpl. rewrite bool_decide_eq_true_2 by done. by rewrite IH.
Qed.

Lemma updateFile_progress (fileId : string) (p : Q)
    (prev : list FileWithPreview) (f : FileWithPreview) :
  f ∈ updateFile fileId (withProgress p) prev → id f = fileId →
  uploadProgress f = p ∧ status f = uploading.
Proof.
  intros Hin Hf. unfold updateFile in Hin.
  apply list_elem_of_fmap in Hin as (g & -> & _).
  destruct (String.eqb (id g) fileId) eqn:E; [done |].
  apply String.eqb_neq in E. done.
Qed.

Lemma step_progress (s : State) (i : nat) (t : Task) (uploadURL : string)
    (loaded total : Z) :
  tasks s !! i = Some t → stage t = Sending uploadURL →
  step s (Progress i true loaded total)
  = setFiles (updateFile (id (taskFile t))
                (withProgress (progressOf loaded total))) s.
Proof. intros Ht Hs. unfold step. simpl. rewrite Ht. unfold deliver. by rewrite Hs. Qed.

Lemma inject_Z_pos (z : Z) : 0 < z → (0 < inject_Z z)%Q.
Proof. intros H. unfold Qlt. simpl. lia. Qed.

Lemma inject_Z_nonneg (z : Z) : 0 ≤ z → (0 <= inject_Z z)%Q.
Proof. intros H. unfold Qle. simpl. lia. Qed.

Lemma progressOf_bounds (loaded total : Z) :
  0 < total → 0 ≤ loaded ≤ total →
  (0 <= progressOf loaded total)%Q ∧ (progressOf loaded total <= 100)%Q.
Proof.
  intros Ht [Hl Hu]. unfold progressOf.
  assert (0 <= inject_Z loaded / inject_Z total)%Q as H0.
  { apply Qle_shift_div_l; [by apply inject_Z_pos |].
    rewrite Qmult_0_l. by apply inject_Z_nonneg. }
  assert (inject_Z loaded / inject_Z total <= 1)%Q as H1.
  { apply Qle_shift_div_r; [by apply inject_Z_pos |].
    rewrite Qmult_1_l. by rewrite <- Zle_Qle. }
  split.
  - apply Qmult_le_0_compat; [done | discriminate].
  - apply Qle_trans with (1 * 100)%Q.
    + apply Qmult_le_compat_r; [done | discriminate].
    + unfold Qle. simpl. lia.
Qed.

Lemma progressOf_mono (loaded later total : Z) :
  0 < total → loaded ≤ later →
  (progressOf loaded total <= progressOf later total)%Q.
Proof.
  intros Ht Hl. unfold progressOf.
  apply Qmult_le_compat_r; [| discriminate].
  unfold Qdiv. apply Qmult_le_compat_r; [by rewrite <- Zle_Qle |].
  apply Qinv_le_0_compat. apply inject_Z_nonneg. lia.
Qed.

End BatchStart.

Section BatchStartClaims.

Import Dropzone.

Lemma handleUpload_tasks (prev : list FileWithPreview) :
  prev ≠ [] →
  map taskFile (tasks (handleUpload prev))
  = List.filter (λ f, bool_decide (status f = pending)) prev
  ∧ Forall (λ t, stage t = AwaitUploadURL) (tasks (handleUpload prev))
  ∧ files (handleUpload prev) = prev.
Proof.
  intros Hne. unfold handleUpload.
  rewrite bool_decide_eq_false_2 by (by destruct prev).
  set (pendingFiles := List.filter _ prev).
  set (s0 := {| files := prev; open := true; isUploading := true;
                tasks := map (λ f, {| taskFile := f; stage := AwaitUploadURL |})
                           pendingFiles;
                uploadedUrls := []; finished := false; notices := [];
                results := [] |}).
  assert (map taskFile (tasks s0) = pendingFiles) as Hmap.
  { simpl. rewrite map_map. simpl. apply map_id. }
  assert (Forall (λ t, stage t = AwaitUploadURL) (tasks s0)) as Hst.
  { simpl. apply Forall_fmap. by apply Forall_true. }
  unfold afterAll. simpl finished. cbv iota.
  destruct (forallb settled (tasks s0)); [| done].
  destruct (bool_decide (0 < length (uploadedUrls s0))%nat); done.
Qed.

End BatchStartClaims.

(** C4, as stated, fails: starting the batch leaves the recorded state of
    every file at [pending]; [handleUpload] never writes [uploading]. *)
Lemma C4_files_stay_pending_at_batch_start :
  map Dropzone.status (Dropzone.files (Dropzone.handleUpload [sampleImage]))
  = [Dropzone.pending]
  ∧ ¬ Forall (λ f, Dropzone.status f = Dropzone.uploading)
        (Dropzone.files (Dropzone.handleUpload [sampleImage])).
Proof.
  vm_compute. split; [reflexivity |].
  intros H. apply Forall_cons in H as [H _]. discriminate H.
Qed.

(** C4 (amended): for a batch of N accepted files, all [pending], the
    batch-start intent starts one upload task for each of exactly those N
    files, all at once, and leaves every recorded state at [pending]; a file
    is written [uploading] by its first progress report with a computable
    length. *)
Theorem C4_batch_start_starts_each_pending_file
    (prev : list Dropzone.FileWithPreview) :
  prev ≠ [] →
  Forall (λ f, Dropzone.status f = Dropzone.pending) prev →
  let s := Dropzone.handleUpload prev in
  map Dropzone.taskFile (Dropzone.tasks s) = prev
  ∧ Forall (λ t, Dropzone.stage t = Dropzone.AwaitUploadURL) (Dropzone.tasks s)
  ∧ Dropzone.files s = prev
  ∧ ∀ s' i t uploadURL loaded total f,
      Dropzone.tasks s' !! i = Some t →
      Dropzone.stage t = Dropzone.Sending uploadURL →
      f ∈ Dropzone.files
            (Dropzone.step s' (Dropzone.Progress i true loaded total)) →
      Dropzone.id f = Dropzone.id (Dropzone.taskFile t) →
      Dropzone.status f = Dropzone.uploading.
Proof.
  intros Hne Hall s.
  destruct (handleUpload_tasks prev Hne) as (Ht & Hs & Hf).
  rewrite (filter_all_pending prev Hall) in Ht.
  split_and!; try done.
  intros s' i t uploadURL loaded total f Hi Hst Hin Hid.
  rewrite (step_progress s' i t uploadURL loaded total Hi Hst) in Hin.
  simpl in Hin. by apply updateFile_progress in Hin as [_ ?].
Qed.

Lemma C4_batch_start_starts_each_pending_file_witness :
  let s := Dropzone.handleUpload [sampleImage; sampleVideo] in
  map Dropzone.taskFile (Dropzone.tasks s) = [sampleImage; sampleVideo]
  ∧ Forall (λ t, Dropzone.stage t = Dropzone.AwaitUploadURL) (Dropzone.tasks s)
  ∧ Dropzone.files s = [sampleImage; sampleVideo]
  ∧ ∀ s' i t uploadURL loaded total f,
      Dropzone.tasks s' !! i = Some t →
      Dropzone.stage t = Dropzone.Sending uploadURL →
      f ∈ Dropzone.files
            (Dropzone.step s' (Dropzone.Progress i true loaded total)) →
      Dropzone.id f = Dropzone.id (Dropzone.taskFile t) →
      Dropzone.status f = Dropzone.uploading.
Proof.
  apply (C4_batch_start_starts_each_pending_file [sampleImage; sampleVideo]).
  - discriminate.
  - repeat constructor.
Defined.

(** C5, as stated, fails: the recorded value is a percentage, and each
    report overwrites the one before.  A report of 512 of 1024 bytes records
    50, which is above 1, and a late report of 256 of 1024 bytes then lowers
    the record to 25. *)
Lemma C5_progress_in_percent_and_overwritten :
  let s1 :=
    Dropzone.run (Dropzone.handleUpload [sampleImage])
      [ Dropzone.UploadUrlOk 0 writeUrlA;
        Dropzone.Progress 0 true 512 1024 ] in
  let s2 := Dropzone.step s1 (Dropzone.Progress 0 true 256 1024) in
  ∃ p1 p2,
    map Dropzone.uploadProgress (Dropzone.files s1) = [p1]
    ∧ map Dropzone.uploadProgress (Dropzone.files s2) = [p2]
    ∧ (p1 == 50)%Q ∧ (p2 == 25)%Q ∧ ¬ (p1 <= 1)%Q ∧ (p2 < p1)%Q.
Proof.
  eexists _, _. vm_compute. split_and!; try reflexivity.
  intros H. apply H. reflexivity.
Qed.

(** C5 (amended): a progress report with a computable length records
    [loaded / total * 100] on the file, overwriting the previous value.  The
    value lies in [0, 100] when [0 <= loaded <= total], and a report of more
    bytes records no less, so the recorded values do not decrease as long as
    the transport reports in order. *)
Theorem C5_progress_recorded_as_reported
    (s : Dropzone.State) (i : nat) (t : Dropzone.Task) (uploadURL : string)
    (loaded total : Z) :
  Dropzone.tasks s !! i = Some t →
  Dropzone.stage t = Dropzone.Sending uploadURL →
  0 < total → 0 ≤ loaded ≤ total →
  let s' := Dropzone.step s (Dropzone.Progress i true loaded total) in
  (∀ f, f ∈ Dropzone.files s' →
        Dropzone.id f = Dropzone.id (Dropzone.taskFile t) →
        Dropzone.uploadProgress f = Dropzone.progressOf loaded total)
  ∧ (0 <= Dropzone.progressOf loaded total)%Q
  ∧ (Dropzone.progressOf loaded total <= 100)%Q
  ∧ (∀ later, loaded ≤ later →
       (Dropzone.progressOf loaded total
        <= Dropzone.progressOf later total)%Q).
Proof.
  intros Hi Hst Ht Hl s'. subst s'.
  rewrite (step_progress s i t uploadURL loaded total Hi Hst).
  destruct (progressOf_bounds loaded total Ht Hl) as [H0 H100].
  split_and!; try done.
  - intros f Hin Hid. simpl in Hin.
    by apply updateFile_progress in Hin as [? _].
  - intros later Hlater. by apply progressOf_mono.
Qed.

Lemma C5_progress_recorded_as_reported_witness :
  let s :=
    Dropzone.run (Dropzone.handleUpload [sampleImage])
      [Dropzone.UploadUrlOk 0 writeUrlA] in
  let s' := Dropzone.step s (Dropzone.Progress 0 true 512 1024) in
  (∀ f, f ∈ Dropzone.files s' →
        Dropzone.id f = Dropzone.id sampleImage →
        Dropzone.uploadProgress f = Dropzone.progressOf 512 1024)
  ∧ (0 <= Dropzone.progressOf 512 1024)%Q
  ∧ (Dropzone.progressOf 512 1024 <= 100)%Q
  ∧ (∀ later, 512 ≤ later →
       (Dropzone.progressOf 512 1024 <= Dropzone.progressOf later 1024)%Q).
Proof.
  intros s.
  apply (C5_progress_recorded_as_reported s 0%nat
           {| Dropzone.taskFile := sampleImage;
              Dropzone.stage := Dropzone.Sending writeUrlA |}
           writeUrlA 512 1024); [reflexivity | reflexivity | lia | lia].
Defined.

(** ** Runs of the Dropzone uploader *)

Section Runs.

Import Dropzone.

Lemma run_cons (s : State) (e : Event) (events : list Event) :
  run s (e :: events) = run (step s e) events.
Proof. reflexivity. Qed.

Lemma step_task (s : State) (e : Event) (i : nat) :
  target e = Some i →
  step s e = match tasks s !! i with
             | Some t => deliver s i t e
             | None => s
             end.
Proof. destruct e; intros He; try done; by injection He as ->. Qed.

Lemma forallb_settled_lookup (ts : list Task) (i : nat) (t : Task) :
  forallb settled ts = true → ts !! i = Some t → settled t = true.
Proof.
  intros Hall Hi. rewrite forallb_forall in Hall. apply Hall.
  apply list_elem_of_In. by eapply list_elem_of_lookup_2.
Qed.

Lemma forallb_unsettled (ts : list Task) (i : nat) (t : Task) :
  ts !! i = Some t → settled t = false → forallb settled ts = false.
Proof.
  intros Hi Ht. destruct (forallb settled ts) eqn:E; [| done].
  by rewrite (forallb_settled_lookup ts i t E Hi) in Ht.
Qed.

(** While a promise of the map is not settled, the code after
    [Promise.all] does not run. *)
Lemma afterAll_unsettled (s : State) (i : nat) (t : Task) :
  tasks s !! i = Some t → settled t = false → afterAll s = s.
Proof.
  intros Hi Ht. unfold afterAll. destruct (finished s); [done |].
  by rewrite (forallb_unsettled _ i t Hi Ht).
Qed.

(** A settled promise takes no further event. *)
Lemma deliver_settled (s : State) (i : nat) (t : Task) (e : Event) :
  settled t = true → deliver s i t e = s.
Proof.
  unfold settled, deliver. destruct (stage t), e; done.
Qed.

(** Neither does one that was aborted or whose handler threw. *)
Lemma deliver_stuck (s : State) (i : nat) (t : Task) (e : Event) :
  stuck (stage t) = true → deliver s i t e = s.
Proof.
  unfold stuck, deliver. destruct (stage t), e; done.
Qed.

Lemma stuck_unsettled (t : Task) : stuck (stage t) = true → settled t = false.
Proof. unfold stuck, settled. by destruct (stage t). Qed.

Lemma abort_cases (h : nat) (s : State) :
  abort h s = s
  ∨ ∃ t uploadURL, tasks s !! h = Some t ∧ stage t = Sending uploadURL
                   ∧ abort h s = setStage h Aborted s.
Proof.
  unfold abort. destruct (tasks s !! h) as [t|] eqn:Hh; [| by left].
  destruct (stage t) eqn:Hs; try (by left). right. by exists t, uploadURL.
Qed.

(** What [removeFile] leaves alone, and the one task it may touch. *)
Lemma removeFile_fields (fileId : string) (s : State) :
  let s' := removeFile fileId s in
  open s' = open s ∧ finished s' = finished s ∧ results s' = results s
  ∧ notices s' = notices s ∧ uploadedUrls s' = uploadedUrls s
  ∧ files s' = List.filter (λ f, negb (String.eqb (id f) fileId)) (files s)
  ∧ (tasks s' = tasks s
     ∨ ∃ h t uploadURL, tasks s !! h = Some t ∧ stage t = Sending uploadURL
         ∧ tasks s' = tasks (setStage h Aborted s)).
Proof.
  unfold removeFile.
  set (filtered := List.filter _ (files s)).
  set (s1 := match List.find _ (files s) with Some _ => _ | None => s end).
  assert (s1 = s ∨ ∃ h, s1 = abort h s) as Hs1.
  { subst s1. destruct (List.find _ (files s)) as [f|]; [| by left].
    destruct (xhr f) as [h|]; [| by left].
    destruct (bool_decide (status f = uploading)); [right; by exists h | by left]. }
  assert (open s1 = open s ∧ finished s1 = finished s ∧ results s1 = results s
          ∧ notices s1 = notices s ∧ uploadedUrls s1 = uploadedUrls s
          ∧ files s1 = files s
          ∧ (tasks s1 = tasks s
             ∨ ∃ h t uploadURL, tasks s !! h = Some t
                 ∧ stage t = Sending uploadURL
                 ∧ tasks s1 = tasks (setStage h Aborted s))) as Hf.
  { destruct Hs1 as [-> | [h ->]]; [by split_and!; try done; left |].
    destruct (abort_cases h s) as [-> | (t & u & Ht & Hu & ->)];
      [by split_and!; try done; left |].
    split_and!; try done. right. by exists h, t, u. }
  destruct Hf as (? & ? & ? & ? & ? & _ & Htasks).
  destruct (existsb _ filtered); simpl; split_and!; done.
Qed.

End Runs.

(** ** What a run reports, and when it closes the dialog *)

Section Reporting.

Import Dropzone.

Lemma reporting_afterAll (s : State) :
  finished s = false → results s = [] → open s = true →
  reporting (afterAll s).
Proof.
  intros Hfin Hres Hopen. unfold afterAll. rewrite Hfin.
  destruct (forallb settled (tasks s)) eqn:Hall.
  - destruct (uploadedUrls s) as [|u urls] eqn:Hurls.
    + rewrite bool_decide_eq_false_2 by (simpl; lia).
      unfold reporting; simpl. split; [done |]. left. by rewrite Hres, Hopen.
    + rewrite bool_decide_eq_true_2 by (simpl; lia).
      unfold reporting; simpl. split; [done |]. right.
      by rewrite Hres, Hurls.
  - split; [by rewrite Hfin |]. left. by rewrite Hfin.
Qed.

Lemma reporting_quiet (s s' : State) :
  reporting s →
  open s' = open s → finished s' = finished s → results s' = results s →
  uploadedUrls s' = uploadedUrls s →
  (finished s = true → tasks s' = tasks s) →
  reporting s'.
Proof.
  intros [Hset Hrep] Ho Hf Hr Hu Ht. unfold reporting.
  rewrite Ho, Hf, Hr, Hu. split; [| done].
  intros Hfin. rewrite (Ht Hfin). by apply Hset.
Qed.

Lemma reporting_deliver (s : State) (i : nat) (t : Task) (e : Event) :
  reporting s → tasks s !! i = Some t → reporting (deliver s i t e).
Proof.
  intros Hrep Hi. destruct (finished s) eqn:Hfin.
  - destruct Hrep as [Hset Hrep].
    rewrite deliver_settled; [done |].
    by apply (forallb_settled_lookup (tasks s) i t (Hset Hfin)).
  - assert (results s = [] ∧ open s = true) as [Hres Hopen].
    { destruct Hrep as [_ [(? & ? & _) | (? & _)]]; [done | congruence]. }
    assert (∀ s', open s' = open s → finished s' = finished s →
                  results s' = results s → uploadedUrls s' = uploadedUrls s →
                  reporting s') as Hquiet.
    { intros s' ? ? ? ?.
      eapply reporting_quiet; [exact Hrep | done | done | done | done |].
      intros ?. congruence. }
    unfold deliver.
    destruct e, (stage t); try done;
      try (by apply reporting_afterAll); try (by apply Hquiet).
    + destruct lengthComputable; [by apply Hquiet | done].
    + destruct (bool_decide (httpStatus = 200));
        [by apply Hquiet | by apply reporting_afterAll].
Qed.

Lemma reporting_step (s : State) (e : Event) :
  reporting s → reporting (step s e).
Proof.
  intros Hrep.
  assert (∀ i, reporting match tasks s !! i with
                         | Some t => deliver s i t e
                         | None => s
                         end) as Htask.
  { intros i. destruct (tasks s !! i) eqn:Hi; [| done].
    by apply reporting_deliver. }
  destruct e; try apply Htask.
  - (* RemoveFile *)
    simpl. destruct (removeFile_fields fileId s)
      as (Ho & Hf & Hr & _ & Hu & _ & Ht).
    eapply reporting_quiet; [exact Hrep | done | done | done | done |].
    intros Hfin. destruct Ht as [-> | (h & t & u & Hh & Hs & _)]; [done |].
    destruct Hrep as [Hset _].
    pose proof (forallb_settled_lookup _ h t (Hset Hfin) Hh) as Hst.
    unfold settled in Hst. by rewrite Hs in Hst.
  - (* DialogEffect *)
    simpl. destruct (negb (open s) && _); [| done].
    by eapply reporting_quiet; [exact Hrep | done ..].
Qed.

Lemma reporting_run (s : State) (events : list Event) :
  reporting s → reporting (run s events).
Proof.
  revert s. induction events as [|e events IH]; intros s Hrep; [done |].
  rewrite run_cons. apply IH. by apply reporting_step.
Qed.

Lemma reporting_handleUpload (prev : list FileWithPreview) :
  reporting (handleUpload prev).
Proof.
  unfold handleUpload. destruct (bool_decide (length prev = 0)%nat).
  - split; [done |]. by left.
  - by apply reporting_afterAll.
Qed.

End Reporting.

Section UppyBatch.

Import Uppy.






End UppyBatch.

(** ** Promises that never settle *)

Section Stuck.

Import Dropzone.

Lemma lookup_setStage_ne (s : State) (i j : nat) (st : Stage) :
  i ≠ j → tasks (setStage j st s) !! i = tasks s !! i.
Proof. intros Hne. simpl. by apply list_lookup_alter_ne. Qed.

(** An event delivered to task [j] leaves another task [i] as it is, and
    while [i] is not settled it reports nothing. *)
Lemma deliver_other (s : State) (i j : nat) (t tj : Task) (e : Event) :
  i ≠ j → tasks s !! i = Some t → settled t = false →
  let s' := deliver s j tj e in
  tasks s' !! i = Some t ∧ results s' = results s
  ∧ finished s' = finished s ∧ open s' = open s.
Proof.
  intros Hne Hi Ht.
  assert (∀ st x, tasks x = tasks s → 
            afterAll (setStage j st x) = setStage j st x) as Hafter.
  { intros st x Hx. apply (afterAll_unsettled _ i t); [| done].
    rewrite lookup_setStage_ne by done. by rewrite Hx. }
  assert (∀ st, alter (λ t0, {| taskFile := taskFile t0; stage := st |}) j
                  (tasks s) !! i = Some t) as Halter.
  { intros st. by rewrite list_lookup_alter_ne. }
  unfold deliver, resolved, rejected.
  destruct e, (stage tj); try done;
    try (rewrite Hafter by done; simpl; by rewrite Halter);
    try (simpl; by rewrite Halter).
  - by destruct lengthComputable.
  - destruct (bool_decide (httpStatus = 200));
      [| rewrite Hafter by done]; simpl; by rewrite Halter.
Qed.

(** A task that is stuck stays as it is, and with it the batch stays
    unreported. *)
Lemma stuck_step (s : State) (e : Event) (i : nat) (t : Task) :
  tasks s !! i = Some t → stuck (stage t) = true →
  let s' := step s e in
  tasks s' !! i = Some t ∧ results s' = results s
  ∧ finished s' = finished s ∧ open s' = open s.
Proof.
  intros Hi Hst.
  assert (∀ j, let s' := match tasks s !! j with
                         | Some tj => deliver s j tj e
                         | None => s
                         end in
               tasks s' !! i = Some t ∧ results s' = results s
               ∧ finished s' = finished s ∧ open s' = open s) as Htask.
  { intros j. destruct (decide (i = j)) as [<- | Hne].
    - rewrite Hi. simpl. by rewrite deliver_stuck.
    - destruct (tasks s !! j) as [tj|] eqn:Hj; [| done].
      apply deliver_other; [done | done |]. by apply stuck_unsettled. }
  destruct e; try apply Htask.
  - cbv zeta. change (step s (RemoveFile fileId)) with (removeFile fileId s).
    destruct (removeFile_fields fileId s)
      as (Ho & Hf & Hr & _ & _ & _ & Ht).
    split_and!; try done.
    destruct Ht as [-> | (h & th & u & Hh & Hs & ->)]; [done |].
    destruct (decide (i = h)) as [<- | Hne].
    + rewrite Hi in Hh. injection Hh as <-. rewrite Hs in Hst. done.
    + by rewrite lookup_setStage_ne.
  - simpl. by destruct (negb (open s) && _).
Qed.

Lemma stuck_run (s : State) (events : list Event) (i : nat) (t : Task) :
  tasks s !! i = Some t → stuck (stage t) = true →
  let s' := run s events in
  tasks s' !! i = Some t ∧ results s' = results s
  ∧ finished s' = finished s ∧ open s' = open s.
Proof.
  revert s. induction events as [|e events IH]; intros s Hi Hst; [done |].
  rewrite run_cons.
  destruct (stuck_step s e i t Hi Hst) as (Hi' & Hr & Hf & Ho).
  destruct (IH (step s e) Hi' Hst) as (? & ? & ? & ?).
  split_and!; congruence.
Qed.

(** The callbacks of a stuck task are dropped. *)
Lemma stuck_ignores (s : State) (e : Event) (i : nat) (t : Task) :
  tasks s !! i = Some t → stuck (stage t) = true →
  target e = Some i → step s e = s.
Proof.
  intros Hi Hst He. rewrite (step_task s e i He), Hi. by apply deliver_stuck.
Qed.

(** When every task is stuck, no event changes a recorded state or adds a
    notice: files can only leave the batch. *)
Lemma all_stuck_step (s : State) (e : Event) :
  Forall (λ t, stuck (stage t) = true) (tasks s) →
  let s' := step s e in
  tasks s' = tasks s ∧ notices s' = notices s
  ∧ ∀ f, f ∈ files s' → f ∈ files s.
Proof.
  intros Hall.
  assert (∀ j, match tasks s !! j with
               | Some tj => deliver s j tj e
               | None => s
               end = s) as Htask.
  { intros j. destruct (tasks s !! j) as [tj|] eqn:Hj; [| done].
    apply deliver_stuck. rewrite Forall_lookup in Hall. by apply (Hall j). }
  destruct e; cbv zeta;
    try (change (step s ?e) with
           match tasks s !! i with
           | Some tj => deliver s i tj e
           | None => s
           end; by rewrite Htask).
  - change (step s (RemoveFile fileId)) with (removeFile fileId s).
    destruct (removeFile_fields fileId s)
      as (_ & _ & _ & Hn & _ & Hfiles & Ht).
    split_and!; [| done |].
    + destruct Ht as [-> | (h & th & u & Hh & Hs & _)]; [done |].
      rewrite Forall_lookup in Hall. specialize (Hall h th Hh).
      rewrite Hs in Hall. done.
    + intros f. rewrite Hfiles. rewrite !list_elem_of_In.
      rewrite filter_In. tauto.
  - simpl. destruct (negb (open s) && _); [| done]. simpl.
    split_and!; try done. intros f Hf. by apply elem_of_nil in Hf.
Qed.

Lemma all_stuck_run (s : State) (events : list Event) :
  Forall (λ t, stuck (stage t) = true) (tasks s) →
  let s' := run s events in
  tasks s' = tasks s ∧ notices s' = notices s
  ∧ ∀ f, f ∈ files s' → f ∈ files s.
Proof.
  revert s. induction events as [|e events IH]; intros s Hall; [done |].
  rewrite run_cons. destruct (all_stuck_step s e Hall) as (Ht & Hn & Hf).
  destruct (IH (step s e)) as (Ht' & Hn' & Hf'); [by rewrite Ht |].
  split_and!; [congruence | congruence | auto].
Qed.

End Stuck.

(** C1: the code breaks the claim.  One file; its bytes are stored (status
    200), the view-URL exchange fails.  The handler throws inside the
    [async] [onload] callback, so the promise of [uploadFile] is neither
    resolved nor rejected: the file keeps the state [uploading], no notice
    is issued, and nothing a later event does moves it to [error]. *)
Theorem C1_view_failure_leaves_file_uploading :
  let s :=
    Dropzone.run (Dropzone.handleUpload [sampleImage])
      [ Dropzone.UploadUrlOk 0 writeUrlA;
        Dropzone.Progress 0 true 1024 1024;
        Dropzone.Load 0 200;
        Dropzone.ViewUrlFailed 0 ] in
  map Dropzone.status (Dropzone.files s) = [Dropzone.uploading]
  ∧ map Dropzone.stage (Dropzone.tasks s) = [Dropzone.Thrown]
  ∧ Dropzone.uploadedUrls s = []
  ∧ ∀ events,
      let s' := Dropzone.run s events in
      Forall (λ f, Dropzone.status f = Dropzone.uploading) (Dropzone.files s')
      ∧ Dropzone.notices s' = []
      ∧ Dropzone.results s' = []
      ∧ Dropzone.finished s' = false.
Proof.
  intros s. split_and!; [reflexivity | reflexivity | reflexivity |].
  intros events s'.
  destruct (all_stuck_run s events) as (_ & Hn & Hf);
    [by repeat constructor |].
  destruct (stuck_run s events 0
              {| Dropzone.taskFile := sampleImage;
                 Dropzone.stage := Dropzone.Thrown |})
    as (_ & Hr & Hfin & _); [reflexivity | reflexivity |].
  split_and!; [| exact Hn | exact Hr | exact Hfin].
  apply Forall_forall. intros f Hin. apply Hf in Hin.
  apply list_elem_of_singleton in Hin. by subst f.
Qed.

(** C2: the code breaks the claim, by the defect of C1.  Two files; the
    first is stored and its view URL resolves, the second is stored and its
    view-URL exchange fails.  The first URL is collected and its file is
    [success], but the second promise never settles, so the URL is never
    reported. *)
Theorem C2_view_failure_withholds_sibling_url :
  let s :=
    Dropzone.run (Dropzone.handleUpload [sampleImage; sampleVideo])
      [ Dropzone.UploadUrlOk 0 writeUrlA;
        Dropzone.UploadUrlOk 1 writeUrlB;
        Dropzone.Progress 0 true 1024 1024;
        Dropzone.Progress 1 true 2048 2048;
        Dropzone.Load 0 200;
        Dropzone.Load 1 200;
        Dropzone.ViewUrlOk 0 viewUrlA;
        Dropzone.ViewUrlFailed 1 ] in
  map Dropzone.status (Dropzone.files s)
  = [Dropzone.success; Dropzone.uploading]
  ∧ Dropzone.uploadedUrls s = [viewUrlA]
  ∧ ∀ events,
      Dropzone.results (Dropzone.run s events) = []
      ∧ Dropzone.finished (Dropzone.run s events) = false.
Proof.
  intros s. split_and!; [reflexivity | reflexivity |].
  intros events.
  destruct (stuck_run s events 1
              {| Dropzone.taskFile := sampleVideo;
                 Dropzone.stage := Dropzone.Thrown |})
    as (_ & Hr & Hfin & _); [reflexivity | reflexivity |].
  by split.
Qed.

(** C3: the code breaks the claim.  Two files are being sent; the user
    cancels the second, the first is stored and its view URL resolves.
    Every file left in the batch is [success], yet the aborted request fires
    neither [load] nor [error], its promise never settles, and the batch is
    never reported finished: no result, the dialog open, [isUploading]
    still set. *)
Theorem C3_cancelled_file_blocks_completion :
  let s :=
    Dropzone.run (Dropzone.handleUpload [sampleImage; sampleVideo])
      [ Dropzone.UploadUrlOk 0 writeUrlA;
        Dropzone.UploadUrlOk 1 writeUrlB;
        Dropzone.Progress 0 true 512 1024;
        Dropzone.Progress 1 true 512 2048;
        Dropzone.RemoveFile (Dropzone.id sampleVideo);
        Dropzone.Load 0 200;
        Dropzone.ViewUrlOk 0 viewUrlA ] in
  map Dropzone.id (Dropzone.files s) = [Dropzone.id sampleImage]
  ∧ map Dropzone.status (Dropzone.files s) = [Dropzone.success]
  ∧ map Dropzone.stage (Dropzone.tasks s)
    = [Dropzone.Resolved viewUrlA; Dropzone.Aborted]
  ∧ Dropzone.uploadedUrls s = [viewUrlA]
  ∧ Dropzone.isUploading s = true
  ∧ ∀ events,
      let s' := Dropzone.run s events in
      Dropzone.results s' = [] ∧ Dropzone.finished s' = false
      ∧ Dropzone.open s' = true.
Proof.
  intros s.
  split_and!; [reflexivity | reflexivity | reflexivity | reflexivity
               | reflexivity |].
  intros events s'.
  destruct (stuck_run s events 1
              {| Dropzone.taskFile := sampleVideo;
                 Dropzone.stage := Dropzone.Aborted |})
    as (_ & Hr & Hfin & Ho); [reflexivity | reflexivity |].
  by split_and!.
Qed.

(** ** Cancelling a file *)

Section Cancel.

Import Dropzone.

Lemma removeFile_aborts (s : State) (fileId : string) (f : FileWithPreview)
    (i : nat) (t : Task) (uploadURL : string) :
  List.find (λ g, String.eqb (id g) fileId) (files s) = Some f →
  xhr f = Some i → status f = uploading →
  tasks s !! i = Some t → stage t = Sending uploadURL →
  tasks (removeFile fileId s) !! i
  = Some {| taskFile := taskFile t; stage := Aborted |}.
Proof.
  intros Hfind Hxhr Hstatus Hi Hst. unfold removeFile.
  rewrite Hfind, Hxhr, bool_decide_eq_true_2 by done.
  unfold abort. rewrite Hi, Hst.
  destruct (existsb _ _); simpl;
    rewrite list_lookup_alter, Hi; by rewrite decide_True.
Qed.

Lemma removeFile_removes (s : State) (fileId : string) (g : FileWithPreview) :
  g ∈ files (removeFile fileId s) → id g ≠ fileId.
Proof.
  destruct (removeFile_fields fileId s) as (_ & _ & _ & _ & _ & -> & _).
  rewrite list_elem_of_In, filter_In. intros [_ Hg] E.
  by rewrite E, String.eqb_refl in Hg.
Qed.

End Cancel.

(** C7, as stated, fails: before the first progress report the file is
    still recorded [pending], and removing it then does not abort the
    request that is already being sent.  The bytes are stored, the view URL
    resolves, and the URL of the removed file is reported. *)
Lemma C7_removal_before_first_progress_does_not_abort :
  let inFlight :=
    Dropzone.run (Dropzone.handleUpload [sampleImage])
      [Dropzone.UploadUrlOk 0 writeUrlA] in
  let removed :=
    Dropzone.step inFlight (Dropzone.RemoveFile (Dropzone.id sampleImage)) in
  let later :=
    Dropzone.run removed [Dropzone.Load 0 200; Dropzone.ViewUrlOk 0 viewUrlA] in
  map Dropzone.stage (Dropzone.tasks inFlight) = [Dropzone.Sending writeUrlA]
  ∧ map Dropzone.xhr (Dropzone.files inFlight) = [Some 0%nat]
  ∧ Dropzone.files removed = []
  ∧ map Dropzone.stage (Dropzone.tasks removed) = [Dropzone.Sending writeUrlA]
  ∧ Dropzone.results later = [[viewUrlA]].
Proof. vm_compute. split_and!; reflexivity. Qed.

(** C7 (amended): for a file removed while its request is being sent and
    after a progress report has recorded it as [uploading] (the file being
    the one its identifier finds in the batch), [removeFile] aborts the
    request, no file with that identifier is left in the batch, and every
    later callback of that upload is dropped: it changes neither the
    collected URLs, nor the notices, nor any reported result. *)
Theorem C7_cancel_while_uploading_aborts_and_silences
    (s : Dropzone.State) (fileId : string) (f : Dropzone.FileWithPreview)
    (i : nat) (t : Dropzone.Task) (uploadURL : string) :
  List.find (λ g, String.eqb (Dropzone.id g) fileId) (Dropzone.files s)
  = Some f →
  Dropzone.xhr f = Some i →
  Dropzone.status f = Dropzone.uploading →
  Dropzone.tasks s !! i = Some t →
  Dropzone.stage t = Dropzone.Sending uploadURL →
  let s' := Dropzone.step s (Dropzone.RemoveFile fileId) in
  Dropzone.stage <$> Dropzone.tasks s' !! i = Some Dropzone.Aborted
  ∧ (∀ g, g ∈ Dropzone.files s' → Dropzone.id g ≠ fileId)
  ∧ ∀ events e,
      Dropzone.target e = Some i →
      Dropzone.stage <$> Dropzone.tasks (Dropzone.run s' events) !! i
      = Some Dropzone.Aborted
      ∧ Dropzone.step (Dropzone.run s' events) e = Dropzone.run s' events.
Proof.
  intros Hfind Hxhr Hstatus Hi Hst s'.
  pose proof (removeFile_aborts s fileId f i t uploadURL
                Hfind Hxhr Hstatus Hi Hst) as Hab.
  change (Dropzone.step s (Dropzone.RemoveFile fileId))
    with (Dropzone.removeFile fileId s) in s'.
  split_and!.
  - subst s'. by rewrite Hab.
  - intros g. apply removeFile_removes.
  - intros events e He.
    destruct (stuck_run s' events i _ Hab eq_refl) as (Hrun & _).
    split; [by rewrite Hrun |].
    by apply (stuck_ignores _ e i _ Hrun).
Qed.

Lemma C7_cancel_while_uploading_aborts_and_silences_witness :
  let s :=
    Dropzone.run (Dropzone.handleUpload [sampleImage; sampleVideo])
      [ Dropzone.UploadUrlOk 0 writeUrlA;
        Dropzone.UploadUrlOk 1 writeUrlB;
        Dropzone.Progress 1 true 512 2048 ] in
  let s' := Dropzone.step s (Dropzone.RemoveFile (Dropzone.id sampleVideo)) in
  Dropzone.stage <$> Dropzone.tasks s' !! 1%nat = Some Dropzone.Aborted
  ∧ (∀ g, g ∈ Dropzone.files s' → Dropzone.id g ≠ Dropzone.id sampleVideo)
  ∧ ∀ events e,
      Dropzone.target e = Some 1%nat →
      Dropzone.stage <$> Dropzone.tasks (Dropzone.run s' events) !! 1%nat
      = Some Dropzone.Aborted
      ∧ Dropzone.step (Dropzone.run s' events) e = Dropzone.run s' events.
Proof.
  intros s.
  apply (C7_cancel_while_uploading_aborts_and_silences s
           (Dropzone.id sampleVideo)
           (Dropzone.withProgress (Dropzone.progressOf 512 2048)
              (Dropzone.withXhr 1 sampleVideo))
           1%nat
           {| Dropzone.taskFile := sampleVideo;
              Dropzone.stage := Dropzone.Sending writeUrlB |}
           writeUrlB); reflexivity.
Defined.
(** ** Collected URLs follow the order of resolution *)

Section Order.

Import Dropzone.

Lemma uploadedUrls_afterAll (s : State) :
  uploadedUrls (afterAll s) = uploadedUrls s.
Proof.
  unfold afterAll. destruct (finished s); [done |].
  destruct (forallb settled (tasks s)); [| done].
  by destruct (bool_decide (0 < length (uploadedUrls s))%nat).
Qed.

Lemma uploadedUrls_step (s : State) (e : Event) :
  uploadedUrls (step s e) = uploadedUrls s ++ resolutions s [e].
Proof.
  assert (∀ i, target e = Some i →
            uploadedUrls match tasks s !! i with
                         | Some t => deliver s i t e
                         | None => s
                         end = uploadedUrls s ++ resolutions s [e]) as Htask.
  { intros i He. destruct (tasks s !! i) as [t|] eqn:Hi.
    - unfold deliver, resolved, rejected.
      destruct e; simpl in He; try done; injection He as ->; simpl;
        rewrite ?Hi; simpl; destruct (stage t);
        rewrite ?uploadedUrls_afterAll; simpl; rewrite ?app_nil_r; try done.
      + by destruct lengthComputable.
      + destruct (bool_decide (httpStatus = 200));
          rewrite ?uploadedUrls_afterAll; done.
    - destruct e; simpl in He; try done; injection He as ->; simpl;
        rewrite ?Hi; simpl; by rewrite app_nil_r. }
  destruct e; try (by apply Htask).
  - simpl resolutions. rewrite app_nil_r.
    change (step s (RemoveFile fileId)) with (removeFile fileId s).
    by destruct (removeFile_fields fileId s) as (_ & _ & _ & _ & -> & _).
  - simpl. rewrite app_nil_r. by destruct (negb (open s) && _).
Qed.

(** The local array [uploadedUrls] grows by the URL of each view-URL answer
    as it arrives: it lists the URLs in the order their resolution
    completed, whatever the order of submission. *)
Lemma uploadedUrls_run (s : State) (events : list Event) :
  uploadedUrls (run s events) = uploadedUrls s ++ resolutions s events.
Proof.
  revert s. induction events as [|e events IH]; intros s.
  - simpl. by rewrite app_nil_r.
  - rewrite run_cons, IH, uploadedUrls_step. simpl resolutions.
    rewrite !app_nil_r. by rewrite <- app_assoc.
Qed.

(** A run in which every upload settles reports exactly the collected
    URLs, when there is one. *)
Lemma finished_run_reports_collected (prev : list FileWithPreview)
    (events : list Event) :
  let s := run (handleUpload prev) events in
  finished s = true →
  uploadedUrls s = resolutions (handleUpload prev) events
  ∧ results s = (if bool_decide (uploadedUrls s = []) then []
                 else [uploadedUrls s]).
Proof.
  intros s Hfin.
  assert (uploadedUrls (handleUpload prev) = []) as H0.
  { unfold handleUpload. destruct (bool_decide (length prev = 0)%nat); [done |].
    by rewrite uploadedUrls_afterAll. }
  split.
  - subst s. by rewrite uploadedUrls_run, H0.
  - assert (reporting s) as [_ Hrep]
      by apply reporting_run, reporting_handleUpload.
    destruct Hrep as [(Hr & _ & Hu) | (_ & Hu & Hr & _)].
    + by rewrite Hr, (Hu Hfin).
    + by rewrite bool_decide_eq_false_2.
Qed.

Example out_of_order_resolution :
  let s :=
    run (handleUpload [sampleImage; sampleVideo])
      [ UploadUrlOk 0 writeUrlA; UploadUrlOk 1 writeUrlB;
        Load 1 200; Load 0 200;
        ViewUrlOk 1 "https://view/b"; ViewUrlOk 0 "https://view/a" ] in
  results s = [["https://view/b"; "https://view/a"]]
  ∧ map status (files s) = [success; success].
Proof. vm_compute. by split. Qed.

Example failure_kept_apart :
  let s :=
    run (handleUpload [sampleImage; sampleVideo])
      [ UploadUrlOk 0 writeUrlA; UploadUrlFailed 1;
        Load 0 200; ViewUrlOk 0 viewUrlA ] in
  results s = [[viewUrlA]]
  ∧ notices s = ["Failed to upload b.mov"]
  ∧ map status (files s) = [success; error].
Proof. vm_compute. by split_and!. Qed.

End Order.

(** ** The Uppy handlers on a failed view-URL exchange *)

Section UppyViewFailure.

Import Uppy.

(** The [catch] branch of the [upload-success] handler: a notice, and no
    URL for the file. *)
Lemma uppy_view_failure (c : Component) (f : UppyFile) :
  isAwaited f c = true →
  let c' := step c (ViewUrlFailed f) in
  currentBatchUrls (state c') = currentBatchUrls (state c)
  ∧ urls (state c') = urls (state c)
  ∧ results c' = results c
  ∧ notices c'
    = notices c
        ++ ["Upload succeeded but failed to get view URL for " +:+ name f]
  ∧ id f ∉ pending (state c').
Proof.
  intros Hf. simpl. rewrite Hf. simpl. split_and!; try done.
  intros [_ Hnot]%elem_of_difference. apply Hnot. by apply elem_of_singleton.
Qed.

Example uppy_partial_batch :
  let a := {| name := "a.png"; id := "uppy-a" |} in
  let b := {| name := "b.mov"; id := "uppy-b" |} in
  let c :=
    run mount
      [ Upload; UploadSuccess (Some a) writeUrlA;
        UploadSuccess (Some b) writeUrlB; Complete [] [a; b];
        ViewUrlFailed b; ViewUrlOk a viewUrlA; Timer ] in
  results c = [[viewUrlA]]
  ∧ notices c = ["Upload succeeded but failed to get view URL for b.mov"]
  ∧ open c = false.
Proof. vm_compute. by split_and!. Qed.

End UppyViewFailure.

(** ** A run finishes exactly when every upload has settled *)

Section Prompt.

Import Dropzone.

Lemma prompt_afterAll (s : State) :
  forallb settled (tasks (afterAll s)) = true → finished (afterAll s) = true.
Proof.
  unfold afterAll. destruct (finished s) eqn:Hfin; [done |].
  destruct (forallb settled (tasks s)) eqn:Hall; [done |].
  by rewrite Hall.
Qed.

Lemma forallb_alter_unsettled (ts : list Task) (i : nat) (t : Task)
    (st : Stage) :
  ts !! i = Some t →
  settled {| taskFile := taskFile t; stage := st |} = false →
  forallb settled
    (alter (λ t0, {| taskFile := taskFile t0; stage := st |}) i ts) = false.
Proof.
  intros Hi Hst.
  apply (forallb_unsettled _ i {| taskFile := taskFile t; stage := st |});
    [| done].
  by rewrite list_lookup_alter, decide_True, Hi.
Qed.

Lemma prompt_step (s : State) (e : Event) :
  (forallb settled (tasks s) = true → finished s = true) →
  forallb settled (tasks (step s e)) = true → finished (step s e) = true.
Proof.
  intros Hprompt.
  assert (∀ i, let s' := match tasks s !! i with
                         | Some t => deliver s i t e
                         | None => s
                         end in
               forallb settled (tasks s') = true → finished s' = true)
    as Htask.
  { intros i. destruct (tasks s !! i) as [t|] eqn:Hi; [| done].
    unfold deliver, resolved, rejected.
    destruct e, (stage t); try done; try apply prompt_afterAll;
      try (simpl; by rewrite (forallb_alter_unsettled _ i t)).
    - by destruct lengthComputable.
    - destruct (bool_decide (httpStatus = 200)); [| apply prompt_afterAll].
      simpl. by rewrite (forallb_alter_unsettled _ i t). }
  destruct e; try apply Htask.
  - change (step s (RemoveFile fileId)) with (removeFile fileId s).
    destruct (removeFile_fields fileId s)
      as (_ & -> & _ & _ & _ & _ & Ht).
    destruct Ht as [-> | (h & th & u & Hh & Hs & ->)]; [done |].
    simpl. by rewrite (forallb_alter_unsettled _ h th).
  - simpl. by destruct (negb (open s) && _).
Qed.

(** Once the promise of every upload of a run is settled, the code after
    [Promise.all] has run, and not before. *)
Lemma finished_iff_all_settled (prev : list FileWithPreview)
    (events : list Event) :
  let s := run (handleUpload prev) events in
  finished s = true ↔ forallb settled (tasks s) = true.
Proof.
  intros s. split.
  - assert (reporting s) as [Hset _]
      by apply reporting_run, reporting_handleUpload.
    exact Hset.
  - subst s.
    assert (forallb settled (tasks (handleUpload prev)) = true →
            finished (handleUpload prev) = true) as H0.
    { unfold handleUpload.
      destruct (bool_decide (length prev = 0)%nat); [done |].
      apply prompt_afterAll. }
    revert H0. generalize (handleUpload prev).
    induction events as [|e events IH]; intros s0 H0; [done |].
    rewrite run_cons. apply IH. by apply prompt_step.
Qed.

End Prompt.

(** The write URL of the component's own test double has no [/uploads/]
    segment: the derived key is [undefined]. *)
Example key_of_test_double :
  Exchange.viewRequest "test-url" = "/api/upload?key=uploads/undefined".
Proof. reflexivity. Qed.


(** ** The reported URLs are those of the files that reached [success] *)

Section AgreementFacts.

Import Dropzone.

Lemma map_fmap {A B : Type} (f : A → B) (l : list A) : map f l = f <$> l.
Proof. reflexivity. Qed.

Lemma map_id_updateFile (fileId : string)
    (change : FileWithPreview → FileWithPreview)
    (prev : list FileWithPreview) :
  (∀ g, id (change g) = id g) →
  map id (updateFile fileId change prev) = map id prev.
Proof.
  intros Hid. unfold updateFile. rewrite map_map. apply map_ext.
  intros g. by destruct (String.eqb (id g) fileId).
Qed.

Lemma map_taskFile_alter (st : Stage) (i : nat) (ts : list Task) :
  map (λ t, id (taskFile t))
    (alter (λ t, {| taskFile := taskFile t; stage := st |}) i ts)
  = map (λ t, id (taskFile t)) ts.
Proof.
  apply list_eq. intros j.
  rewrite !map_fmap, !list_lookup_fmap, list_lookup_alter.
  destruct (decide (i = j)) as [<- | ?]; [| done]. by destruct (ts !! i).
Qed.

Lemma updateFile_hit (fileId : string)
    (change : FileWithPreview → FileWithPreview)
    (prev : list FileWithPreview) (f : FileWithPreview) :
  f ∈ prev → id f = fileId → change f ∈ updateFile fileId change prev.
Proof.
  intros Hin Hid. unfold updateFile. apply list_elem_of_fmap.
  exists f. split; [| done]. by rewrite <- Hid, String.eqb_refl.
Qed.

Lemma updateFile_miss (fileId : string)
    (change : FileWithPreview → FileWithPreview)
    (prev : list FileWithPreview) (f : FileWithPreview) :
  f ∈ prev → id f ≠ fileId → f ∈ updateFile fileId change prev.
Proof.
  intros Hin Hid. unfold updateFile. apply list_elem_of_fmap.
  exists f. split; [| done].
  apply String.eqb_neq in Hid. by rewrite Hid.
Qed.

Lemma updateFile_same (fileId : string) (prev : list FileWithPreview) :
  updateFile fileId (λ g, g) prev = prev.
Proof.
  unfold updateFile. rewrite <- (map_id prev) at 2. apply map_ext.
  intros g. by destruct (String.eqb (id g) fileId).
Qed.

(** One upload moves to a new stage and rewrites its file accordingly. *)
Lemma agreement_update (s s' : State) (i : nat) (t : Task) (st' : Stage)
    (change : FileWithPreview → FileWithPreview) :
  agreement s → tasks s !! i = Some t →
  files s' = updateFile (id (taskFile t)) change (files s) →
  tasks s'
  = alter (λ t0, {| taskFile := taskFile t0; stage := st' |}) i (tasks s) →
  (∀ g, id (change g) = id g) →
  (∀ g, statusAgrees (stage t) g → statusAgrees st' (change g)) →
  (∀ u, stage t ≠ Resolved u) →
  (uploadedUrls s' = uploadedUrls s ∧ (∀ u, st' ≠ Resolved u))
  ∨ (∃ u, st' = Resolved u ∧ uploadedUrls s' = uploadedUrls s ++ [u]) →
  agreement s'.
Proof.
  intros (Hfiles & Htasks & Hagree & Hurls) Hi Hf' Ht' Hid Hchange Hnot Hcase.
  unfold agreement. rewrite Hf', Ht'. split_and!.
  - by rewrite map_id_updateFile.
  - by rewrite map_taskFile_alter.
  - intros j tj. rewrite list_lookup_alter.
    destruct (decide (i = j)) as [<- | Hne].
    + rewrite Hi. simpl. intros [= <-]. simpl.
      destruct (Hagree i t Hi) as (f & Hin & Hfid & Hst).
      exists (change f). split_and!; [by apply updateFile_hit | | by apply Hchange].
      by rewrite Hid.
    + intros Hj. destruct (Hagree j tj Hj) as (f & Hin & Hfid & Hst).
      exists f. split_and!; [| done | done].
      apply updateFile_miss; [done |]. rewrite Hfid. intros E.
      apply Hne.
      apply (NoDup_lookup _ i j (id (taskFile t)) Htasks).
      * by rewrite map_fmap, list_lookup_fmap, Hi.
      * by rewrite map_fmap, list_lookup_fmap, Hj, <- E.
  - intros u. destruct Hcase as [[-> Hno] | (u0 & -> & ->)].
    + rewrite Hurls. split.
      * intros (j & tj & Hj & Hst). exists j.
        destruct (decide (i = j)) as [<- | Hne].
        -- rewrite Hi in Hj. injection Hj as <-. by destruct (Hnot u).
        -- exists tj. by rewrite list_lookup_alter_ne.
      * intros (j & tj & Hj & Hst).
        destruct (decide (i = j)) as [<- | Hne].
        -- rewrite list_lookup_alter, decide_True, Hi in Hj by done.
           injection Hj as <-. simpl in Hst. by destruct (Hno u).
        -- rewrite list_lookup_alter_ne in Hj by done. by exists j, tj.
    + rewrite elem_of_app, list_elem_of_singleton, Hurls. split.
      * intros [(j & tj & Hj & Hst) | ->].
        -- exists j. destruct (decide (i = j)) as [<- | Hne].
           ++ rewrite Hi in Hj. injection Hj as <-. by destruct (Hnot u).
           ++ exists tj. by rewrite list_lookup_alter_ne.
        -- exists i, {| taskFile := taskFile t; stage := Resolved u0 |}.
           by rewrite list_lookup_alter, decide_True, Hi.
      * intros (j & tj & Hj & Hst).
        destruct (decide (i = j)) as [<- | Hne].
        -- rewrite list_lookup_alter, decide_True, Hi in Hj by done.
           injection Hj as <-. simpl in Hst. injection Hst as ->. by right.
        -- rewrite list_lookup_alter_ne in Hj by done. left. by exists j, tj.
Qed.

Lemma agreement_fields (s s' : State) :
  agreement s → files s' = files s → tasks s' = tasks s →
  uploadedUrls s' = uploadedUrls s → agreement s'.
Proof. unfold agreement. by intros H -> -> ->. Qed.

Lemma afterAll_fields (s : State) :
  files (afterAll s) = files s ∧ tasks (afterAll s) = tasks s
  ∧ uploadedUrls (afterAll s) = uploadedUrls s.
Proof.
  unfold afterAll. destruct (finished s); [done |].
  destruct (forallb settled (tasks s)); [| done].
  by destruct (bool_decide (0 < length (uploadedUrls s))%nat).
Qed.

Lemma agreement_afterAll (s : State) : agreement s → agreement (afterAll s).
Proof.
  intros H. destruct (afterAll_fields s) as (? & ? & ?).
  by apply (agreement_fields s).
Qed.

Lemma agreement_deliver (s : State) (i : nat) (t : Task) (e : Event) :
  agreement s → tasks s !! i = Some t → agreement (deliver s i t e).
Proof.
  intros Hag Hi. unfold deliver, resolved, rejected.
  destruct e, (stage t) eqn:Hst; try done.
  - (* the write URL arrives *)
    eapply (agreement_update s _ i t (Sending uploadURL) (withXhr i));
      [done | done | done | done | done | | | ].
    + rewrite Hst. simpl. tauto.
    + rewrite Hst. done.
    + left. done.
  - (* the upload-target exchange fails *)
    apply agreement_afterAll.
    eapply (agreement_update s _ i t Rejected withFailure);
      [done | done | done | done | done | | | ].
    + done.
    + rewrite Hst. done.
    + left. done.
  - (* a progress report *)
    destruct lengthComputable; [| done].
    eapply (agreement_update s _ i t (Sending uploadURL)
              (withProgress (progressOf loaded total)));
      [done | done | done | | done | | | ].
    + simpl. apply list_eq. intros j. rewrite list_lookup_alter.
      destruct (decide (i = j)) as [<- | ?]; [| done].
      rewrite Hi. simpl. destruct t. simpl in *. by rewrite Hst.
    + intros g _. simpl. by right.
    + rewrite Hst. done.
    + left. done.
  - (* the bytes are stored, or refused *)
    destruct (bool_decide (httpStatus = 200)).
    + eapply (agreement_update s _ i t
                (AwaitViewURL (Exchange.viewRequest uploadURL)) (λ g, g));
        [done | done | | done | done | | | ].
      * simpl. by rewrite updateFile_same.
      * rewrite Hst. done.
      * rewrite Hst. done.
      * left. done.
    + apply agreement_afterAll.
      eapply (agreement_update s _ i t Rejected withFailure);
        [done | done | done | done | done | | | ].
      * done.
      * rewrite Hst. done.
      * left. done.
  - (* the transfer fails *)
    apply agreement_afterAll.
    eapply (agreement_update s _ i t Rejected withFailure);
      [done | done | done | done | done | | | ].
    + done.
    + rewrite Hst. done.
    + left. done.
  - (* the view URL resolves *)
    apply agreement_afterAll.
    eapply (agreement_update s _ i t (Resolved url) withSuccess);
      [done | done | done | done | done | | | ].
    + done.
    + rewrite Hst. done.
    + right. by exists url.
  - (* the view-URL exchange fails *)
    eapply (agreement_update s _ i t Thrown (λ g, g));
      [done | done | | done | done | | | ].
    + simpl. by rewrite updateFile_same.
    + rewrite Hst. done.
    + rewrite Hst. done.
    + left. done.
Qed.

Lemma agreement_run (s : State) (events : list Event) :
  agreement s → forallb ofNetwork events = true → agreement (run s events).
Proof.
  revert s. induction events as [|e events IH]; intros s Hag Hnet; [done |].
  simpl in Hnet. apply andb_true_iff in Hnet as [He Hnet].
  rewrite run_cons. apply IH; [| done].
  unfold ofNetwork in He. destruct (target e) as [i|] eqn:Ht; [| done].
  rewrite (step_task s e i Ht).
  destruct (tasks s !! i) as [t|] eqn:Hi; [| done].
  by apply agreement_deliver.
Qed.

Lemma agreement_handleUpload (prev : list FileWithPreview) :
  NoDup (map id prev) → agreement (handleUpload prev).
Proof.
  intros Hnd. unfold handleUpload.
  destruct (bool_decide (length prev = 0)%nat).
  - unfold agreement; simpl. split_and!; [done | constructor | |].
    + intros i t Hi. by rewrite lookup_nil in Hi.
    + intros u. split; [by intros ?%elem_of_nil |].
      intros (i & t & Hi & _). by rewrite lookup_nil in Hi.
  - apply agreement_afterAll. unfold agreement; simpl.
    set (pendingFiles := List.filter _ prev).
    assert (∀ f, f ∈ pendingFiles → f ∈ prev ∧ status f = pending) as Hpend.
    { intros f. subst pendingFiles. rewrite !list_elem_of_In, filter_In.
      intros [? Hp]. split; [done |]. by apply bool_decide_eq_true_1 in Hp. }
    split_and!; [done | | |].
    + rewrite map_map. simpl. subst pendingFiles.
      clear Hpend. induction prev as [|f prev IH]; [constructor |].
      simpl in *. apply NoDup_cons in Hnd as [Hf Hnd].
      destruct (bool_decide (status f = pending)); [| by apply IH].
      simpl. apply NoDup_cons. split; [| by apply IH].
      intros Hin. apply Hf.
      apply list_elem_of_fmap in Hin as (g & -> & Hg).
      apply list_elem_of_fmap. exists g. split; [done |].
      apply list_elem_of_In in Hg. apply filter_In in Hg as [Hg _].
      by apply list_elem_of_In.
    + intros i t Hi.
      rewrite map_fmap, list_lookup_fmap in Hi.
      destruct (pendingFiles !! i) as [f|] eqn:Hf; [| done].
      injection Hi as <-. simpl.
      destruct (Hpend f) as [Hin Hp]; [by eapply list_elem_of_lookup_2 |].
      exists f. split_and!; [done | done | by left].
    + intros u. split; [by intros ?%elem_of_nil |].
      intros (i & t & Hi & Hst).
      rewrite map_fmap, list_lookup_fmap in Hi.
      destruct (pendingFiles !! i); [| done]. injection Hi as <-. done.
Qed.

(** With distinct identifiers and no removal, a run whose uploads have all
    settled reports the collected URLs, in the order their view URLs
    resolved; each upload's file is [success] exactly when the upload
    resolved, its URL then being among those reported, and [error] exactly
    when it was rejected; and every reported URL is that of a resolved
    upload.  A failed file takes no URL of a sibling out of the result. *)
Lemma settled_run_reports_success_urls (prev : list FileWithPreview)
    (events : list Event) :
  NoDup (map id prev) → forallb ofNetwork events = true →
  let s := run (handleUpload prev) events in
  finished s = true →
  uploadedUrls s = resolutions (handleUpload prev) events
  ∧ results s = (if bool_decide (uploadedUrls s = []) then []
                 else [uploadedUrls s])
  ∧ (∀ i t, tasks s !! i = Some t →
       ∃ f, f ∈ files s ∧ id f = id (taskFile t)
            ∧ (status f = success ↔
               ∃ u, stage t = Resolved u ∧ u ∈ uploadedUrls s)
            ∧ (status f = error ↔ stage t = Rejected))
  ∧ (∀ u, u ∈ uploadedUrls s →
       ∃ i t, tasks s !! i = Some t ∧ stage t = Resolved u).
Proof.
  intros Hnd Hnet s Hfin.
  destruct (finished_run_reports_collected prev events Hfin) as [Hord Hres].
  assert (agreement s) as (_ & _ & Hagree & Hurls)
    by (by apply agreement_run; [apply agreement_handleUpload |]).
  assert (forallb settled (tasks s) = true) as Hall
    by (by apply finished_iff_all_settled).
  split_and!; [done | done | | by intros u ?%Hurls].
  intros i t Hi. destruct (Hagree i t Hi) as (f & Hin & Hid & Hst).
  exists f. split_and!; [done | done | |].
  - pose proof (forallb_settled_lookup _ i t Hall Hi) as Hset.
    unfold settled in Hset. destruct (stage t) eqn:E; try done; simpl in Hst.
    + split; [| done]. intros _. exists url. split; [done |].
      apply Hurls. exists i, t. by rewrite E.
    + split; [by rewrite Hst | by intros (u & ? & _)].
  - pose proof (forallb_settled_lookup _ i t Hall Hi) as Hset.
    unfold settled in Hset. destruct (stage t) eqn:E; try done; simpl in Hst.
    by rewrite Hst.
Qed.

End AgreementFacts.

Example mixed_batch_reports_success_only :
  let s :=
    Dropzone.run (Dropzone.handleUpload [sampleImage; sampleVideo])
      [ Dropzone.UploadUrlOk 0 writeUrlA; Dropzone.UploadUrlOk 1 writeUrlB;
        Dropzone.NetworkError 1; Dropzone.Load 0 200;
        Dropzone.ViewUrlOk 0 viewUrlA ] in
  Dropzone.results s = [[viewUrlA]]
  ∧ map Dropzone.status (Dropzone.files s)
    = [Dropzone.success; Dropzone.error]
  ∧ ∀ u, u ∈ Dropzone.uploadedUrls s →
      ∃ i t, Dropzone.tasks s !! i = Some t
             ∧ Dropzone.stage t = Dropzone.Resolved u.
Proof.
  intros s. split_and!; [reflexivity | reflexivity |].
  apply (settled_run_reports_success_urls [sampleImage; sampleVideo]
           [ Dropzone.UploadUrlOk 0 writeUrlA; Dropzone.UploadUrlOk 1 writeUrlB;
             Dropzone.NetworkError 1; Dropzone.Load 0 200;
             Dropzone.ViewUrlOk 0 viewUrlA ]).
  - apply (bool_decide_unpack _). by vm_compute.
  - reflexivity.
  - reflexivity.
Qed.

(** ** Characters of a text, and the digits of a printed number *)

Section Characters.

Lemma allChars_append (P : ascii → bool) (a b : string) :
  Url.allChars P (a +:+ b) = Url.allChars P a && Url.allChars P b.
Proof.
  induction a as [|x a IH]; [done |].
  rewrite append_cons. simpl. by rewrite IH, andb_assoc.
Qed.

Lemma allChars_weaken (P Q : ascii → bool) (s : string) :
  (∀ c, P c = true → Q c = true) →
  Url.allChars P s = true → Url.allChars Q s = true.
Proof.
  intros Hpq. induction s as [|x s IH]; [done |]. simpl.
  intros [Hx Hs]%andb_true_iff. by rewrite (Hpq x Hx), (IH Hs).
Qed.

(** A text that lacks the first character of [sub] does not hold [sub]. *)
Lemma includes_without_first (c : ascii) (sub s : string) :
  Url.allChars (λ x, negb (Ascii.eqb x c)) s = true →
  Js.includes (String c sub) s = false.
Proof.
  induction s as [|x s IH]; [done |]. simpl.
  intros [Hx Hs]%andb_true_iff. rewrite (IH Hs), orb_false_r.
  destruct (Ascii.ascii_dec c x) as [-> | _]; [| done].
  by rewrite Ascii.eqb_refl in Hx.
Qed.

Lemma beforeChar_without (c : ascii) (s : string) :
  Url.allChars (λ x, negb (Ascii.eqb x c)) s = true → Url.beforeChar c s = s.
Proof.
  induction s as [|x s IH]; [done |]. simpl.
  intros [Hx Hs]%andb_true_iff. apply negb_true_iff in Hx.
  by rewrite Hx, (IH Hs).
Qed.

Lemma afterChar_append (c : ascii) (a b : string) :
  Url.allChars (λ x, negb (Ascii.eqb x c)) a = true →
  Url.afterChar c (a +:+ String c b) = Some b.
Proof.
  induction a as [|x a IH]; intros H.
  - change ("" +:+ String c b) with (String c b). simpl.
    by rewrite Ascii.eqb_refl.
  - rewrite append_cons. simpl in *.
    apply andb_true_iff in H as [Hx Ha]. apply negb_true_iff in Hx.
    by rewrite Hx, (IH Ha).
Qed.

(** Every character of a printed natural number is one of the ten digits,
    so it satisfies whatever the digits satisfy. *)
Lemma pretty_N_go_allChars (P : ascii → bool) (x : N) (s : string) :
  (∀ d, P (pretty_N_char d) = true) →
  Url.allChars P s = true → Url.allChars P (pretty_N_go x s) = true.
Proof.
  intros Hd. revert s. induction (N.lt_wf_0 x) as [x _ IH]; intros s Hs.
  assert (x = 0 ∨ 0 < x)%N as [-> | Hpos] by lia.
  - by rewrite pretty_N_go_0.
  - rewrite pretty_N_go_step by done. apply IH; [by apply N.div_lt |].
    simpl. by rewrite Hd, Hs.
Qed.

Lemma pretty_Z_allChars (P : ascii → bool) (z : Z) :
  0 ≤ z → (∀ d, P (pretty_N_char d) = true) →
  Url.allChars P (pretty z) = true.
Proof.
  intros Hz Hd. destruct z as [|p|p]; [| | lia].
  - pose proof (Hd 0%N) as H0. change (pretty 0) with "0".
    simpl in *. by rewrite H0.
  - change (pretty (Z.pos p)) with (pretty_N_go (N.pos p) "").
    by apply pretty_N_go_allChars.
Qed.

Lemma digits_dashless (d : N) : Url.dashless (pretty_N_char d) = true.
Proof. unfold pretty_N_char. by repeat case_match. Qed.

Lemma digits_unreserved (d : N) : Url.unreserved (pretty_N_char d) = true.
Proof. unfold pretty_N_char. by repeat case_match. Qed.

Lemma append_nil_l (s : string) : "" +:+ s = s.
Proof. reflexivity. Qed.

(** [digits - rest] is read in one way only. *)
Lemma dash_after_digits_inj (d d' f f' : string) :
  Url.allChars Url.dashless d = true → Url.allChars Url.dashless d' = true →
  d +:+ "-" +:+ f = d' +:+ "-" +:+ f' → d = d' ∧ f = f'.
Proof.
  revert d'. induction d as [|x d IH]; intros [|x' d'] Hd Hd' E;
    rewrite ?append_cons, ?append_nil_l in E.
  - by injection E as ->.
  - injection E as <- _. by simpl in Hd'.
  - injection E as -> _. by simpl in Hd.
  - injection E as -> E.
    simpl in Hd, Hd'. apply andb_true_iff in Hd as [_ Hd].
    apply andb_true_iff in Hd' as [_ Hd'].
    rewrite <- (append_nil_l f), <- (append_nil_l f'), <- !append_cons in E.
    by destruct (IH d' Hd Hd' E) as [-> ->].
Qed.

(** So is [name - digits]. *)
Lemma dash_before_digits_inj (a a' d d' : string) :
  Url.allChars Url.dashless d = true → Url.allChars Url.dashless d' = true →
  a +:+ "-" +:+ d = a' +:+ "-" +:+ d' → a = a' ∧ d = d'.
Proof.
  intros Hd Hd'. revert a'. induction a as [|x a IH]; intros [|x' a'] E;
    rewrite ?append_cons, ?append_nil_l in E.
  - by injection E as ->.
  - injection E as <- E. exfalso.
    rewrite E, allChars_append in Hd. apply andb_true_iff in Hd as [_ Hd].
    by simpl in Hd.
  - injection E as -> E. exfalso.
    rewrite <- E, allChars_append in Hd'.
    apply andb_true_iff in Hd' as [_ Hd']. by simpl in Hd'.
  - injection E as -> E.
    rewrite <- (append_nil_l d), <- (append_nil_l d'), <- !append_cons in E.
    by destruct (IH a' E) as [-> ->].
Qed.

End Characters.

(** ** What [onDrop] adds to the batch *)

Section OnDrop.

Import Dropzone.

Lemma trackedFiles_cons (a : Accepted) (rest : list Accepted) :
  trackedFiles (a :: rest)
  = match track a with inl _ => [] | inr f => [f] end ++ trackedFiles rest.
Proof. reflexivity. Qed.

Lemma onDrop_batch (acceptedFiles : list Accepted)
    (fileRejections : list FileRejection) (prev : list FileWithPreview) :
  snd (onDrop acceptedFiles fileRejections prev)
  = prev ++ trackedFiles acceptedFiles.
Proof.
  unfold onDrop. simpl. fold (trackedFiles acceptedFiles).
  destruct (trackedFiles acceptedFiles) as [|f fs]; simpl.
  - by rewrite app_nil_r.
  - done.
Qed.

(** The size check of [onDrop] is the one of [validator]. *)
Lemma track_iff_validator (a : Accepted) :
  validator (dropped a) = None ↔ ∃ f, track a = inr f.
Proof.
  unfold validator, track.
  destruct (bool_decide (size (dropped a) > _)); split;
    [done | by intros [f ?] | by eexists | done].
Qed.

Lemma track_fresh (a : Accepted) (f : FileWithPreview) :
  track a = inr f →
  fresh f ∧ originalFile f = dropped a
  ∧ id f = name (dropped a) +:+ "-" +:+ pretty (now a).
Proof.
  unfold track. destruct (bool_decide (size (dropped a) > _)); [done |].
  intros [= <-]. by repeat split.
Qed.

Lemma trackedFiles_elem (acceptedFiles : list Accepted)
    (f : FileWithPreview) :
  f ∈ trackedFiles acceptedFiles ↔
  ∃ a, a ∈ acceptedFiles ∧ track a = inr f.
Proof.
  induction acceptedFiles as [|a rest IH].
  - split; [by intros ?%elem_of_nil | by intros (a & ?%elem_of_nil & _)].
  - rewrite trackedFiles_cons, elem_of_app, IH. split.
    + intros [Hf | (b & Hb & Ht)].
      * destruct (track a) as [m | g] eqn:Ha; [by apply elem_of_nil in Hf |].
        apply list_elem_of_singleton in Hf as ->.
        exists a. split; [apply elem_of_cons; by left | done].
      * exists b. split; [apply elem_of_cons; by right | done].
    + intros (b & Hb & Ht). apply elem_of_cons in Hb as [-> | Hb].
      * left. rewrite Ht. by apply list_elem_of_singleton.
      * right. by exists b.
Qed.

End OnDrop.

(** X1: [onDrop] keeps the batch it finds and appends, in the order of the
    drop, one fresh file (pending, progress 0, no request, no error) for
    each accepted file that [validator] passes, and for no other: its own
    size check never disagrees with the validator. *)
Theorem onDrop_appends_validated_files
    (acceptedFiles : list Dropzone.Accepted)
    (fileRejections : list Dropzone.FileRejection)
    (prev : list Dropzone.FileWithPreview) :
  let batch := snd (Dropzone.onDrop acceptedFiles fileRejections prev) in
  batch = prev ++ trackedFiles acceptedFiles
  ∧ Forall fresh (trackedFiles acceptedFiles)
  ∧ map Dropzone.originalFile (trackedFiles acceptedFiles)
    = List.filter (λ file, bool_decide (Dropzone.validator file = None))
        (map Dropzone.dropped acceptedFiles).
Proof.
  intros batch. split_and!.
  - apply onDrop_batch.
  - apply Forall_forall. intros f (a & _ & Ht)%trackedFiles_elem.
    by apply track_fresh in Ht as [? _].
  - induction acceptedFiles as [|a rest IH]; [done |].
    rewrite trackedFiles_cons, map_app, IH. simpl.
    destruct (Dropzone.track a) as [m | f] eqn:Ha.
    + rewrite bool_decide_eq_false_2; [done |].
      intros Hv. apply track_iff_validator in Hv as [f Hf]. congruence.
    + rewrite bool_decide_eq_true_2
        by (apply track_iff_validator; by exists f).
      simpl. by apply track_fresh in Ha as (_ & -> & _).
Qed.

(** X3: the identifiers [onDrop] gives are pairwise distinct whenever no two
    accepted files of the drop share both the name and the clock reading
    (the clock never being negative). *)
Theorem onDrop_ids_distinct (acceptedFiles : list Dropzone.Accepted)
    (fileRejections : list Dropzone.FileRejection) :
  Forall (λ a, 0 ≤ Dropzone.now a) acceptedFiles →
  NoDup (map (λ a, (Dropzone.name (Dropzone.dropped a), Dropzone.now a))
           acceptedFiles) →
  NoDup (map Dropzone.id
           (snd (Dropzone.onDrop acceptedFiles fileRejections []))).
Proof.
  intros Hclock Hnd. rewrite onDrop_batch. simpl.
  induction acceptedFiles as [|a rest IH]; [constructor |].
  apply Forall_cons in Hclock as [Ha Hclock].
  simpl in Hnd. apply NoDup_cons in Hnd as [Hfresh Hnd].
  rewrite trackedFiles_cons, map_app. specialize (IH Hclock Hnd).
  destruct (Dropzone.track a) as [m | f] eqn:Hf; [done |].
  simpl. apply NoDup_cons. split; [| done].
  intros Hin. apply Hfresh.
  rewrite map_fmap in Hin. apply list_elem_of_fmap in Hin as (g & Hid & Hg).
  apply trackedFiles_elem in Hg as (b & Hb & Hg).
  apply track_fresh in Hf as (_ & _ & Hidf).
  apply track_fresh in Hg as (_ & _ & Hidg).
  rewrite Hidf, Hidg in Hid.
  assert (0 ≤ Dropzone.now b) as Hnb.
  { rewrite Forall_forall in Hclock. by apply Hclock. }
  apply dash_before_digits_inj in Hid as [Hname Hnow];
    [| apply pretty_Z_allChars; [done | apply digits_dashless] ..].
  apply (inj pretty) in Hnow.
  rewrite map_fmap. apply list_elem_of_fmap. exists b.
  split; [by rewrite Hname, Hnow | done].
Qed.

Lemma onDrop_ids_distinct_witness :
  NoDup (map Dropzone.id
           (snd (Dropzone.onDrop
                   [ {| Dropzone.dropped :=
                          {| Dropzone.name := "a.png";
                             Dropzone.type := "image/png";
                             Dropzone.size := 10 |};
                        Dropzone.now := 1700000000000;
                        Dropzone.objectURL := "blob:1" |};
                     {| Dropzone.dropped :=
                          {| Dropzone.name := "a.png";
                             Dropzone.type := "image/png";
                             Dropzone.size := 20 |};
                        Dropzone.now := 1700000000001;
                        Dropzone.objectURL := "blob:2" |} ] [] []))).
Proof.
  apply onDrop_ids_distinct.
  - repeat constructor; simpl; lia.
  - apply (bool_decide_unpack _). by vm_compute.
Defined.

Section DropFiles.

Import Dropzone.

Lemma rejection_some (file : File) (r : FileRejection) :
  rejection file = Some r →
  Dropzone.file r = file ∧ ∃ e rest, errors r = e :: rest.
Proof.
  unfold rejection. destruct (fileErrors file) as [|e rest]; [done |].
  intros [= <-]. split; [done |]. by exists e, rest.
Qed.

Lemma rejection_none (file : File) :
  rejection file = None → validator file = None.
Proof.
  unfold rejection, fileErrors.
  destruct (acceptable file), (validator file); done.
Qed.

Lemma rejectionMessage_names_file (file : File) (e : FileError) :
  String.prefix (name file) (rejectionMessage file e) = true.
Proof.
  unfold rejectionMessage.
  destruct (String.eqb (code e) "file-too-large");
    [| destruct (String.eqb (code e) "file-invalid-type")];
    apply prefix_append.
Qed.

End DropFiles.

(** X4: no dropped file is lost without a word.  Every file of a drop either
    enters the batch, as a fresh file under the identifier
    [<name>-<clock>] that holds the file as the reader handed it on, or is
    answered by a notice that begins with its name. *)
Theorem dropFiles_tracks_or_reports
    (COMMON_MIME_TYPES : string → option string)
    (dropped : list Dropzone.Accepted)
    (prev : list Dropzone.FileWithPreview) (a : Dropzone.Accepted) :
  a ∈ dropped →
  (∃ f, f ∈ snd (dropFiles COMMON_MIME_TYPES dropped prev)
        ∧ Dropzone.originalFile f
          = Dropzone.withMimeType COMMON_MIME_TYPES (Dropzone.dropped a)
        ∧ Dropzone.id f
          = Dropzone.name (Dropzone.dropped a) +:+ "-"
              +:+ pretty (Dropzone.now a)
        ∧ fresh f)
  ∨ (∃ notice, notice ∈ fst (dropFiles COMMON_MIME_TYPES dropped prev)
        ∧ String.prefix (Dropzone.name (Dropzone.dropped a)) notice = true).
Proof.
  intros Hin. unfold dropFiles.
  set (b := readFile COMMON_MIME_TYPES a).
  assert (b ∈ map (readFile COMMON_MIME_TYPES) dropped) as Hb.
  { rewrite map_fmap. apply list_elem_of_fmap. by exists a. }
  assert (Dropzone.name (Dropzone.dropped b) = Dropzone.name (Dropzone.dropped a))
    as Hname
    by apply (withMimeType_fields COMMON_MIME_TYPES (Dropzone.dropped a)).
  destruct (Dropzone.rejection (Dropzone.dropped b)) as [r|] eqn:Hr.
  - right. destruct (rejection_some _ _ Hr) as (Hfile & e & rest & Herr).
    exists (Dropzone.rejectionMessage (Dropzone.dropped b) e). split.
    + unfold Dropzone.onDrop. simpl. apply elem_of_app. left.
      apply list_elem_of_In, in_flat_map. exists r. split.
      * apply list_elem_of_In, list_elem_of_omap. by exists b.
      * rewrite Hfile, Herr. by left.
    + rewrite <- Hname. apply rejectionMessage_names_file.
  - left. rewrite onDrop_batch.
    pose proof (rejection_none _ Hr) as Hv.
    apply track_iff_validator in Hv as [f Hf].
    exists f. destruct (track_fresh b f Hf) as (Hfresh & Horig & Hid).
    split_and!; [| done | by rewrite Hid, Hname | done].
    apply elem_of_app. right. apply trackedFiles_elem. exists b.
    split; [| done].
    apply list_elem_of_In, filter_In. split; [by apply list_elem_of_In |].
    by apply bool_decide_eq_true_2.
Qed.

Lemma dropFiles_tracks_or_reports_witness :
  let large :=
    {| Dropzone.dropped :=
         {| Dropzone.name := "large-image.jpg"; Dropzone.type := "";
            Dropzone.size := 6 * 1024 * 1024 |};
       Dropzone.now := 1700000000000; Dropzone.objectURL := "blob:1" |} in
  let small :=
    {| Dropzone.dropped :=
         {| Dropzone.name := "a.png"; Dropzone.type := "image/png";
            Dropzone.size := 1024 |};
       Dropzone.now := 1700000000000; Dropzone.objectURL := "blob:2" |} in
  fst (dropFiles sampleMimeTypes [large; small] [])
  = ["large-image.jpg is too large. Maximum size is 5MB"]
  ∧ ((∃ f, f ∈ snd (dropFiles sampleMimeTypes [large; small] [])
           ∧ Dropzone.originalFile f
             = Dropzone.withMimeType sampleMimeTypes (Dropzone.dropped large)
           ∧ Dropzone.id f
             = Dropzone.name (Dropzone.dropped large) +:+ "-"
                 +:+ pretty (Dropzone.now large)
           ∧ fresh f)
     ∨ (∃ notice, notice ∈ fst (dropFiles sampleMimeTypes [large; small] [])
           ∧ String.prefix (Dropzone.name (Dropzone.dropped large)) notice
             = true)).
Proof.
  intros large small. split; [reflexivity |].
  apply (dropFiles_tracks_or_reports sampleMimeTypes [large; small] [] large).
  apply elem_of_cons. by left.
Defined.

(** ** The storage keys of [POST] *)

Lemma storageKey_inj (now1 now2 : Z) (filename1 filename2 : string) :
  0 ≤ now1 → 0 ≤ now2 →
  Route.storageKey now1 filename1 = Route.storageKey now2 filename2 →
  now1 = now2 ∧ filename1 = filename2.
Proof.
  intros H1 H2 E. unfold Route.storageKey, Route.objectName in E.
  apply (inj (String.append "uploads/")) in E.
  apply dash_after_digits_inj in E as [Hnow Hname];
    [| apply pretty_Z_allChars; [done | apply digits_dashless] ..].
  split; [by apply (inj pretty) | done].
Qed.

(** X5: [POST] never gives two uploads the same storage key unless both the
    clock reading and the file name are the same: the key
    [uploads/<clock>-<filename>] is read back in one way only, whatever
    dashes and digits the file name holds. *)
Theorem storageKey_distinct (now1 now2 : Z) (filename1 filename2 : string) :
  0 ≤ now1 → 0 ≤ now2 →
  now1 ≠ now2 ∨ filename1 ≠ filename2 →
  Route.storageKey now1 filename1 ≠ Route.storageKey now2 filename2.
Proof.
  intros H1 H2 Hne E.
  destruct (storageKey_inj now1 now2 filename1 filename2 H1 H2 E).
  tauto.
Qed.

Lemma storageKey_distinct_witness :
  (1 ≠ 17 ∨ "7-a.png" ≠ "a.png")
  ∧ Route.storageKey 1 "7-a.png" ≠ Route.storageKey 17 "a.png".
Proof.
  split; [left; lia |].
  apply storageKey_distinct; [lia | lia | left; lia].
Defined.

(** ** The object key in the path of a signed URL *)

Section Encoding.

(** A byte is either written as it is or as [%XY], which reads back as the
    byte. *)
Lemma pathPiece_cases (c : ascii) :
  (Url.unreserved c || Ascii.eqb c "/" = true
   ∧ Route.pathPiece c = String c "")
  ∨ (∃ h l, Route.pathPiece c = String "%" (String h (String l ""))
            ∧ Url.unreserved h = true ∧ Url.unreserved l = true
            ∧ ∀ rest, Url.percentDecode (String "%" (String h (String l rest)))
                      = String c (Url.percentDecode rest)).
Proof.
  destruct c as [[] [] [] [] [] [] [] []];
    first [ left; split; reflexivity
          | right; do 2 eexists;
            split_and!; [reflexivity | reflexivity | reflexivity |];
            intros rest; reflexivity ].
Qed.

Lemma unreserved_plain (c : ascii) :
  Url.unreserved c = true →
  Ascii.eqb c "/" = false ∧ Ascii.eqb c "?" = false ∧ Ascii.eqb c "#" = false
  ∧ Ascii.eqb c "&" = false ∧ Ascii.eqb c "+" = false
  ∧ Ascii.eqb c "%" = false.
Proof.
  intros Hc. split_and!;
    match goal with
    | |- Ascii.eqb c ?k = false =>
        destruct (Ascii.eqb_spec c k) as [-> |]; [by vm_compute in Hc | done]
    end.
Qed.

Lemma encodePath_cons (c : ascii) (s : string) :
  Route.encodePath (String c s) = Route.pathPiece c +:+ Route.encodePath s.
Proof. reflexivity. Qed.

Lemma encodePath_app (a b : string) :
  Route.encodePath (a +:+ b) = Route.encodePath a +:+ Route.encodePath b.
Proof.
  induction a as [|x a IH]; [done |].
  by rewrite append_cons, !encodePath_cons, IH, append_assoc.
Qed.

(** Letters, digits, [- . _ ~] and [/] are written as they are. *)
Lemma encodePath_plain (s : string) :
  Url.allChars (λ c, Url.unreserved c || Ascii.eqb c "/") s = true →
  Route.encodePath s = s.
Proof.
  induction s as [|x s IH]; [done |]. simpl Url.allChars.
  intros [Hx Hs]%andb_true_iff.
  rewrite encodePath_cons, (IH Hs). unfold Route.pathPiece. by rewrite Hx.
Qed.

(** The path holds nothing but those characters and [%]. *)
Lemma encodePath_chars (s : string) :
  Url.allChars (λ c, Url.unreserved c || Ascii.eqb c "/" || Ascii.eqb c "%")
    (Route.encodePath s) = true.
Proof.
  induction s as [|x s IH]; [done |]. rewrite encodePath_cons.
  destruct (pathPiece_cases x) as [[Hx ->] | (h & l & -> & Hh & Hl & _)].
  - rewrite append_cons, append_nil_l. simpl. by rewrite Hx, IH.
  - rewrite !append_cons, append_nil_l. simpl. by rewrite Hh, Hl, IH.
Qed.

Lemma plusToSpace_plain (s : string) :
  Url.allChars (λ x, negb (Ascii.eqb x "+")) s = true →
  Url.plusToSpace s = s.
Proof.
  induction s as [|x s IH]; [done |]. simpl.
  intros [Hx Hs]%andb_true_iff. apply negb_true_iff in Hx.
  by rewrite Hx, (IH Hs).
Qed.

Lemma percentDecode_encodePath (s : string) :
  Url.percentDecode (Route.encodePath s) = s.
Proof.
  induction s as [|x s IH]; [done |]. rewrite encodePath_cons.
  destruct (pathPiece_cases x) as [[Hx ->] | (h & l & -> & _ & _ & Hback)].
  - rewrite append_cons, append_nil_l.
    assert (Ascii.eqb x "%" = false) as Hpct.
    { destruct (Ascii.eqb_spec x "%") as [-> |]; [by vm_compute in Hx | done]. }
    cbn [Url.percentDecode]. by rewrite Hpct, IH.
  - rewrite !append_cons, append_nil_l. by rewrite Hback, IH.
Qed.

(** What the signer writes into the path, the query parser reads back. *)
Lemma formDecode_encodePath (s : string) :
  Url.formDecode (Route.encodePath s) = s.
Proof.
  unfold Url.formDecode. rewrite plusToSpace_plain.
  - apply percentDecode_encodePath.
  - generalize (encodePath_chars s). apply allChars_weaken. intros c Hc.
    destruct (Ascii.eqb_spec c "+") as [-> |]; [by vm_compute in Hc | done].
Qed.

(** A separator of letters and [/] found at the front of the encoded text
    stands at the front of the text itself. *)
Lemma prefix_encodePath (sep s : string) :
  Url.allChars (λ c, Url.unreserved c || Ascii.eqb c "/") sep = true →
  String.prefix sep (Route.encodePath s) = true → String.prefix sep s = true.
Proof.
  revert s. induction sep as [|a sep IH]; intros s Hsep Hp;
    [by destruct s |].
  simpl in Hsep. apply andb_true_iff in Hsep as [Ha Hsep].
  destruct s as [|x s]; [done |]. rewrite encodePath_cons in Hp.
  destruct (pathPiece_cases x) as [[Hx Hpiece] | (h & l & Hpiece & _)];
    rewrite Hpiece in Hp; rewrite ?append_cons, append_nil_l in Hp;
    revert Hp; simpl.
  - destruct (Ascii.ascii_dec a x); [by apply IH | done].
  - destruct (Ascii.ascii_dec a "%") as [-> | _]; [by vm_compute in Ha | done].
Qed.

Lemma prefix_slash (sub : string) (x : ascii) (s : string) :
  Ascii.eqb x "/" = false → String.prefix (String "/" sub) (String x s) = false.
Proof.
  intros Hx.
  change (String.prefix (String "/" sub) (String x s))
    with (if Ascii.ascii_dec "/" x then String.prefix sub s else false).
  destruct (Ascii.ascii_dec "/" x) as [<- | _]; [| done].
  by rewrite Ascii.eqb_refl in Hx.
Qed.

Lemma includes_encodePath (sub s : string) :
  Url.allChars (λ c, Url.unreserved c || Ascii.eqb c "/") sub = true →
  Js.includes (String "/" sub) s = false →
  Js.includes (String "/" sub) (Route.encodePath s) = false.
Proof.
  intros Hsub. induction s as [|x s IH]; [done |].
  intros [Hp Hi]%includes_cons. specialize (IH Hi).
  destruct (String.prefix (String "/" sub) (Route.encodePath (String x s)))
    eqn:Hq.
  { apply prefix_encodePath in Hq; [congruence |]. simpl. by rewrite Hsub. }
  revert Hq. rewrite encodePath_cons.
  destruct (pathPiece_cases x) as [[Hx ->] | (h & l & -> & Hh & Hl & _)];
    rewrite ?append_cons, append_nil_l; intros Hq.
  - change (Js.includes (String "/" sub) (String x (Route.encodePath s)))
      with (String.prefix (String "/" sub) (String x (Route.encodePath s))
            || Js.includes (String "/" sub) (Route.encodePath s)).
    by rewrite Hq, IH.
  - destruct (unreserved_plain h Hh) as (Hh' & _).
    destruct (unreserved_plain l Hl) as (Hl' & _).
    set (E := Route.encodePath s) in *.
    change (Js.includes (String "/" sub) (String "%" (String h (String l E))))
      with (String.prefix (String "/" sub) (String "%" (String h (String l E)))
            || (String.prefix (String "/" sub) (String h (String l E))
                || (String.prefix (String "/" sub) (String l E)
                    || Js.includes (String "/" sub) E))).
    by rewrite Hq, (prefix_slash sub h _ Hh'), (prefix_slash sub l _ Hl'), IH.
Qed.

(** A text in front that has no [/] holds no occurrence. *)
Lemma includes_after_slashless (sub a b : string) :
  Url.allChars (λ x, negb (Ascii.eqb x "/")) a = true →
  Js.includes (String "/" sub) (a +:+ b) = Js.includes (String "/" sub) b.
Proof.
  induction a as [|x a IH]; [done |]. simpl Url.allChars.
  intros [Hx Ha]%andb_true_iff. apply negb_true_iff in Hx.
  rewrite append_cons.
  change (Js.includes (String "/" sub) (String x (a +:+ b)))
    with (String.prefix (String "/" sub) (String x (a +:+ b))
          || Js.includes (String "/" sub) (a +:+ b)).
  by rewrite (prefix_slash sub x _ Hx), (IH Ha).
Qed.

End Encoding.

(** ** The handlers of the exchange endpoint *)

(** Weakening a condition on every character to one it implies. *)
Ltac weaken_chars H :=
  generalize H; apply allChars_weaken; intros ?c;
  repeat match goal with
         | |- context [Ascii.eqb ?x ?k] => destruct (Ascii.eqb x k)
         end;
  done.

Section ApiFacts.

Lemma corsResponse_status (data : Api.Data) (status : Z) :
  Api.status (Api.corsResponse data status) = status.
Proof. reflexivity. Qed.

(** The query of the request the client sends for a view URL, as the
    endpoint reads it. *)
Lemma get_key_of_encoded_request (site key : string) :
  Url.allChars (λ x, negb (Ascii.eqb x "?")) site = true →
  Url.allChars (λ x, negb (Ascii.eqb x "#")) site = true →
  Url.allChars (λ x, negb (Ascii.eqb x "#") && negb (Ascii.eqb x "&")) key
  = true →
  Url.get "key" (site +:+ "/api/upload?key=" +:+ key)
  = Some (Url.formDecode key).
Proof.
  intros Hq Hh Hkey.
  assert (Url.allChars (λ x, negb (Ascii.eqb x "#")) key = true) as Hk1.
  { weaken_chars Hkey. }
  assert (Url.allChars (λ x, negb (Ascii.eqb x "&")) key = true) as Hk2.
  { weaken_chars Hkey. }
  unfold Url.get, Url.searchParams.
  rewrite beforeChar_without
    by (rewrite !allChars_append, Hh, Hk1; reflexivity).
  replace (site +:+ "/api/upload?key=" +:+ key)
    with ((site +:+ "/api/upload") +:+ String "?" ("key=" +:+ key))
    by (by rewrite append_assoc).
  rewrite afterChar_append by (rewrite allChars_append, Hq; reflexivity).
  rewrite (split_none "&" ("key=" +:+ key))
    by (apply includes_without_first; rewrite allChars_append, Hk2;
        reflexivity).
  change ("key=" +:+ key)
    with (String "k" (String "e" (String "y" (String "=" key)))).
  simpl.
  by change (Url.percentDecode (Url.plusToSpace key)) with (Url.formDecode key).
Qed.

(** The write URL [POST] signs for a file name. *)
Lemma presignedUrl_storageKey (origin query : string) (now : Z)
    (filename : string) :
  0 ≤ now →
  Route.presignedUrl origin query (Route.storageKey now filename)
  = origin +:+ "/uploads/"
      +:+ (pretty now +:+ "-" +:+ Route.encodePath filename)
      +:+ "?" +:+ query.
Proof.
  intros Hnow. unfold Route.presignedUrl, Route.storageKey, Route.objectName.
  rewrite !encodePath_app.
  rewrite (encodePath_plain (pretty now)).
  - change (Route.encodePath "uploads/") with "uploads/".
    change (Route.encodePath "-") with "-".
    by rewrite !append_assoc.
  - apply pretty_Z_allChars; [done |]. intros d.
    by rewrite digits_unreserved.
Qed.

(** The two exchanges meet: the client cuts the encoded object name out of
    the write URL, and the endpoint reads the key it is sent as the key
    [POST] stored the object under. *)
Lemma exchange_round_trip (origin query site : string) (now : Z)
    (filename : string) :
  0 ≤ now →
  Js.includes "/uploads/" filename = false →
  Url.allChars (λ x, negb (Ascii.eqb x "?")) origin = true →
  Js.includes "/uploads/" (origin +:+ "/uploads") = false →
  Url.allChars (λ x, negb (Ascii.eqb x "?") && negb (Ascii.eqb x "#")) site
  = true →
  let uploadURL :=
    Route.presignedUrl origin query (Route.storageKey now filename) in
  Exchange.requestedKey uploadURL
  = Route.encodePath (Route.storageKey now filename)
  ∧ Url.get "key" (site +:+ Exchange.viewRequest uploadURL)
    = Some (Route.storageKey now filename).
Proof.
  intros Hnow Hname Horigin Hover Hsite uploadURL.
  set (object := pretty now +:+ "-" +:+ Route.encodePath filename).
  assert (Route.encodePath (Route.storageKey now filename)
          = "uploads/" +:+ object) as Henc.
  { unfold Route.storageKey, Route.objectName. rewrite !encodePath_app.
    rewrite (encodePath_plain (pretty now)); [done |].
    apply pretty_Z_allChars; [done |]. intros d.
    by rewrite digits_unreserved. }
  assert (Url.allChars
            (λ c, Url.unreserved c || Ascii.eqb c "/" || Ascii.eqb c "%")
            ("uploads/" +:+ object) = true) as Hsafe.
  { rewrite <- Henc. apply encodePath_chars. }
  assert (∀ k : ascii,
            Url.unreserved k || Ascii.eqb k "/" || Ascii.eqb k "%" = false →
            Url.allChars (λ x, negb (Ascii.eqb x k)) ("uploads/" +:+ object)
            = true) as Hlacks.
  { intros k Hk. generalize Hsafe. apply allChars_weaken. intros c Hc.
    destruct (Ascii.eqb_spec c k) as [-> |]; [congruence | done]. }
  assert (Url.allChars (λ x, negb (Ascii.eqb x "/")) (pretty now +:+ "-")
          = true) as Hdigits.
  { rewrite allChars_append, pretty_Z_allChars; [done | done |].
    intros d. unfold pretty_N_char. by repeat case_match. }
  assert (Exchange.key uploadURL = Some object) as Hkey.
  { subst uploadURL. rewrite presignedUrl_storageKey by done.
    apply key_of_url; [| done |].
    - apply includes_without_first. rewrite !allChars_append, Horigin.
      pose proof (Hlacks "?"%char eq_refl) as Hq.
      rewrite allChars_append in Hq. apply andb_true_iff in Hq as [_ ->].
      reflexivity.
    - subst object.
      rewrite <- append_assoc, includes_after_slashless by done.
      by apply includes_encodePath. }
  unfold Exchange.viewRequest, Exchange.requestedKey.
  rewrite Hkey, Henc. simpl Js.template. split; [done |].
  rewrite get_key_of_encoded_request.
  - by rewrite <- Henc, formDecode_encodePath.
  - weaken_chars Hsite.
  - weaken_chars Hsite.
  - generalize Hsafe. apply allChars_weaken. intros c Hc.
    destruct (Ascii.eqb_spec c "#") as [-> |]; [by vm_compute in Hc |].
    destruct (Ascii.eqb_spec c "&") as [-> |]; [by vm_compute in Hc | done].
Qed.

End ApiFacts.

(** X6: [GET] answers 400 with [Key is required] exactly when the request
    names no key or an empty one, and then without consulting the signer; a
    request without a query is such a request. *)
Theorem GET_requires_key (getSignedUrl : Api.Signer) (url : string) :
  (Api.status (Api.GET getSignedUrl url) = 400 ↔
   Url.get "key" url = None ∨ Url.get "key" url = Some "")
  ∧ (Url.get "key" url = None ∨ Url.get "key" url = Some "" →
     ∀ other : Api.Signer,
       Api.GET other url
       = Api.corsResponse (Api.Failure "Key is required") 400)
  ∧ (Url.allChars (λ x, negb (Ascii.eqb x "?")) url = true →
     Api.status (Api.GET getSignedUrl url) = 400).
Proof.
  assert (Url.get "key" url = None ∨ Url.get "key" url = Some "" →
          ∀ other : Api.Signer,
            Api.GET other url
            = Api.corsResponse (Api.Failure "Key is required") 400) as Hmiss.
  { intros [E | E] other; unfold Api.GET; by rewrite E. }
  split_and!; [| done |].
  - split; [| by intros H; rewrite (Hmiss H)].
    unfold Api.GET. destruct (Url.get "key" url) as [key|]; [| by left].
    destruct (String.eqb_spec key "") as [-> | Hne]; [by right |].
    by destruct (getSignedUrl (Api.GetObject key)).
  - intros Hq. rewrite Hmiss; [done |]. left.
    unfold Url.get, Url.searchParams.
    assert (∀ s, Url.allChars (λ x, negb (Ascii.eqb x "?")) s = true →
                 Url.afterChar "?" (Url.beforeChar "#" s) = None) as Hnone.
    { clear. induction s as [|x s IH]; [done |]. simpl.
      intros [Hx Hs]%andb_true_iff. apply negb_true_iff in Hx.
      destruct (Ascii.eqb x "#"); [done |]. simpl. by rewrite Hx, IH. }
    by rewrite Hnone.
Qed.

(** X7: every response of [OPTIONS], [POST] and [GET], on every path, has
    the four CORS and content-type headers; its status is 200, 400 or 500;
    and it carries an [error] body exactly when the status is not 200. *)
Theorem responses_carry_cors_headers (getSignedUrl : Api.Signer) (now : Z)
    (json : option (option string * option string)) (url : string)
    (r : Api.Response) :
  r = Api.OPTIONS ∨ r = Api.POST getSignedUrl now json
  ∨ r = Api.GET getSignedUrl url →
  Api.headers r = Api.headers Api.OPTIONS
  ∧ ("Access-Control-Allow-Origin", "*") ∈ Api.headers r
  ∧ (Api.status r = 200 ∨ Api.status r = 400 ∨ Api.status r = 500)
  ∧ (Api.status r ≠ 200 ↔ ∃ message, Api.body r = Api.Failure message).
Proof.
  assert (∀ data status,
            (status = 200 ∨ status = 400 ∨ status = 500) →
            (status ≠ 200 ↔ ∃ message, data = Api.Failure message) →
            let r := Api.corsResponse data status in
            Api.headers r = Api.headers Api.OPTIONS
            ∧ ("Access-Control-Allow-Origin", "*") ∈ Api.headers r
            ∧ (Api.status r = 200 ∨ Api.status r = 400 ∨ Api.status r = 500)
            ∧ (Api.status r ≠ 200 ↔ ∃ message, Api.body r = Api.Failure message))
    as Hcors.
  { intros data status Hs Hb. simpl. split_and!; try done.
    apply elem_of_cons. by left. }
  assert (∀ m, (500 ≠ 200 ↔ ∃ message, Api.Failure m = Api.Failure message))
    as H500 by (intros m; split; [by exists m | done]).
  assert (∀ m, (400 ≠ 200 ↔ ∃ message, Api.Failure m = Api.Failure message))
    as H400 by (intros m; split; [by exists m | done]).
  intros [-> | [-> | ->]].
  - apply Hcors; [by left |]. split; [done | by intros [m ?]].
  - unfold Api.POST. destruct json as [[filename contentType]|];
      [destruct (getSignedUrl _) |]; apply Hcors; auto.
    split; [done | by intros [m ?]].
  - unfold Api.GET. destruct (Url.get "key" url) as [key|];
      [destruct (String.eqb key ""); [| destruct (getSignedUrl _)] |];
      apply Hcors; auto.
    split; [done | by intros [m ?]].
Qed.

Lemma responses_carry_cors_headers_witness :
  let r := Api.GET (Api.bucketSigner "https://b" "p" "g") "http://h/api/upload" in
  Api.headers r = Api.headers Api.OPTIONS
  ∧ ("Access-Control-Allow-Origin", "*") ∈ Api.headers r
  ∧ (Api.status r = 200 ∨ Api.status r = 400 ∨ Api.status r = 500)
  ∧ (Api.status r ≠ 200 ↔ ∃ message, Api.body r = Api.Failure message).
Proof.
  apply (responses_carry_cors_headers
           (Api.bucketSigner "https://b" "p" "g") 0 None "http://h/api/upload").
  right. by right.
Defined.

(** X8: the two exchanges meet.  For a file name of letters, digits and
    [- . _ ~], [POST] signs a write URL, the client derives its request from
    that URL, and [GET] on that request signs the view URL for exactly the
    key [POST] stored the object under. *)
Theorem view_url_is_signed_for_stored_key
    (origin putSignature getSignature site : string) (now : Z)
    (filename : string) (contentType : option string) :
  0 ≤ now →
  Url.allChars Url.unreserved filename = true →
  Url.allChars (λ x, negb (Ascii.eqb x "?")) origin = true →
  Js.includes "/uploads/" (origin +:+ "/uploads") = false →
  Url.allChars (λ x, negb (Ascii.eqb x "?") && negb (Ascii.eqb x "#")) site
  = true →
  let getSignedUrl := Api.bucketSigner origin putSignature getSignature in
  ∃ uploadURL,
    Api.POST getSignedUrl now (Some (Some filename, contentType))
    = Api.corsResponse (Api.UploadURL uploadURL) 200
    ∧ Api.GET getSignedUrl (site +:+ Exchange.viewRequest uploadURL)
      = Api.corsResponse
          (Api.ViewURL
             (Route.presignedUrl origin getSignature
                (Route.storageKey now filename))) 200.
Proof.
  intros Hnow Hname Horigin Hover Hsite getSignedUrl.
  exists (Route.presignedUrl origin putSignature (Route.storageKey now filename)).
  split; [reflexivity |].
  assert (Js.includes "/uploads/" filename = false) as Hplain.
  { apply includes_without_first. generalize Hname. apply allChars_weaken.
    intros c Hc. destruct (unreserved_plain c Hc) as (-> & _). done. }
  destruct (exchange_round_trip origin putSignature site now filename
              Hnow Hplain Horigin Hover Hsite) as [_ Hget].
  unfold Api.GET. rewrite Hget.
  by change (Route.storageKey now filename)
    with (String "u" ("ploads/" +:+ Route.objectName now filename)).
Qed.

Lemma view_url_is_signed_for_stored_key_witness :
  let getSignedUrl :=
    Api.bucketSigner "https://bucket.s3.amazonaws.com" "X-Amz-Signature=ab"
      "X-Amz-Signature=ef" in
  ∃ uploadURL,
    Api.POST getSignedUrl 1700000000000 (Some (Some "cat.png", Some "image/png"))
    = Api.corsResponse (Api.UploadURL uploadURL) 200
    ∧ Api.GET getSignedUrl
        ("http://localhost:3000" +:+ Exchange.viewRequest uploadURL)
      = Api.corsResponse
          (Api.ViewURL
             (Route.presignedUrl "https://bucket.s3.amazonaws.com"
                "X-Amz-Signature=ef"
                (Route.storageKey 1700000000000 "cat.png"))) 200.
Proof.
  apply (view_url_is_signed_for_stored_key
           "https://bucket.s3.amazonaws.com" "X-Amz-Signature=ab"
           "X-Amz-Signature=ef" "http://localhost:3000" 1700000000000
           "cat.png" (Some "image/png")); [lia | reflexivity ..].
Defined.

(** ** The key sent for the view URL against the key the backend stored *)

(** A space in the file name travels as [%20], in the write URL and in the
    request for the view URL, and the endpoint reads it back as the space. *)
Example key_of_spaced_name :
  let uploadURL :=
    Route.presignedUrl "https://bucket.s3.amazonaws.com" "X-Amz-Signature=ab"
      (Route.storageKey 1700000000000 "my file.png") in
  uploadURL
  = "https://bucket.s3.amazonaws.com/uploads/1700000000000-my%20file.png?X-Amz-Signature=ab"
  ∧ Exchange.viewRequest uploadURL
    = "/api/upload?key=uploads/1700000000000-my%20file.png"
  ∧ Url.get "key" ("http://localhost:3000" +:+ Exchange.viewRequest uploadURL)
    = Some "uploads/1700000000000-my file.png".
Proof. vm_compute. by split_and!. Qed.

(** C9, as stated, fails: a file name that itself contains the delimiter
    [/uploads/] makes the client ask for a key that is cut short, and the
    view URL is signed for that key, not for the key the object was stored
    under. *)
Lemma C9_key_cut_at_inner_delimiter :
  let getSignedUrl :=
    Api.bucketSigner "https://bucket.s3.amazonaws.com" "X-Amz-Signature=ab"
      "X-Amz-Signature=ef" in
  let stored := Route.storageKey 1700000000000 "a/uploads/b.png" in
  let uploadURL :=
    Route.presignedUrl "https://bucket.s3.amazonaws.com" "X-Amz-Signature=ab"
      stored in
  let request := "http://localhost:3000" +:+ Exchange.viewRequest uploadURL in
  Api.POST getSignedUrl 1700000000000
    (Some (Some "a/uploads/b.png", Some "image/png"))
  = Api.corsResponse (Api.UploadURL uploadURL) 200
  ∧ stored = "uploads/1700000000000-a/uploads/b.png"
  ∧ Exchange.requestedKey uploadURL = "uploads/1700000000000-a"
  ∧ Url.get "key" request = Some "uploads/1700000000000-a"
  ∧ Url.get "key" request ≠ Some stored
  ∧ Api.GET getSignedUrl request
    = Api.corsResponse
        (Api.ViewURL
           (Route.presignedUrl "https://bucket.s3.amazonaws.com"
              "X-Amz-Signature=ef" "uploads/1700000000000-a")) 200.
Proof. vm_compute. split_and!; [done | done | done | done | discriminate | done]. Qed.

(** C9 (amended): for every file name that does not contain the delimiter
    [/uploads/], the key the client sends in the view-URL request is cut out
    of the path of the write URL and is the storage key as that path
    carries it; the endpoint reads it as the storage key of [POST], and the
    view URL is signed for the stored object.  The bucket origin is a scheme
    and a host: it holds neither [?] nor the delimiter. *)
Theorem C9_requested_key_is_storage_key
    (origin putSignature getSignature site : string) (now : Z)
    (filename : string) (contentType : option string) :
  0 ≤ now →
  Js.includes "/uploads/" filename = false →
  Url.allChars (λ x, negb (Ascii.eqb x "?")) origin = true →
  Js.includes "/uploads/" (origin +:+ "/uploads") = false →
  Url.allChars (λ x, negb (Ascii.eqb x "?") && negb (Ascii.eqb x "#")) site
  = true →
  let getSignedUrl := Api.bucketSigner origin putSignature getSignature in
  let stored := Route.storageKey now filename in
  let uploadURL := Route.presignedUrl origin putSignature stored in
  let request := site +:+ Exchange.viewRequest uploadURL in
  Api.POST getSignedUrl now (Some (Some filename, contentType))
  = Api.corsResponse (Api.UploadURL uploadURL) 200
  ∧ Exchange.requestedKey uploadURL = Route.encodePath stored
  ∧ Url.get "key" request = Some stored
  ∧ Api.GET getSignedUrl request
    = Api.corsResponse
        (Api.ViewURL (Route.presignedUrl origin getSignature stored)) 200.
Proof.
  intros Hnow Hname Horigin Hover Hsite getSignedUrl stored uploadURL request.
  destruct (exchange_round_trip origin putSignature site now filename
              Hnow Hname Horigin Hover Hsite) as [Hsent Hget].
  split_and!; [reflexivity | exact Hsent | exact Hget |].
  unfold Api.GET. subst request uploadURL stored. rewrite Hget.
  by change (Route.storageKey now filename)
    with (String "u" ("ploads/" +:+ Route.objectName now filename)).
Qed.

Lemma C9_requested_key_is_storage_key_witness :
  let getSignedUrl :=
    Api.bucketSigner "https://bucket.s3.amazonaws.com" "X-Amz-Signature=ab"
      "X-Amz-Signature=ef" in
  let stored := Route.storageKey 1700000000000 "my file?.png" in
  let uploadURL :=
    Route.presignedUrl "https://bucket.s3.amazonaws.com" "X-Amz-Signature=ab"
      stored in
  let request := "http://localhost:3000" +:+ Exchange.viewRequest uploadURL in
  Api.POST getSignedUrl 1700000000000
    (Some (Some "my file?.png", Some "image/png"))
  = Api.corsResponse (Api.UploadURL uploadURL) 200
  ∧ Exchange.requestedKey uploadURL = Route.encodePath stored
  ∧ Url.get "key" request = Some stored
  ∧ Api.GET getSignedUrl request
    = Api.corsResponse
        (Api.ViewURL
           (Route.presignedUrl "https://bucket.s3.amazonaws.com"
              "X-Amz-Signature=ef" stored)) 200.
Proof.
  apply (C9_requested_key_is_storage_key
           "https://bucket.s3.amazonaws.com" "X-Amz-Signature=ab"
           "X-Amz-Signature=ef" "http://localhost:3000" 1700000000000
           "my file?.png" (Some "image/png")); [lia | reflexivity ..].
Defined.

(** ** The icon of a file *)

Section Icons.

Import Dropzone.

Lemma prefix_nil_l (s : string) : String.prefix "" s = true.
Proof. by destruct s. Qed.

Lemma lowerChar_dot (c : ascii) : lowerChar c = "."%char ↔ c = "."%char.
Proof.
  destruct c as [[] [] [] [] [] [] [] []]; vm_compute; split; congruence.
Qed.

Lemma split_dot_cons (c : ascii) (s : string) :
  Js.split "." (String c s)
  = if Ascii.eqb c "." then "" :: Js.split "." s
    else match Js.split "." s with
         | piece :: rest => String c piece :: rest
         | [] => [String c ""]
         end.
Proof.
  unfold Js.split. rewrite split_go_cons.
  change (String.length "." - 1)%nat with 0%nat.
  change (String.prefix "." (String c s))
    with (if Ascii.ascii_dec "." c then String.prefix "" s else false).
  destruct (Ascii.ascii_dec "." c) as [<- | Hne].
  - by rewrite prefix_nil_l.
  - destruct (Ascii.eqb_spec c ".") as [-> | _]; [by destruct Hne | done].
Qed.

Lemma split_dot_nonempty (s : string) : Js.split "." s ≠ [].
Proof.
  destruct s as [|c s]; [done |]. rewrite split_dot_cons.
  destruct (Ascii.eqb c "."); [done |]. by destruct (Js.split "." s).
Qed.

(** Lower-casing neither makes nor removes a dot, so it goes through the
    split. *)
Lemma split_dot_toLowerCase (s : string) :
  Js.split "." (toLowerCase s) = map toLowerCase (Js.split "." s).
Proof.
  induction s as [|c s IH]; [done |].
  cbn [toLowerCase]. rewrite !split_dot_cons, IH.
  destruct (Ascii.eqb_spec c ".") as [-> | Hne].
  - change (lowerChar ".") with "."%char. reflexivity.
  - destruct (Ascii.eqb_spec (lowerChar c) ".") as [Hl | _].
    + destruct Hne. by apply lowerChar_dot.
    + pose proof (split_dot_nonempty s). by destruct (Js.split "." s).
Qed.

Lemma pop_map_toLowerCase (pieces : list string) :
  pieces ≠ [] → pop (map toLowerCase pieces) = toLowerCase (pop pieces).
Proof.
  unfold pop. induction pieces as [|p [|q rest] IH]; [done | done |].
  intros _. change (List.last (map toLowerCase (p :: q :: rest)) "")
    with (List.last (map toLowerCase (q :: rest)) "").
  change (List.last (p :: q :: rest) "") with (List.last (q :: rest) "").
  by apply IH.
Qed.

(** A name that ends with [.ext], the extension holding no dot, splits at
    its dots into at least two pieces, the last being [ext]. *)
Lemma split_dot_endsWith (ext t : string) :
  Js.includes "." ext = false →
  endsWith ("." +:+ ext) t = true →
  ∃ p pieces, Js.split "." t = (p :: pieces) ++ [ext].
Proof.
  intros Hext. induction t as [|c t IH]; [done |].
  cbn [endsWith]. intros [Heq | Htail]%orb_true_iff.
  - apply String.eqb_eq in Heq. rewrite Heq.
    change ("." +:+ ext) with (String "." ext).
    rewrite split_dot_cons. simpl. rewrite (split_none "." ext Hext).
    by exists "", [].
  - destruct (IH Htail) as (p & pieces & Hsplit).
    rewrite split_dot_cons, Hsplit. destruct (Ascii.eqb c ".").
    + by exists "", (p :: pieces).
    + by exists (String c p), pieces.
Qed.

Lemma extension_of_endsWith (ext fileName : string) :
  Js.includes "." ext = false →
  endsWith ("." +:+ ext) (toLowerCase fileName) = true →
  toLowerCase (pop (Js.split "." fileName)) = ext
  ∧ String.eqb fileName "" = false.
Proof.
  intros Hext Hends. split.
  - rewrite <- pop_map_toLowerCase by apply split_dot_nonempty.
    rewrite <- split_dot_toLowerCase.
    destruct (split_dot_endsWith ext _ Hext Hends) as (p & pieces & ->).
    unfold pop. by rewrite last_last.
  - by destruct fileName.
Qed.

Lemma imageIcon_not_generic (f : FileWithPreview) : imageIcon f ≠ FileIcon.
Proof.
  unfold imageIcon. destruct (preview f) as [src|]; [| done].
  by destruct (String.eqb src "").
Qed.

End Icons.

(** X9: a file [onDrop] has tracked is drawn with its thumbnail exactly when
    its declared type starts with [image/]: it then carries the object URL
    made for it, and otherwise it carries none, so that an image recognised
    only by its extension is drawn with the placeholder icon. *)
Theorem tracked_file_thumbnail (a : Dropzone.Accepted)
    (f : Dropzone.FileWithPreview) :
  Dropzone.track a = inr f →
  Dropzone.objectURL a ≠ "" →
  (Js.startsWith "image/" (Dropzone.type (Dropzone.dropped a)) = true →
   Dropzone.getFileIcon (Some f) = Dropzone.Thumbnail (Dropzone.objectURL a))
  ∧ (Js.startsWith "image/" (Dropzone.type (Dropzone.dropped a)) = false →
     ∀ src, Dropzone.getFileIcon (Some f) ≠ Dropzone.Thumbnail src).
Proof.
  unfold Dropzone.track.
  destruct (bool_decide (Dropzone.size (Dropzone.dropped a) > _)); [done |].
  intros [= <-] Hurl. unfold Dropzone.getFileIcon, Dropzone.imageIcon. simpl.
  destruct (Js.startsWith "image/" (Dropzone.type (Dropzone.dropped a))).
  - split; [| done]. intros _.
    by destruct (String.eqb_spec (Dropzone.objectURL a) "").
  - split; [done |]. intros _ src. by repeat case_match.
Qed.

Lemma tracked_file_thumbnail_witness :
  let a :=
    {| Dropzone.dropped :=
         {| Dropzone.name := "photo.jpg"; Dropzone.type := "";
            Dropzone.size := 1024 |};
       Dropzone.now := 1700000000000; Dropzone.objectURL := "blob:1" |} in
  ∃ f, Dropzone.track a = inr f
  ∧ (Js.startsWith "image/" (Dropzone.type (Dropzone.dropped a)) = true →
     Dropzone.getFileIcon (Some f) = Dropzone.Thumbnail (Dropzone.objectURL a))
  ∧ (Js.startsWith "image/" (Dropzone.type (Dropzone.dropped a)) = false →
     ∀ src, Dropzone.getFileIcon (Some f) ≠ Dropzone.Thumbnail src).
Proof.
  intros a. eexists. split; [reflexivity |].
  apply (tracked_file_thumbnail a); [reflexivity | discriminate].
Defined.

(** X10: every file that passes the accept check of the dropzone is drawn
    as an image or a film, never with the generic file icon: a declared
    type on the allow-list starts with [image/] or [video/], and an
    extension on the allow-list is one of those [getFileIcon] looks for. *)
Theorem accepted_file_has_media_icon (f : Dropzone.FileWithPreview) :
  Dropzone.fileAccepted (Dropzone.originalFile f) = true →
  Dropzone.getFileIcon (Some f) ≠ Dropzone.FileIcon.
Proof.
  intros Hacc. unfold Dropzone.fileAccepted, Dropzone.matchesAccept in Hacc.
  assert (∀ ext,
            Js.includes "." ext = false →
            existsb (String.eqb ext) ["jpg"; "jpeg"; "png"; "gif"; "webp"]
            || existsb (String.eqb ext) ["mp4"; "mov"; "avi"; "webm"] = true →
            Dropzone.endsWith ("." +:+ ext)
              (Dropzone.toLowerCase (Dropzone.name (Dropzone.originalFile f)))
            = true →
            Dropzone.getFileIcon (Some f) ≠ Dropzone.FileIcon) as Hext.
  { intros ext Hdot Hlist Hends.
    destruct (extension_of_endsWith ext _ Hdot Hends) as [Hpop Hname].
    unfold Dropzone.getFileIcon.
    destruct (Js.startsWith "image/" _); [apply imageIcon_not_generic |].
    destruct (Js.startsWith "video/" _); [done |].
    rewrite Hname, Hpop. simpl negb. cbv iota.
    destruct (existsb (String.eqb ext) ["jpg"; "jpeg"; "png"; "gif"; "webp"])
      eqn:Himage; [apply imageIcon_not_generic |].
    rewrite orb_false_l in Hlist. by rewrite Hlist. }
  assert (∀ mime,
            Js.startsWith "image/" mime || Js.startsWith "video/" mime = true →
            String.eqb (Dropzone.type (Dropzone.originalFile f)) mime = true →
            Dropzone.getFileIcon (Some f) ≠ Dropzone.FileIcon) as Hmime.
  { intros mime Hstart Heq. apply String.eqb_eq in Heq.
    unfold Dropzone.getFileIcon. rewrite Heq.
    destruct (Js.startsWith "image/" mime); [apply imageIcon_not_generic |].
    simpl in Hstart. by rewrite Hstart. }
  apply existsb_exists in Hacc as ([mime exts] & Hin & Hcond).
  simpl in Hcond. apply orb_true_iff in Hcond as [Hm | He].
  - simpl in Hin.
    repeat destruct Hin as [[= <- <-] | Hin]; try done;
      match type of Hm with
      | String.eqb _ ?m = true => by apply (Hmime m eq_refl)
      end.
  - apply existsb_exists in He as (ext & Hext_in & Hends).
    simpl in Hin.
    repeat destruct Hin as [[= <- <-] | Hin]; try done;
      simpl in Hext_in;
      repeat destruct Hext_in as [<- | Hext_in]; try done;
      match type of Hends with
      | Dropzone.endsWith (String "." ?e) _ = true =>
          by apply (Hext e eq_refl eq_refl)
      end.
Qed.

Lemma accepted_file_has_media_icon_witness :
  Dropzone.getFileIcon
    (Some {| Dropzone.id := "Clip.MOV-1";
             Dropzone.originalFile :=
               {| Dropzone.name := "Clip.MOV"; Dropzone.type := "";
                  Dropzone.size := 10 |};
             Dropzone.preview := None; Dropzone.uploadProgress := 0;
             Dropzone.status := Dropzone.pending;
             Dropzone.errorMessage := None; Dropzone.xhr := None |})
  ≠ Dropzone.FileIcon
  ∧ Dropzone.fileAccepted
      {| Dropzone.name := "Clip.MOV"; Dropzone.type := "";
         Dropzone.size := 10 |} = true.
Proof.
  split; [| reflexivity]. apply accepted_file_has_media_icon. reflexivity.
Defined.

(** ** What every run of [handleUpload] keeps *)

Section RunInvariants.

Import Dropzone.

(** The shape of every continuation: some writes to the files, the stage,
    the collected URLs and the notices, then perhaps the code after
    [Promise.all]. *)
Lemma deliver_shape (s : State) (i : nat) (t : Task) (e : Event) :
  ∃ x, (deliver s i t e = x ∨ deliver s i t e = afterAll x)
       ∧ finished x = finished s ∧ isUploading x = isUploading s
       ∧ open x = open s ∧ results x = results s
       ∧ (notices x = notices s
          ∨ notices x
            = notices s
                ++ ["Failed to upload " +:+ name (originalFile (taskFile t))]).
Proof.
  unfold deliver, resolved, rejected.
  destruct e, (stage t);
    try (exists s; split_and!; by auto);
    try (eexists; split; [by right |]; split_and!; by auto);
    try (eexists; split; [by left |]; split_and!; by auto).
  - destruct lengthComputable;
      [eexists; split; [by left |] | exists s]; split_and!; by auto.
  - destruct (bool_decide (httpStatus = 200));
      eexists; (split; [by (left + right) |]); split_and!; by auto.
Qed.

(** Replacing the stage of one task changes how many tasks pass a test by
    what that task gains or loses. *)
Lemma count_alter (q : Task → bool) (ts : list Task) (i : nat) (t : Task)
    (st : Stage) (b b' : bool) :
  ts !! i = Some t → q t = b →
  q {| taskFile := taskFile t; stage := st |} = b' →
  (length (List.filter q
             (alter (λ t0, {| taskFile := taskFile t0; stage := st |}) i ts))
   + (if b then 1 else 0)
   = length (List.filter q ts) + (if b' then 1 else 0))%nat.
Proof.
  intros Hi Hb Hb'. revert i Hi.
  induction ts as [|t0 ts IH]; intros [|i] Hi; try done.
  - injection Hi as ->.
    change (alter ?f 0%nat (t :: ts)) with (f t :: ts).
    cbn [List.filter]. rewrite Hb, Hb'. destruct b, b'; cbn [length]; lia.
  - simpl in Hi. specialize (IH i Hi).
    change (alter ?f (S i) (t0 :: ts)) with (t0 :: alter f i ts).
    cbn [List.filter]. destruct (q t0); cbn [length]; lia.
Qed.

(** An event delivered to task [j] leaves the other tasks as they are. *)
Lemma deliver_tasks_other (s : State) (i j : nat) (tj : Task) (e : Event) :
  i ≠ j → tasks (deliver s j tj e) !! i = tasks s !! i.
Proof.
  intros Hne.
  assert (∀ x, tasks (afterAll x) = tasks x) as Hafter
    by (intros x; by destruct (afterAll_fields x) as (_ & ? & _)).
  unfold deliver, resolved, rejected.
  destruct e, (stage tj); try done;
    rewrite ?Hafter; simpl; rewrite ?list_lookup_alter_ne by done; try done.
  - by destruct lengthComputable.
  - destruct (bool_decide (httpStatus = 200));
      rewrite ?Hafter; simpl; by rewrite ?list_lookup_alter_ne by done.
Qed.

Lemma settled_step (s : State) (e : Event) (i : nat) (t : Task) :
  tasks s !! i = Some t → settled t = true →
  tasks (step s e) !! i = Some t.
Proof.
  intros Hi Hset.
  assert (∀ j, tasks match tasks s !! j with
                     | Some tj => deliver s j tj e
                     | None => s
                     end !! i = Some t) as Htask.
  { intros j. destruct (decide (i = j)) as [<- | Hne].
    - rewrite Hi. by rewrite deliver_settled.
    - destruct (tasks s !! j) as [tj|] eqn:Hj; [| done].
      by rewrite (deliver_tasks_other s i j tj e Hne). }
  destruct e; try apply Htask.
  - change (step s (RemoveFile fileId)) with (removeFile fileId s).
    destruct (removeFile_fields fileId s)
      as (_ & _ & _ & _ & _ & _ & Ht).
    destruct Ht as [-> | (h & th & u & Hh & Hs & ->)]; [done |].
    destruct (decide (i = h)) as [<- | Hne].
    + rewrite Hi in Hh. injection Hh as <-.
      unfold settled in Hset. by rewrite Hs in Hset.
    + by rewrite lookup_setStage_ne.
  - simpl. by destruct (negb (open s) && _).
Qed.

End RunInvariants.

Section Tally.

Import Dropzone.

Lemma afterAll_notices (x : State) : notices (afterAll x) = notices x.
Proof.
  unfold afterAll. destruct (finished x); [done |].
  destruct (forallb settled (tasks x)); [| done].
  by destruct (bool_decide (0 < length (uploadedUrls x))%nat).
Qed.

Lemma tally_fields (s s' : State) :
  tally s → tasks s' = tasks s → notices s' = notices s →
  uploadedUrls s' = uploadedUrls s → tally s'.
Proof. unfold tally. by intros H -> -> ->. Qed.

Lemma tally_afterAll (x : State) : tally x → tally (afterAll x).
Proof.
  intros H. destruct (afterAll_fields x) as (_ & ? & ?).
  apply (tally_fields x); [done | done | apply afterAll_notices | done].
Qed.

(** One upload leaves a stage in which it was not settled. *)
Lemma tally_update (s s' : State) (i : nat) (t : Task) (st' : Stage) :
  tally s → tasks s !! i = Some t → settled t = false →
  tasks s'
  = alter (λ t0, {| taskFile := taskFile t0; stage := st' |}) i (tasks s) →
  (settled {| taskFile := taskFile t; stage := st' |} = false
   ∧ notices s' = notices s ∧ uploadedUrls s' = uploadedUrls s)
  ∨ (st' = Rejected ∧ uploadedUrls s' = uploadedUrls s
     ∧ notices s'
       = notices s
           ++ ["Failed to upload " +:+ name (originalFile (taskFile t))])
  ∨ (∃ u, st' = Resolved u ∧ notices s' = notices s
          ∧ uploadedUrls s' = uploadedUrls s ++ [u]) →
  tally s'.
Proof.
  intros (Hn & Hu & Hwho) Hi Hset Ht' Hcase.
  assert (isRejected t = false ∧ isResolved t = false) as [Hrej0 Hres0].
  { unfold settled in Hset. unfold isRejected, isResolved.
    by destruct (stage t). }
  assert (∀ notice, notice ∈ notices s →
            ∃ j tj, tasks s' !! j = Some tj ∧ stage tj = Rejected
                    ∧ notice = "Failed to upload "
                                 +:+ name (originalFile (taskFile tj))) as Hold.
  { intros notice (j & tj & Hj & Hst & ->)%Hwho. exists j, tj.
    split_and!; [| done | done]. rewrite Ht', list_lookup_alter_ne; [done |].
    intros <-. rewrite Hi in Hj. injection Hj as <-.
    unfold isRejected in Hrej0. by rewrite Hst in Hrej0. }
  unfold tally. rewrite Ht' in Hold |- *.
  destruct Hcase as [(Hst' & -> & ->) | [(-> & -> & ->) | (u & -> & -> & ->)]].
  - assert (isRejected {| taskFile := taskFile t; stage := st' |} = false
            ∧ isResolved {| taskFile := taskFile t; stage := st' |} = false)
      as [Hrej1 Hres1].
    { unfold settled in Hst'. unfold isRejected, isResolved. simpl in *.
      by destruct st'. }
    pose proof (count_alter isRejected (tasks s) i t st' _ _ Hi Hrej0 Hrej1)
      as Hc1.
    pose proof (count_alter isResolved (tasks s) i t st' _ _ Hi Hres0 Hres1)
      as Hc2.
    cbv iota in Hc1, Hc2.
    split_and!; [lia | lia | done].
  - pose proof (count_alter isRejected (tasks s) i t Rejected false true
                  Hi Hrej0 eq_refl) as Hc1.
    pose proof (count_alter isResolved (tasks s) i t Rejected false false
                  Hi Hres0 eq_refl) as Hc2.
    cbv iota in Hc1, Hc2. rewrite length_app. simpl length.
    split_and!; [lia | lia |].
    intros notice [Hin | ->%list_elem_of_singleton]%elem_of_app;
      [by apply Hold |].
    exists i, {| taskFile := taskFile t; stage := Rejected |}.
    by rewrite list_lookup_alter, decide_True, Hi.
  - pose proof (count_alter isRejected (tasks s) i t (Resolved u) false false
                  Hi Hrej0 eq_refl) as Hc1.
    pose proof (count_alter isResolved (tasks s) i t (Resolved u) false true
                  Hi Hres0 eq_refl) as Hc2.
    cbv iota in Hc1, Hc2. rewrite length_app. simpl length. split_and!; [lia | lia | done].
Qed.

Lemma tally_deliver (s : State) (i : nat) (t : Task) (e : Event) :
  tally s → tasks s !! i = Some t → tally (deliver s i t e).
Proof.
  intros Hta Hi. unfold deliver, resolved, rejected.
  destruct e, (stage t) eqn:Hst; try done;
    try apply tally_afterAll;
    try (eapply (tally_update s _ i t); [done | done | | done |];
         [unfold settled; by rewrite Hst | by eauto 6]).
  - destruct lengthComputable; [| done]. by apply (tally_fields s).
  - destruct (bool_decide (httpStatus = 200)); try apply tally_afterAll;
      (eapply (tally_update s _ i t); [done | done | | done |];
       [unfold settled; by rewrite Hst | by eauto 6]).
Qed.

Lemma tally_step (s : State) (e : Event) : tally s → tally (step s e).
Proof.
  intros Hta.
  assert (∀ i, tally match tasks s !! i with
                     | Some t => deliver s i t e
                     | None => s
                     end) as Htask.
  { intros i. destruct (tasks s !! i) eqn:Hi; [| done].
    by apply tally_deliver. }
  destruct e; try apply Htask.
  - change (step s (RemoveFile fileId)) with (removeFile fileId s).
    destruct (removeFile_fields fileId s)
      as (_ & _ & _ & Hn & Hu & _ & Ht).
    destruct Ht as [Ht | (h & th & u & Hh & Hs & Ht)].
    + by apply (tally_fields s).
    + eapply (tally_update s _ h th Aborted); [done | done | | exact Ht |].
      * unfold settled. by rewrite Hs.
      * left. by split_and!.
  - simpl. destruct (negb (open s) && _); [| done].
    by apply (tally_fields s).
Qed.

Lemma tally_handleUpload (prev : list FileWithPreview) :
  tally (handleUpload prev).
Proof.
  unfold handleUpload. destruct (bool_decide (length prev = 0)%nat).
  - unfold tally; simpl. split_and!; [done | done |].
    by intros notice ?%elem_of_nil.
  - apply tally_afterAll. unfold tally; simpl.
    set (pendingFiles := List.filter _ prev).
    split_and!; [| | by intros notice ?%elem_of_nil];
      induction pendingFiles as [|f fs IH]; done.
Qed.

Lemma filter_sublist {A : Type} (p : A → bool) (l : list A) :
  List.filter p l `sublist_of` l.
Proof.
  induction l as [|x l IH]; [constructor |]. simpl.
  destruct (p x); by constructor.
Qed.

Lemma map_identity_updateFile (fileId : string)
    (change : FileWithPreview → FileWithPreview)
    (prev : list FileWithPreview) :
  (∀ g, identity (change g) = identity g) →
  map identity (updateFile fileId change prev) = map identity prev.
Proof.
  intros Hid. unfold updateFile. rewrite map_map. apply map_ext.
  intros g. by destruct (String.eqb (id g) fileId).
Qed.

Lemma deliver_identity (s : State) (i : nat) (t : Task) (e : Event) :
  map identity (files (deliver s i t e)) = map identity (files s).
Proof.
  assert (∀ x, files (afterAll x) = files x) as Hafter
    by (intros x; by destruct (afterAll_fields x) as (? & _)).
  unfold deliver, resolved, rejected.
  destruct e, (stage t); try done;
    rewrite ?Hafter; simpl; try (by apply map_identity_updateFile).
  - destruct lengthComputable; [| done]. by apply map_identity_updateFile.
  - destruct (bool_decide (httpStatus = 200)); [done |].
    rewrite Hafter. by apply map_identity_updateFile.
Qed.

Lemma step_identity (s : State) (e : Event) :
  map identity (files (step s e)) `sublist_of` map identity (files s).
Proof.
  assert (∀ i, map identity
                 (files match tasks s !! i with
                        | Some t => deliver s i t e
                        | None => s
                        end) `sublist_of` map identity (files s)) as Htask.
  { intros i. destruct (tasks s !! i); [| done]. by rewrite deliver_identity. }
  destruct e; try apply Htask.
  - change (step s (RemoveFile fileId)) with (removeFile fileId s).
    destruct (removeFile_fields fileId s) as (_ & _ & _ & _ & _ & -> & _).
    rewrite !map_fmap. apply fmap_sublist, filter_sublist.
  - simpl. destruct (negb (open s) && _); [| done]. apply sublist_nil_l.
Qed.

End Tally.

(** X12: in every run, whatever the user removes meanwhile, the notices
    answer to the rejected uploads and the collected URLs to the resolved
    ones: as many notices as rejected uploads, each reading
    [Failed to upload <name>] for the file of one of them, and as many
    collected URLs as resolved uploads. *)
Theorem notices_answer_to_rejected_uploads
    (prev : list Dropzone.FileWithPreview) (events : list Dropzone.Event) :
  let s := Dropzone.run (Dropzone.handleUpload prev) events in
  length (Dropzone.notices s)
  = length (List.filter isRejected (Dropzone.tasks s))
  ∧ length (Dropzone.uploadedUrls s)
    = length (List.filter isResolved (Dropzone.tasks s))
  ∧ ∀ notice, notice ∈ Dropzone.notices s →
      ∃ i t, Dropzone.tasks s !! i = Some t
             ∧ Dropzone.stage t = Dropzone.Rejected
             ∧ notice
               = "Failed to upload "
                   +:+ Dropzone.name (Dropzone.originalFile (Dropzone.taskFile t)).
Proof.
  intros s. subst s. generalize (tally_handleUpload prev).
  generalize (Dropzone.handleUpload prev).
  induction events as [|e events IH]; intros s0 Hta; [exact Hta |].
  rewrite run_cons. apply IH. by apply tally_step.
Qed.

(** X13: no event of a run adds a file to the batch, reorders it, or
    changes what a file is: the identifiers, the underlying files and the
    preview handles after any events are those before, less the files
    removed. *)
Theorem run_only_removes_files (s : Dropzone.State)
    (events : list Dropzone.Event) :
  map identity (Dropzone.files (Dropzone.run s events))
    `sublist_of` map identity (Dropzone.files s).
Proof.
  revert s. induction events as [|e events IH]; intros s; [done |].
  rewrite run_cons. etrans; [apply IH | apply step_identity].
Qed.

(** ** What the page shows after a run *)

Section PageFacts.

Import Dropzone.

Lemma afterAll_results (x : State) :
  ∃ rs, results (afterAll x) = results x ++ rs.
Proof.
  unfold afterAll. destruct (finished x); [exists []; by rewrite app_nil_r |].
  destruct (forallb settled (tasks x)); [| exists []; by rewrite app_nil_r].
  destruct (bool_decide (0 < length (uploadedUrls x))%nat); simpl;
    [by eexists | exists []; by rewrite app_nil_r].
Qed.

(** A step only adds to the two logs, and adds nothing once the run has
    reported. *)
Lemma step_log (s : State) (e : Event) :
  reporting s →
  ∃ ns rs, notices (step s e) = notices s ++ ns
           ∧ results (step s e) = results s ++ rs
           ∧ (results s ≠ [] → ns = [] ∧ rs = []).
Proof.
  intros Hrep.
  assert (∀ s', notices s' = notices s → results s' = results s →
                ∃ ns rs, notices s' = notices s ++ ns
                         ∧ results s' = results s ++ rs
                         ∧ (results s ≠ [] → ns = [] ∧ rs = [])) as Hquiet.
  { intros s' -> ->. exists [], []. by rewrite !app_nil_r. }
  assert (∀ i, let s' := match tasks s !! i with
                         | Some t => deliver s i t e
                         | None => s
                         end in
               ∃ ns rs, notices s' = notices s ++ ns
                        ∧ results s' = results s ++ rs
                        ∧ (results s ≠ [] → ns = [] ∧ rs = [])) as Htask.
  { intros i. cbv zeta. destruct (tasks s !! i) as [t|] eqn:Hi;
      [| by apply Hquiet].
    destruct (decide (results s = [])) as [Hres | Hres].
    - destruct (deliver_shape s i t e)
        as (x & Hx & _ & _ & _ & Hr & Hn).
      assert (∃ ns, notices x = notices s ++ ns) as [ns Hns].
      { destruct Hn as [-> | ->]; [exists []; by rewrite app_nil_r | by eexists]. }
      destruct Hx as [-> | ->].
      + exists ns, []. by rewrite Hr, Hns, app_nil_r.
      + destruct (afterAll_results x) as [rs Hrs].
        exists ns, rs. by rewrite afterAll_notices, Hrs, Hr, Hns.
    - destruct Hrep as [Hset [(Hnil & _) | (Hfin & _)]]; [congruence |].
      rewrite deliver_settled; [by apply Hquiet |].
      by apply (forallb_settled_lookup (tasks s) i t (Hset Hfin)). }
  destruct e; try apply Htask.
  - change (step s (RemoveFile fileId)) with (removeFile fileId s).
    destruct (removeFile_fields fileId s) as (_ & _ & Hr & Hn & _).
    by apply Hquiet.
  - simpl. destruct (negb (open s) && _); by apply Hquiet.
Qed.

Lemma replay_app (p : Page) (cs cs' : list Call) :
  replay p (cs ++ cs') = replay (replay p cs) cs'.
Proof. apply foldl_app. Qed.

Lemma last_app_default {A : Type} (l l' : list A) (d : A) :
  List.last (l ++ l') d = List.last l' (List.last l d).
Proof.
  induction l as [|a l IH]; [done |].
  destruct l as [|b l].
  - clear IH. simpl. destruct l' as [|c l']; [done |]. revert c.
    induction l' as [|c' l' IHl]; intros c; [done |]. apply IHl.
  - exact IH.
Qed.

Lemma replay_failed (p : Page) (ns : list string) :
  uploadedFileUrls (replay p (map Failed ns)) = uploadedFileUrls p
  ∧ pageError (replay p (map Failed ns))
    = List.last (map Some ns) (pageError p).
Proof.
  revert p. induction ns as [|n ns IH]; intros p; [done |].
  change (replay p (map Failed (n :: ns)))
    with (replay (handleError n p) (map Failed ns)).
  destruct (IH (handleError n p)) as [-> ->]. split; [done |].
  change (map Some (n :: ns)) with ([Some n] ++ map Some ns).
  by rewrite last_app_default.
Qed.

Lemma replay_completed (p : Page) (rs : list (list string)) :
  uploadedFileUrls (replay p (map Completed rs))
  = uploadedFileUrls p ++ concat rs
  ∧ pageError (replay p (map Completed rs))
    = match rs with [] => pageError p | _ => None end.
Proof.
  revert p. induction rs as [|r rs IH]; intros p.
  - simpl. by rewrite app_nil_r.
  - change (replay p (map Completed (r :: rs)))
      with (replay (handleUploadComplete r p) (map Completed rs)).
    destruct (IH (handleUploadComplete r p)) as [-> ->]. simpl.
    rewrite <- app_assoc. split; [done |]. by destruct rs.
Qed.

(** The page after the calls of a run, for a page [p] before it. *)
Lemma page_run (p0 : Page) (s : State) (events : list Event) (p : Page) :
  reporting s →
  uploadedFileUrls p = uploadedFileUrls p0 ++ concat (results s) →
  pageError p = match results s with
                | [] => List.last (map Some (notices s)) (pageError p0)
                | _ => None
                end →
  let s' := run s events in
  let p' := replay p (calls s events) in
  uploadedFileUrls p' = uploadedFileUrls p0 ++ concat (results s')
  ∧ pageError p' = match results s' with
                   | [] => List.last (map Some (notices s')) (pageError p0)
                   | _ => None
                   end.
Proof.
  revert s p. induction events as [|e events IH]; intros s p Hrep Hu He;
    [done |].
  cbv zeta. rewrite run_cons.
  change (calls s (e :: events)) with (emitted s e ++ calls (step s e) events).
  rewrite replay_app.
  apply IH; [by apply reporting_step | |];
    destruct (step_log s e Hrep) as (ns & rs & Hn & Hr & Hdone);
    unfold emitted; rewrite Hn, Hr, !drop_app_length, replay_app;
    destruct (replay_completed (replay p (map Failed ns)) rs) as [Hcu Hce];
    destruct (replay_failed p ns) as [Hfu Hfe].
  - by rewrite Hcu, Hfu, Hu, concat_app, app_assoc.
  - rewrite Hce, Hfe, He. destruct (results s) as [|r rest].
    + simpl. destruct rs; [| done].
      by rewrite map_app, last_app_default.
    + destruct Hdone as [-> ->]; done.
Qed.

End PageFacts.

(** X14: the page after a run of [handleUpload], whatever it showed
    before.  When the run has reported URLs, the page lists them after those
    it listed and shows no error, not even the notice of a file of the same
    batch that failed; when it has not, the list is as before and the error
    is the notice of the last upload that failed, or the error shown
    before. *)
Theorem page_lists_urls_and_drops_notices
    (prev : list Dropzone.FileWithPreview) (events : list Dropzone.Event)
    (p : Dropzone.Page) :
  let s := Dropzone.run (Dropzone.handleUpload prev) events in
  let p' := Dropzone.replay p (Dropzone.calls (Dropzone.handleUpload prev) events) in
  match Dropzone.results s with
  | [] =>
      Dropzone.uploadedFileUrls p' = Dropzone.uploadedFileUrls p
      ∧ Dropzone.pageError p'
        = List.last (map Some (Dropzone.notices s)) (Dropzone.pageError p)
  | _ =>
      Dropzone.finished s = true
      ∧ Dropzone.uploadedFileUrls p'
        = Dropzone.uploadedFileUrls p ++ Dropzone.uploadedUrls s
      ∧ Dropzone.pageError p' = None
  end.
Proof.
  intros s p'.
  assert (Dropzone.notices (Dropzone.handleUpload prev) = []
          ∧ Dropzone.results (Dropzone.handleUpload prev) = []) as [Hn0 Hr0].
  { unfold Dropzone.handleUpload.
    destruct (bool_decide (length prev = 0)%nat); [done |].
    unfold Dropzone.afterAll. simpl.
    by destruct (forallb _ _). }
  destruct (page_run p (Dropzone.handleUpload prev) events p
              (reporting_handleUpload prev)) as [Hu He].
  { by rewrite Hr0, app_nil_r. }
  { by rewrite Hr0, Hn0. }
  pose proof (reporting_run _ events (reporting_handleUpload prev))
    as [_ Hrep].
  fold s in Hrep.
  fold s p' in Hu, He.
  destruct Hrep as [(Hres & _) | (Hfin & _ & Hres & _)].
  - rewrite Hres in *. simpl in Hu. by rewrite app_nil_r in Hu.
  - rewrite Hres in *. simpl in Hu. by rewrite app_nil_r in Hu.
Qed.

(** ** Settled uploads, and removal in the middle of a run *)

Section Final.

Import Dropzone.

Lemma run_app (s : State) (events more : list Event) :
  run s (events ++ more) = run (run s events) more.
Proof. apply foldl_app. Qed.

Lemma settled_run (s : State) (events : list Event) (i : nat) (t : Task) :
  tasks s !! i = Some t → settled t = true →
  tasks (run s events) !! i = Some t.
Proof.
  revert s. induction events as [|e events IH]; intros s Hi Hset; [done |].
  rewrite run_cons. apply IH; [| done]. by apply settled_step.
Qed.

Lemma handleUpload_unfinished (prev : list FileWithPreview)
    (g : FileWithPreview) :
  g ∈ prev → status g = pending →
  finished (handleUpload prev) = false
  ∧ files (handleUpload prev) = prev.
Proof.
  intros Hin Hp. unfold handleUpload.
  rewrite bool_decide_eq_false_2
    by (destruct prev; [by apply elem_of_nil in Hin | done]).
  set (pendingFiles := List.filter _ prev).
  assert (g ∈ pendingFiles) as Hg.
  { subst pendingFiles. apply list_elem_of_In, filter_In.
    split; [by apply list_elem_of_In | by apply bool_decide_eq_true_2]. }
  unfold afterAll. simpl.
  destruct pendingFiles as [|f rest]; [by apply elem_of_nil in Hg | done].
Qed.

End Final.

(** X15: the outcome of an upload is final.  Once an upload has resolved
    or been rejected, no later event, of the network or of the user, changes
    it; and in a batch with distinct identifiers that sees no removal, its
    file stays in the list and keeps showing [success] or [error]. *)
Theorem settled_upload_is_final
    (prev : list Dropzone.FileWithPreview)
    (events more : list Dropzone.Event) (i : nat) (t : Dropzone.Task)
    (Hi : Dropzone.tasks (Dropzone.run (Dropzone.handleUpload prev) events) !! i
          = Some t)
    (Hset : Dropzone.settled t = true) :
  let s' := Dropzone.run (Dropzone.handleUpload prev) (events ++ more) in
  Dropzone.tasks s' !! i = Some t
  ∧ (NoDup (map Dropzone.id prev) →
     forallb ofNetwork (events ++ more) = true →
     ∃ f, f ∈ Dropzone.files s'
          ∧ Dropzone.id f = Dropzone.id (Dropzone.taskFile t)
          ∧ Dropzone.status f
            = match Dropzone.stage t with
              | Dropzone.Resolved _ => Dropzone.success
              | _ => Dropzone.error
              end).
Proof.
  intros s'.
  assert (Dropzone.tasks s' !! i = Some t) as Hi'.
  { subst s'. rewrite run_app. by apply settled_run. }
  split; [done |]. intros Hnd Hnet.
  assert (agreement s') as (_ & _ & Hagree & _)
    by (by apply agreement_run; [apply agreement_handleUpload |]).
  destruct (Hagree i t Hi') as (f & Hin & Hid & Hst).
  exists f. split_and!; [done | done |].
  unfold Dropzone.settled in Hset.
  by destruct (Dropzone.stage t).
Qed.

Lemma settled_upload_is_final_witness :
  let s' :=
    Dropzone.run (Dropzone.handleUpload [sampleImage; sampleVideo])
      ([Dropzone.UploadUrlFailed 0]
       ++ [ Dropzone.UploadUrlOk 0 writeUrlA; Dropzone.Load 0 200;
            Dropzone.UploadUrlOk 1 writeUrlB ]) in
  Dropzone.tasks s' !! 0%nat
  = Some {| Dropzone.taskFile := sampleImage;
            Dropzone.stage := Dropzone.Rejected |}
  ∧ ∃ f, f ∈ Dropzone.files s'
         ∧ Dropzone.id f = Dropzone.id sampleImage
         ∧ Dropzone.status f = Dropzone.error.
Proof.
  destruct (settled_upload_is_final [sampleImage; sampleVideo]
              [Dropzone.UploadUrlFailed 0]
              [ Dropzone.UploadUrlOk 0 writeUrlA; Dropzone.Load 0 200;
                Dropzone.UploadUrlOk 1 writeUrlB ]
              0%nat
              {| Dropzone.taskFile := sampleImage;
                 Dropzone.stage := Dropzone.Rejected |}
              eq_refl eq_refl) as [Htask Hfile].
  split; [exact Htask |]. apply Hfile.
  - apply (bool_decide_unpack _). by vm_compute.
  - reflexivity.
Defined.

(** X16: removing a file in the middle of a run gives the upload button
    back.  In a batch where no file shows [uploading], as is the case until
    the first progress event, removing any file lowers [isUploading] while
    the uploads of the others are still under way: with a pending file left,
    the run has not finished and the button is enabled again. *)
Theorem removal_reenables_upload_mid_run
    (prev : list Dropzone.FileWithPreview) (fileId : string)
    (g : Dropzone.FileWithPreview)
    (Hidle : ∀ f, f ∈ prev → Dropzone.status f ≠ Dropzone.uploading)
    (Hin : g ∈ prev)
    (Hne : Dropzone.id g ≠ fileId)
    (Hpending : Dropzone.status g = Dropzone.pending) :
  let s := Dropzone.step (Dropzone.handleUpload prev)
             (Dropzone.RemoveFile fileId) in
  Dropzone.finished s = false
  ∧ Dropzone.isUploading s = false
  ∧ Dropzone.uploadDisabled s = false
  ∧ g ∈ Dropzone.files s.
Proof.
  intros s. subst s.
  change (Dropzone.step (Dropzone.handleUpload prev)
            (Dropzone.RemoveFile fileId))
    with (Dropzone.removeFile fileId (Dropzone.handleUpload prev)).
  destruct (handleUpload_unfinished prev g Hin Hpending) as [Hfin Hfiles].
  destruct (removeFile_fields fileId (Dropzone.handleUpload prev))
    as (_ & Hf & _ & _ & _ & Hfs & _).
  rewrite Hfiles in Hfs.
  assert (g ∈ Dropzone.files
                (Dropzone.removeFile fileId (Dropzone.handleUpload prev)))
    as Hg.
  { rewrite Hfs. apply list_elem_of_In, filter_In.
    split; [by apply list_elem_of_In |].
    apply negb_true_iff, String.eqb_neq. done. }
  assert (Dropzone.isUploading
            (Dropzone.removeFile fileId (Dropzone.handleUpload prev)) = false)
    as Hup.
  { unfold Dropzone.removeFile. rewrite Hfiles.
    set (filtered := List.filter _ prev).
    assert (existsb (λ f, bool_decide (Dropzone.status f = Dropzone.uploading))
              filtered = false) as ->.
    { apply not_true_is_false. intros Hex.
      apply existsb_exists in Hex as (f & Hf' & Hu).
      apply bool_decide_eq_true_1 in Hu.
      subst filtered. apply filter_In in Hf' as [Hf' _].
      by apply (Hidle f); [apply list_elem_of_In |]. }
    done. }
  split_and!; [by rewrite Hf | done | | done].
  unfold Dropzone.uploadDisabled. rewrite Hup. simpl.
  apply not_true_is_false. intros Hall.
  rewrite forallb_forall in Hall.
  specialize (Hall g (proj1 (list_elem_of_In _ _) Hg)).
  apply bool_decide_eq_true_1 in Hall. congruence.
Qed.

Lemma removal_reenables_upload_mid_run_witness :
  let s := Dropzone.step (Dropzone.handleUpload [sampleImage; sampleVideo])
             (Dropzone.RemoveFile (Dropzone.id sampleImage)) in
  Dropzone.finished s = false
  ∧ Dropzone.isUploading s = false
  ∧ Dropzone.uploadDisabled s = false
  ∧ sampleVideo ∈ Dropzone.files s.
Proof.
  apply (removal_reenables_upload_mid_run [sampleImage; sampleVideo]
           (Dropzone.id sampleImage) sampleVideo).
  - intros f Hf.
    apply elem_of_cons in Hf as [-> | Hf]; [done |].
    apply list_elem_of_singleton in Hf as ->. done.
  - apply elem_of_cons. right. apply elem_of_cons. by left.
  - done.
  - reflexivity.
Defined.

(** ** The Uppy uploader: its poll and the URLs it reports *)

Section UppyFacts.

Import Uppy.

Lemma uppy_run_snoc (c : Component) (events : list Event) (e : Event) :
  run c (events ++ [e]) = step (run c events) e.
Proof. unfold run. by rewrite foldl_app. Qed.

Lemma checkCompletion_fields (c : Component) :
  pending (state (checkCompletion c)) = pending (state c)
  ∧ awaiting (checkCompletion c) = awaiting c
  ∧ urls (state (checkCompletion c)) = urls (state c)
  ∧ currentBatchUrls (state (checkCompletion c)) = currentBatchUrls (state c)
  ∧ (results (checkCompletion c) = results c
     ∨ results (checkCompletion c)
       = results c ++ [mapValues (currentBatchUrls (state c))]).
Proof.
  unfold checkCompletion.
  destruct (bool_decide (size (pending (state c)) = 0)%nat);
    [| split_and!; try done; by left].
  destruct (bool_decide
              (0 < length (mapValues (currentBatchUrls (state c))))%nat);
    simpl; split_and!; try done; by (left + right).
Qed.

Lemma checkCompletion_idle (c : Component) :
  size (pending (state c)) = 0%nat →
  timers (checkCompletion c) = timers c.
Proof.
  intros Hp. unfold checkCompletion.
  rewrite bool_decide_eq_true_2 by done.
  by destruct (bool_decide
                 (0 < length (mapValues (currentBatchUrls (state c))))%nat).
Qed.

Lemma removeFirst_other (f g : UppyFile) (l : list UppyFile) :
  g ∈ l → id g ≠ id f → g ∈ removeFirst f l.
Proof.
  intros Hin Hne. induction l as [|h l IH]; [done |].
  apply elem_of_cons in Hin as [<- | Hin]; simpl.
  - unfold sameFile. apply String.eqb_neq in Hne. rewrite Hne. simpl.
    apply elem_of_cons. by left.
  - destruct (sameFile f h); [done |].
    apply elem_of_cons. right. by apply IH.
Qed.

(** Every identifier in [pending] is that of a file whose view-URL fetch is
    outstanding. *)
Lemma pending_awaited_step (c : Component) (e : Event) :
  (∀ x, x ∈ pending (state c) → ∃ f, f ∈ awaiting c ∧ id f = x) →
  ∀ x, x ∈ pending (state (step c e)) →
       ∃ f, f ∈ awaiting (step c e) ∧ id f = x.
Proof.
  intros Hinv x.
  assert (∀ f x, x ∈ pending (state c) ∖ {[id f]} →
                 ∃ g, g ∈ removeFirst f (awaiting c) ∧ id g = x) as Hdel.
  { intros f y [Hy Hne]%elem_of_difference.
    destruct (Hinv y Hy) as (g & Hg & <-).
    exists g. split; [| done]. apply removeFirst_other; [done |].
    intros Heq. apply Hne. rewrite Heq. by apply elem_of_singleton. }
  destruct e; simpl.
  - by intros ?%elem_of_empty.
  - destruct file as [f|]; [| by apply Hinv].
    destruct (unusable (Some f)); [by apply Hinv |]. simpl.
    intros [Hx%elem_of_singleton | Hx]%elem_of_union.
    + exists f. split; [| done]. apply elem_of_app. right.
      by apply list_elem_of_singleton.
    + destruct (Hinv x Hx) as (g & Hg & <-).
      exists g. split; [| done]. apply elem_of_app. by left.
  - destruct (isAwaited file c); [| by apply Hinv]. simpl. apply Hdel.
  - destruct (isAwaited file c); [| by apply Hinv]. simpl. apply Hdel.
  - destruct file as [f|]; [| by apply Hinv].
    destruct (unusable (Some f)); [by apply Hinv |]. simpl.
    intros [Hx _]%elem_of_difference. by apply Hinv.
  - match goal with
    | |- context [checkCompletion ?c1] =>
        destruct (checkCompletion_fields c1) as (-> & -> & _)
    end.
    destruct (bool_decide (0 < length failed)%nat); by apply Hinv.
  - destruct (timers c) as [|n]; [by apply Hinv |].
    match goal with
    | |- context [checkCompletion ?c1] =>
        destruct (checkCompletion_fields c1) as (-> & -> & _)
    end.
    by apply Hinv.
Qed.

Lemma pending_awaited_run (events : list Event) :
  ∀ x, x ∈ pending (state (run mount events)) →
       ∃ f, f ∈ awaiting (run mount events) ∧ id f = x.
Proof.
  induction events as [|e events IH] using rev_ind.
  - by intros x ?%elem_of_empty.
  - rewrite uppy_run_snoc. by apply pending_awaited_step.
Qed.






End UppyFacts.

(** X17: the poll of [checkCompletion] is re-armed only while a view-URL
    fetch is outstanding.  In every run each identifier in [pending] belongs
    to a file whose fetch has not answered; so once none is outstanding, a
    [complete] event arms no timer and a timer that fires is not replaced. *)
Theorem uppy_poll_ends_with_the_last_fetch (events : list Uppy.Event) :
  let c := Uppy.run Uppy.mount events in
  (∀ x, x ∈ Uppy.pending (Uppy.state c) →
        ∃ f, f ∈ Uppy.awaiting c ∧ Uppy.id f = x)
  ∧ (Uppy.awaiting c = [] →
     (∀ failed successful,
        Uppy.timers (Uppy.step c (Uppy.Complete failed successful))
        = Uppy.timers c)
     ∧ (∀ n, Uppy.timers c = S n →
             Uppy.timers (Uppy.step c Uppy.Timer) = n)).
Proof.
  intros c. pose proof (pending_awaited_run events) as Hinv. fold c in Hinv.
  split; [done |]. intros Hnone.
  assert (size (Uppy.pending (Uppy.state c)) = 0%nat) as Hsize.
  { apply size_empty_iff, elem_of_equiv_empty. intros x Hx.
    destruct (Hinv x Hx) as (f & Hf & _). rewrite Hnone in Hf.
    by apply elem_of_nil in Hf. }
  split.
  - intros failed successful. simpl.
    rewrite checkCompletion_idle;
      by destruct (bool_decide (0 < length failed)%nat).
  - intros n Hn. simpl. rewrite Hn. by rewrite checkCompletion_idle.
Qed.

